(** * go-serverapp/web: admission gate, response wrapper and pipeline

    A shallow embedding of the request-admission and response-pipeline core
    of [github.com/ugorji/go-serverapp/web]:

    - [RW]       response-writer.go  (the [responseWriter] wrapper)
    - [Gate]     the [Listener] (connection gate): NewListener,
                 ResetMaxNumConn, Run, afterRun, Accept, Close, HardPause ...
    - [Pipe]     pipeline.go ([Pipeline.Next], [FlusherPipe],
                 [HttpHandlerPipe]) and the dispatcher [HTTPServer.ServeHTTP]
    - [Gzip]     pipeline.go ([gzipWriter], [GzipPipe])
    - [Store]    the [WebStore] of pipeline.go

    Go integers are modelled as [Z] with their wrap-around written out, byte
    slices as [list byte], the [http.Header] map as a [gmap] from keys to
    value lists, and every collaborator that lives outside the repository
    (the raw response sink, the raw listener, the gzip codec) by the trace of
    calls made on it. *)

From Stdlib Require Import ZArith Lia Bool List.
From Stdlib Require Import Floats.SpecFloat.
From stdpp Require Import base option list gmap strings relations.

Open Scope Z_scope.

(** ** Machine integers *)

(** Two's-complement wrap-around to a signed [n]-bit integer. *)
Definition wrap (n : Z) (z : Z) : Z :=
  (z + 2 ^ (n - 1)) mod 2 ^ n - 2 ^ (n - 1).

Definition wrap32 : Z -> Z := wrap 32.
Definition wrap64 : Z -> Z := wrap 64.

Definition int32_range (z : Z) : Prop := - 2 ^ 31 <= z < 2 ^ 31.
Definition int64_range (z : Z) : Prop := - 2 ^ 63 <= z < 2 ^ 63.

Lemma wrap32_id z : int32_range z -> wrap32 z = z.
Proof.
  unfold int32_range, wrap32, wrap. intros H.
  rewrite Z.mod_small; lia.
Qed.

Lemma wrap64_id z : int64_range z -> wrap64 z = z.
Proof.
  unfold int64_range, wrap64, wrap. intros H.
  rewrite Z.mod_small; lia.
Qed.

Lemma wrap32_range z : int32_range (wrap32 z).
Proof.
  unfold int32_range, wrap32, wrap.
  pose proof (Z.mod_pos_bound (z + 2 ^ (32 - 1)) (2 ^ 32) ltac:(lia)). lia.
Qed.

Lemma wrap64_range_aux z : int64_range (wrap64 z).
Proof.
  unfold int64_range, wrap64, wrap.
  pose proof (Z.mod_pos_bound (z + 2 ^ (64 - 1)) (2 ^ 64) ltac:(lia)). lia.
Qed.

Lemma wrap32_add_l a b : wrap32 (wrap32 a + b) = wrap32 (a + b).
Proof.
  unfold wrap32, wrap.
  replace ((a + 2 ^ (32 - 1)) mod 2 ^ 32 - 2 ^ (32 - 1) + b + 2 ^ (32 - 1))
    with ((a + 2 ^ (32 - 1)) mod 2 ^ 32 + b) by lia.
  rewrite Z.add_mod_idemp_l by lia.
  f_equal. f_equal. lia.
Qed.

(** Adding one and then subtracting one again is the identity on int32, also
    across the overflow boundary. *)
Lemma wrap32_inc_dec z : int32_range z -> wrap32 (wrap32 (z + 1) - 1) = z.
Proof.
  intros H. unfold int32_range in H.
  destruct (Z.eq_dec z (2 ^ 31 - 1)) as [->|Hne].
  - reflexivity.
  - rewrite (wrap32_id (z + 1)) by (unfold int32_range; lia).
    rewrite wrap32_id by (unfold int32_range; lia). lia.
Qed.

Definition bytes : Type := list Byte.byte.

(** The byte length of a slice, as a Go [int]. *)
Definition len {A} (l : list A) : Z := Z.of_nat (length l).

Definition is_some {A} (o : option A) : bool :=
  match o with Some _ => true | None => false end.

(** ** net/http header maps

    [http.Header] is a [map[string][]string].  [Get] returns the first value
    stored under the key (or the empty string), [Set] replaces the entry by a
    single value.  The repository only uses keys that are already in
    canonical MIME form, so canonicalisation is the identity on them. *)

Abbreviation Header := (gmap string (list string)).

Definition Header_Get (h : Header) (k : string) : string :=
  match h !! k with
  | Some (v :: _) => v
  | _ => EmptyString
  end.

Definition Header_Set (h : Header) (k v : string) : Header := <[k := [v]]> h.

(** ** Outcome of a Go call: normal return or a panic unwinding the stack *)

Inductive Res (A : Type) : Type :=
| Ok (a : A)
| Panicked (v : string).
Arguments Ok {A} a.
Arguments Panicked {A} v.

(** State monad with panics: the shape of all stateful code below. *)
Definition M (S A : Type) : Type := S -> Res A * S.

Definition ret {S A} (a : A) : M S A := fun s => (Ok a, s).

Definition bind {S A B} (m : M S A) (k : A -> M S B) : M S B :=
  fun s => match m s with
           | (Ok a, s') => k a s'
           | (Panicked v, s') => (Panicked v, s')
           end.

Definition panic {S A} (v : string) : M S A := fun s => (Panicked v, s).

(** [m `finally` d]: Go's [defer d()] registered just before [m] runs: [d]
    runs whether [m] returns or panics, and the outcome of [m] is kept. *)
Definition finally {S A} (m : M S A) (d : S -> S) : M S A :=
  fun s => let '(r, s') := m s in (r, d s').

Definition modify {S} (f : S -> S) : M S unit := fun s => (Ok tt, f s).
Definition gets {S A} (f : S -> A) : M S A := fun s => (Ok (f s), s).

Declare Scope go_scope.
Delimit Scope go_scope with go.
Notation "x <- m ;; k" := (bind m (fun x => k))
  (at level 100, m at next level, right associativity) : go_scope.
Notation "m ;;; k" := (bind m (fun _ => k))
  (at level 100, right associativity) : go_scope.

(** ** response-writer.go *)

Module RW.

(** The raw [http.ResponseWriter] handed in by net/http is outside the
    repository.  It is modelled by what the wrapper can do to it: the calls
    it has received so far, its header map, whether it implements
    [http.Flusher], and the reply [(n, err)] it gives to a [Write], which
    may depend on everything it has received. *)
Inductive SinkCall : Type :=
| SinkWriteHeader (code : Z)
| SinkWrite (b : bytes)
| SinkFlush.

Record RawSink : Type := mkRawSink {
  hdr : Header;
  calls : list SinkCall;
  isFlusher : bool;
  writeReply : list SinkCall -> bytes -> Z * option string
}.

Definition raw_log (c : SinkCall) (s : RawSink) : RawSink :=
  mkRawSink (hdr s) (calls s ++ [c]) (isFlusher s) (writeReply s).

Definition raw_WriteHeader (c : Z) (s : RawSink) : RawSink :=
  raw_log (SinkWriteHeader c) s.

Definition raw_Write (b : bytes) (s : RawSink) : (Z * option string) * RawSink :=
  (writeReply s (calls s) b, raw_log (SinkWrite b) s).

Definition raw_Flush (s : RawSink) : RawSink := raw_log SinkFlush s.

Definition raw_setHeader (k v : string) (s : RawSink) : RawSink :=
  mkRawSink (Header_Set (hdr s) k v) (calls s) (isFlusher s) (writeReply s).

(** [type responseWriter struct] *)
Record responseWriter : Type := mkRW {
  w : RawSink;
  numBytesW : Z;          (* int64 *)
  code : Z;               (* int *)
  headerWritten : bool
}.

Definition StatusOK : Z := 200.
Definition StatusServiceUnavailable : Z := 503.

(** [AsResponseWriter]: a sink that is not already a [ResponseWriter] is
    wrapped in a fresh [responseWriter]; one that is, is returned as it is. *)
Definition wrapRaw (s : RawSink) : responseWriter := mkRW s 0 0 false.

Definition AsResponseWriter (x : RawSink + responseWriter) : responseWriter :=
  match x with
  | inl s => wrapRaw s
  | inr t => t
  end.

Definition NumBytesWritten (t : responseWriter) : Z := numBytesW t.

Definition ResponseCode (t : responseWriter) : Z :=
  if code t <=? 0 then StatusOK else code t.

Definition IsHeaderWritten (t : responseWriter) : bool := headerWritten t.

Definition ensureHeaderWritten (t : responseWriter) : responseWriter :=
  if negb (headerWritten t)
  then mkRW (raw_WriteHeader (ResponseCode t) (w t)) (numBytesW t) (code t) true
  else t.

Definition Write (b : bytes) (t : responseWriter)
  : (Z * option string) * responseWriter :=
  let t1 := ensureHeaderWritten t in
  let '((i, err), w') := raw_Write b (w t1) in
  ((i, err), mkRW w' (wrap64 (numBytesW t1 + i)) (code t1) (headerWritten t1)).

Definition Flush (t : responseWriter) : responseWriter :=
  let t1 := ensureHeaderWritten t in
  if isFlusher (w t1)
  then mkRW (raw_Flush (w t1)) (numBytesW t1) (code t1) (headerWritten t1)
  else t1.

Definition WriteHeader (c : Z) (t : responseWriter) : responseWriter :=
  if headerWritten t then t
  else mkRW (w t) (numBytesW t) c (headerWritten t).

(** [t.Header().Set(k, v)]: the header map of the raw sink, shared. *)
Definition setHeader (k v : string) (t : responseWriter) : responseWriter :=
  mkRW (raw_setHeader k v (w t)) (numBytesW t) (code t) (headerWritten t).

Definition getHeader (k : string) (t : responseWriter) : string :=
  Header_Get (hdr (w t)) k.

(** *** Sequences of calls on one wrapper *)

Inductive Op : Type :=
| OWriteHeader (c : Z)
| OWrite (b : bytes)
| OFlush
| OSetHeader (k v : string).

Definition step (t : responseWriter) (o : Op) : responseWriter :=
  match o with
  | OWriteHeader c => WriteHeader c t
  | OWrite b => snd (Write b t)
  | OFlush => Flush t
  | OSetHeader k v => setHeader k v t
  end.

Definition run (ops : list Op) (t : responseWriter) : responseWriter :=
  fold_left step ops t.

(** The status codes the raw sink has been sent, oldest first. *)
Definition statuses (cs : list SinkCall) : list Z :=
  omap (fun c => match c with SinkWriteHeader z => Some z | _ => None end) cs.

(** The status that a sequence of calls commits, read off the calls alone:
    [rec] is the code recorded so far; the first Write or Flush commits it,
    or 200 when it is not positive (nothing set). *)
Fixpoint committed (rec : Z) (ops : list Op) : option Z :=
  match ops with
  | [] => None
  | OWriteHeader c :: r => committed c r
  | OSetHeader _ _ :: r => committed rec r
  | (OWrite _ | OFlush) :: _ => Some (if rec <=? 0 then StatusOK else rec)
  end.

(** Invariant of every wrapper the package builds: the byte counter is an
    int64. *)
Definition wf (t : responseWriter) : Prop := int64_range (numBytesW t).

(** The [io.Writer] contract the raw sink is expected to honour:
    [0 <= n <= len(p)]. *)
Definition io_Writer_contract (s : RawSink) : Prop :=
  forall cs b, 0 <= fst (writeReply s cs b) <= len b.

(** *** Facts *)

Lemma statuses_app cs1 cs2 : statuses (cs1 ++ cs2) = statuses cs1 ++ statuses cs2.
Proof. unfold statuses. apply omap_app. Qed.

Lemma wrapRaw_wf s : wf (wrapRaw s).
Proof. unfold wf, int64_range; simpl. lia. Qed.

Lemma ensureHeaderWritten_committed t : headerWritten (ensureHeaderWritten t) = true.
Proof. unfold ensureHeaderWritten. destruct (headerWritten t) eqn:H; simpl; auto. Qed.

Lemma ensureHeaderWritten_idem t :
  headerWritten t = true -> ensureHeaderWritten t = t.
Proof. unfold ensureHeaderWritten. intros ->. reflexivity. Qed.

Lemma ensureHeaderWritten_calls t :
  calls (w (ensureHeaderWritten t)) =
  calls (w t) ++ (if headerWritten t then [] else [SinkWriteHeader (ResponseCode t)]).
Proof.
  unfold ensureHeaderWritten. destruct (headerWritten t); simpl.
  - now rewrite app_nil_r.
  - reflexivity.
Qed.

Lemma Write_calls b t :
  calls (w (snd (Write b t))) =
  calls (w t) ++ (if headerWritten t then [] else [SinkWriteHeader (ResponseCode t)])
              ++ [SinkWrite b].
Proof.
  unfold Write, raw_Write.
  destruct (writeReply _ _ b) as [i err]. simpl.
  rewrite ensureHeaderWritten_calls. now rewrite <- app_assoc.
Qed.

Lemma Write_committed b t : headerWritten (snd (Write b t)) = true.
Proof.
  unfold Write, raw_Write.
  destruct (writeReply _ _ b) as [i err]. simpl.
  apply ensureHeaderWritten_committed.
Qed.

Lemma Write_code b t : code (snd (Write b t)) = code t.
Proof.
  unfold Write, raw_Write.
  destruct (writeReply _ _ b) as [i err]. simpl.
  unfold ensureHeaderWritten. now destruct (headerWritten t).
Qed.

Lemma Flush_calls t :
  calls (w (Flush t)) =
  calls (w t) ++ (if headerWritten t then [] else [SinkWriteHeader (ResponseCode t)])
              ++ (if isFlusher (w t) then [SinkFlush] else []).
Proof.
  unfold Flush.
  assert (Hf : isFlusher (w (ensureHeaderWritten t)) = isFlusher (w t)).
  { unfold ensureHeaderWritten. now destruct (headerWritten t). }
  rewrite Hf. destruct (isFlusher (w t)); simpl.
  - rewrite ensureHeaderWritten_calls. now rewrite <- app_assoc.
  - rewrite ensureHeaderWritten_calls. now rewrite app_nil_r.
Qed.

Lemma Flush_committed t : headerWritten (Flush t) = true.
Proof.
  unfold Flush. destruct (isFlusher _); simpl; apply ensureHeaderWritten_committed.
Qed.

Lemma Flush_code t : code (Flush t) = code t.
Proof.
  unfold Flush, ensureHeaderWritten.
  destruct (headerWritten t); simpl; destruct (isFlusher _); reflexivity.
Qed.

(** What one call adds to the status codes the raw sink has seen. *)
Definition commits (o : Op) : bool :=
  match o with OWrite _ | OFlush => true | _ => false end.

Lemma step_statuses t o :
  statuses (calls (w (step t o))) =
  statuses (calls (w t)) ++
    (if commits o && negb (headerWritten t) then [ResponseCode t] else []).
Proof.
  destruct o as [c|b| |k v]; simpl.
  - unfold WriteHeader. destruct (headerWritten t); simpl; now rewrite app_nil_r.
  - rewrite Write_calls, !statuses_app.
    destruct (headerWritten t); simpl; now rewrite ?app_nil_r.
  - rewrite Flush_calls, !statuses_app.
    destruct (headerWritten t), (isFlusher (w t)); simpl; now rewrite ?app_nil_r.
  - now rewrite app_nil_r.
Qed.

Lemma step_headerWritten t o :
  headerWritten (step t o) = commits o || headerWritten t.
Proof.
  destruct o as [c|b| |k v]; simpl.
  - unfold WriteHeader. destruct (headerWritten t) eqn:H; simpl; auto.
  - apply Write_committed.
  - apply Flush_committed.
  - reflexivity.
Qed.

Lemma step_code t o :
  code (step t o) =
  match o with
  | OWriteHeader c => if headerWritten t then code t else c
  | _ => code t
  end.
Proof.
  destruct o as [c|b| |k v]; simpl.
  - unfold WriteHeader. destruct (headerWritten t) eqn:H; simpl; auto.
  - apply Write_code.
  - apply Flush_code.
  - reflexivity.
Qed.

(** Once committed, no call adds a status. *)
Lemma run_committed_statuses ops : forall t,
  headerWritten t = true ->
  statuses (calls (w (run ops t))) = statuses (calls (w t))
  /\ headerWritten (run ops t) = true.
Proof.
  induction ops as [|o ops IH]; intros t Ht; simpl; [auto|].
  destruct (IH (step t o)) as [IH1 IH2].
  { rewrite step_headerWritten, Ht. apply orb_true_r. }
  split; [|exact IH2].
  rewrite IH1, step_statuses, Ht, andb_false_r. apply app_nil_r.
Qed.

Lemma run_uncommitted ops : forall t,
  headerWritten t = false ->
  statuses (calls (w (run ops t))) =
    statuses (calls (w t)) ++ option_list (committed (code t) ops)
  /\ headerWritten (run ops t) = is_some (committed (code t) ops).
Proof.
  induction ops as [|o ops IH]; intros t Ht; simpl.
  - rewrite app_nil_r. split; [reflexivity|exact Ht].
  - destruct o as [c|b| |k v].
    + destruct (IH (step t (OWriteHeader c))) as [IH1 IH2].
      { rewrite step_headerWritten. simpl. exact Ht. }
      rewrite step_code, Ht in IH1, IH2.
      rewrite step_statuses, Ht in IH1. simpl in IH1. rewrite app_nil_r in IH1.
      auto.
    + destruct (run_committed_statuses ops (step t (OWrite b))) as [H1 H2].
      { now rewrite step_headerWritten. }
      rewrite H1, H2, step_statuses, Ht. simpl. split; reflexivity.
    + destruct (run_committed_statuses ops (step t OFlush)) as [H1 H2].
      { now rewrite step_headerWritten. }
      rewrite H1, H2, step_statuses, Ht. simpl. split; reflexivity.
    + destruct (IH (step t (OSetHeader k v))) as [IH1 IH2]; [exact Ht|].
      simpl in IH1, IH2. auto.
Qed.

Lemma committed_app rec ops more c :
  committed rec ops = Some c -> committed rec (ops ++ more) = Some c.
Proof.
  revert rec. induction ops as [|o ops IH]; intros rec; simpl; [discriminate|].
  destruct o; auto.
Qed.

Lemma step_wf t o : wf t -> wf (step t o).
Proof.
  unfold wf. destruct o as [c|b| |k v]; simpl; auto.
  - unfold WriteHeader. destruct (headerWritten t) eqn:H; simpl; auto.
  - unfold Write, raw_Write. destruct (writeReply _ _ b) as [i err]. simpl.
    intros _. apply (wrap64_range_aux (numBytesW (ensureHeaderWritten t) + i)).
  - unfold Flush, ensureHeaderWritten.
    destruct (headerWritten t); simpl; destruct (isFlusher _); auto.
Qed.

(** A wrapper and its raw sink agree: the sink has been sent one status
    if the wrapper is committed, and none otherwise. *)
Definition coherent (t : responseWriter) : Prop :=
  length (statuses (calls (w t))) = if headerWritten t then 1%nat else 0%nat.

Lemma step_coherent t o : coherent t -> coherent (step t o).
Proof.
  unfold coherent. intros H.
  rewrite step_statuses, step_headerWritten, length_app, H.
  destruct (commits o), (headerWritten t); reflexivity.
Qed.

Lemma step_committed_stays t o :
  headerWritten t = true -> headerWritten (step t o) = true.
Proof. intros H. rewrite step_headerWritten, H. apply orb_true_r. Qed.

(** The body bytes the raw sink has been given, in order. *)
Definition body (t : responseWriter) : bytes :=
  concat (omap (fun c => match c with SinkWrite b => Some b | _ => None end)
            (calls (w t))).

(** A raw sink whose [Write] never fails. *)
Definition reliable (s : RawSink) : Prop :=
  forall cs b, snd (writeReply s cs b) = None.

Lemma body_snoc_calls cs c :
  concat (omap (fun c => match c with SinkWrite b => Some b | _ => None end)
            (cs ++ [c])) =
  concat (omap (fun c => match c with SinkWrite b => Some b | _ => None end) cs)
  ++ match c with SinkWrite b => b | _ => [] end.
Proof.
  rewrite omap_app, concat_app. f_equal.
  destruct c; simpl; now rewrite ?app_nil_r.
Qed.

Lemma ensureHeaderWritten_body t : body (ensureHeaderWritten t) = body t.
Proof.
  unfold ensureHeaderWritten. destruct (headerWritten t); simpl; [reflexivity|].
  unfold body. simpl. rewrite body_snoc_calls. apply app_nil_r.
Qed.

Lemma ensureHeaderWritten_writeReply t :
  writeReply (w (ensureHeaderWritten t)) = writeReply (w t).
Proof. unfold ensureHeaderWritten. now destruct (headerWritten t). Qed.

Lemma step_body t o :
  body (step t o) = body t ++ match o with OWrite b => b | _ => [] end.
Proof.
  destruct o as [c|b| |k v]; simpl; rewrite ?app_nil_r.
  - unfold WriteHeader. now destruct (headerWritten t).
  - unfold Write, raw_Write. destruct (writeReply _ _ b) as [n err]. simpl.
    unfold body at 1. simpl. rewrite body_snoc_calls.
    f_equal. apply ensureHeaderWritten_body.
  - unfold Flush. destruct (isFlusher _); simpl.
    + unfold body at 1. simpl. rewrite body_snoc_calls, app_nil_r.
      apply ensureHeaderWritten_body.
    + apply ensureHeaderWritten_body.
  - reflexivity.
Qed.

Lemma step_writeReply t o : writeReply (w (step t o)) = writeReply (w t).
Proof.
  destruct o as [c|b| |k v]; simpl.
  - unfold WriteHeader. now destruct (headerWritten t).
  - unfold Write, raw_Write. destruct (writeReply _ _ b) as [n err]. simpl.
    apply ensureHeaderWritten_writeReply.
  - unfold Flush. destruct (isFlusher _); simpl;
      apply ensureHeaderWritten_writeReply.
  - reflexivity.
Qed.

Lemma step_reliable t o : reliable (w t) -> reliable (w (step t o)).
Proof. unfold reliable. now rewrite step_writeReply. Qed.

Lemma Write_reliable b t : reliable (w t) -> snd (fst (Write b t)) = None.
Proof.
  intros H. unfold Write, raw_Write.
  pose proof (H (calls (w (ensureHeaderWritten t))) b) as Hr.
  rewrite <- ensureHeaderWritten_writeReply in Hr.
  now destruct (writeReply _ _ b) as [n err].
Qed.

(** A raw sink that accepts every byte it is given. *)
Definition acceptAll (h : Header) (fl : bool) : RawSink :=
  mkRawSink h [] fl (fun _ b => (len b, None)).

(** C1.  A status-set call on an uncommitted wrapper only records the code:
    the raw sink is untouched and the wrapper stays uncommitted; on a
    committed wrapper it changes nothing at all.  A Write or a Flush on an
    uncommitted wrapper sends one status to the raw sink, the one
    [ResponseCode] reports (the recorded code when it is positive, 200
    when none is set), and commits; on a committed wrapper it sends none.
    Over any sequence of calls on a freshly wrapped sink the raw sink
    therefore receives at most one status, the one in force at the first
    Write or Flush, whatever is called afterwards. *)
Theorem WriteHeader_deferred_commit :
  (forall c t, WriteHeader c t =
     if headerWritten t then t else mkRW (w t) (numBytesW t) c false)
  /\ (forall b t,
        statuses (calls (w (snd (Write b t)))) =
          statuses (calls (w t)) ++ (if headerWritten t then [] else [ResponseCode t])
        /\ IsHeaderWritten (snd (Write b t)) = true)
  /\ (forall t,
        statuses (calls (w (Flush t))) =
          statuses (calls (w t)) ++ (if headerWritten t then [] else [ResponseCode t])
        /\ IsHeaderWritten (Flush t) = true)
  /\ (forall t, ResponseCode t = if 0 <? code t then code t else 200)
  /\ (forall s ops,
        statuses (calls (w (run ops (wrapRaw s)))) =
          statuses (calls s) ++ option_list (committed 0 ops)
        /\ IsHeaderWritten (run ops (wrapRaw s)) = is_some (committed 0 ops))
  /\ (forall s ops more,
        statuses (calls (w (run (ops ++ more) (wrapRaw s)))) =
          if IsHeaderWritten (run ops (wrapRaw s))
          then statuses (calls (w (run ops (wrapRaw s))))
          else statuses (calls s) ++ option_list (committed 0 (ops ++ more))).
Proof.
  split; [|split; [|split; [|split; [|split]]]].
  - intros c t. unfold WriteHeader. destruct (headerWritten t) eqn:H; reflexivity.
  - intros b t. split; [|apply Write_committed].
    rewrite Write_calls, !statuses_app.
    destruct (headerWritten t); simpl; now rewrite ?app_nil_r.
  - intros t. split; [|apply Flush_committed].
    rewrite Flush_calls, !statuses_app.
    destruct (headerWritten t), (isFlusher (w t)); simpl; now rewrite ?app_nil_r.
  - intros t. unfold ResponseCode, StatusOK.
    destruct (Z.leb_spec (code t) 0), (Z.ltb_spec 0 (code t)); lia.
  - intros s ops. apply (run_uncommitted ops (wrapRaw s)). reflexivity.
  - intros s ops more.
    destruct (run_uncommitted ops (wrapRaw s) eq_refl) as [H1 H2].
    destruct (run_uncommitted (ops ++ more) (wrapRaw s) eq_refl) as [H3 _].
    unfold IsHeaderWritten. rewrite H2. simpl in *.
    destruct (committed 0 ops) as [c|] eqn:Hc; simpl.
    + rewrite H3, H1. now rewrite (committed_app 0 ops more c Hc).
    + exact H3.
Qed.

(** C10.  On an uncommitted wrapper a Write of zero bytes commits: the raw
    sink receives the status and then the empty write, [IsHeaderWritten]
    becomes true, and (the raw sink honouring the [io.Writer] contract)
    [NumBytesWritten] is unchanged. *)
Theorem empty_Write_commits (t : responseWriter) :
  headerWritten t = false -> wf t -> io_Writer_contract (w t) ->
  calls (w (snd (Write [] t))) =
    calls (w t) ++ [SinkWriteHeader (ResponseCode t); SinkWrite []]
  /\ IsHeaderWritten (snd (Write [] t)) = true
  /\ NumBytesWritten (snd (Write [] t)) = NumBytesWritten t.
Proof.
  intros Hu Hwf Hio. split; [|split].
  - rewrite Write_calls, Hu. reflexivity.
  - apply Write_committed.
  - unfold NumBytesWritten, Write, raw_Write.
    destruct (writeReply _ _ []) as [i err] eqn:Hr. simpl.
    assert (Hw : w (ensureHeaderWritten t) =
                 raw_WriteHeader (ResponseCode t) (w t)).
    { unfold ensureHeaderWritten. now rewrite Hu. }
    assert (Hn : numBytesW (ensureHeaderWritten t) = numBytesW t).
    { unfold ensureHeaderWritten. now rewrite Hu. }
    rewrite Hw in Hr. simpl in Hr.
    pose proof (Hio (calls (w t) ++ [SinkWriteHeader (ResponseCode t)]) []) as Hb.
    rewrite Hr in Hb. simpl in Hb. unfold len in Hb. simpl in Hb.
    assert (i = 0) by lia. subst i.
    rewrite Hn, Z.add_0_r. now apply wrap64_id.
Qed.

Lemma empty_Write_commits_witness :
  let t := WriteHeader 404 (wrapRaw (acceptAll ∅ true)) in
  calls (w (snd (Write [] t))) = [SinkWriteHeader 404; SinkWrite []]
  /\ IsHeaderWritten t = false
  /\ IsHeaderWritten (snd (Write [] t)) = true
  /\ NumBytesWritten (snd (Write [] t)) = 0.
Proof.
  assert (Hwf : wf (WriteHeader 404 (wrapRaw (acceptAll ∅ true)))).
  { unfold wf, int64_range. simpl. lia. }
  assert (Hio : io_Writer_contract (w (WriteHeader 404 (wrapRaw (acceptAll ∅ true))))).
  { intros cs b. simpl. unfold len. lia. }
  destruct (empty_Write_commits
              (WriteHeader 404 (wrapRaw (acceptAll ∅ true))) eq_refl Hwf Hio)
    as (H1 & H2 & H3).
  cbv zeta. split; [exact H1 | split; [reflexivity | split; [exact H2 | exact H3]]].
Defined.

(** *** Further facts about the wrapper *)

(** The payloads of the Writes among [ops], in order. *)
Definition offered (ops : list Op) : bytes :=
  concat (omap (fun o => match o with OWrite b => Some b | _ => None end) ops).

Definition isStatus (c : SinkCall) : bool :=
  match c with SinkWriteHeader _ => true | _ => false end.

Lemma step_calls t o :
  calls (w (step t o)) =
  calls (w t)
  ++ (if commits o && negb (headerWritten t)
      then [SinkWriteHeader (ResponseCode t)] else [])
  ++ match o with
     | OWrite b => [SinkWrite b]
     | OFlush => if isFlusher (w t) then [SinkFlush] else []
     | _ => []
     end.
Proof.
  destruct o as [c|b| |k v]; simpl.
  - unfold WriteHeader. destruct (headerWritten t); simpl; now rewrite app_nil_r.
  - rewrite Write_calls. now destruct (headerWritten t).
  - rewrite Flush_calls. now destruct (headerWritten t).
  - now rewrite app_nil_r.
Qed.

Lemma run_committed_calls ops : forall t,
  headerWritten t = true ->
  exists rest,
    calls (w (run ops t)) = calls (w t) ++ rest
    /\ Forall (fun c => isStatus c = false) rest.
Proof.
  induction ops as [|o ops IH]; intros t Ht; simpl.
  - exists []. now rewrite app_nil_r.
  - destruct (IH (step t o) (step_committed_stays t o Ht)) as (rest & Hc & Hr).
    rewrite Hc, step_calls, Ht, andb_false_r. simpl.
    eexists. rewrite <- app_assoc. split; [reflexivity|].
    apply Forall_app. split; [|exact Hr].
    destruct o; simpl; auto. destruct (isFlusher (w t)); auto.
Qed.

Lemma run_body ops : forall t, body (run ops t) = body t ++ offered ops.
Proof.
  induction ops as [|o ops IH]; intros t; simpl.
  - unfold offered. simpl. now rewrite app_nil_r.
  - rewrite IH, step_body, <- app_assoc. f_equal.
    unfold offered. destruct o; simpl; reflexivity.
Qed.

Lemma run_io_Writer_contract ops : forall t,
  io_Writer_contract (w t) -> io_Writer_contract (w (run ops t)).
Proof.
  induction ops as [|o ops IH]; intros t H; simpl; [exact H|].
  apply IH. unfold io_Writer_contract. now rewrite step_writeReply.
Qed.

(** X1.  The raw sink never receives body bytes or a flush before its
    status: over any sequence of calls on an uncommitted wrapper, what
    the raw sink receives is nothing at all, or the status followed by
    calls none of which is a status. *)
Theorem status_precedes_body ops t :
  headerWritten t = false ->
  exists rest,
    calls (w (run ops t)) =
      calls (w t) ++ match committed (code t) ops with
                     | Some st => SinkWriteHeader st :: rest
                     | None => []
                     end
    /\ Forall (fun c => isStatus c = false) rest.
Proof.
  revert t. induction ops as [|o ops IH]; intros t Ht; simpl.
  - exists []. now rewrite app_nil_r.
  - destruct o as [c|b| |k v]; simpl.
    + destruct (IH (WriteHeader c t)) as (rest & Hc & Hr).
      { unfold WriteHeader. now rewrite Ht. }
      exists rest. split; [|exact Hr]. rewrite Hc.
      unfold WriteHeader. now rewrite Ht.
    + destruct (run_committed_calls ops (snd (Write b t)) (Write_committed b t))
        as (rest & Hc & Hr).
      exists (SinkWrite b :: rest). split; [|now constructor].
      rewrite Hc, Write_calls, Ht. unfold ResponseCode.
      now rewrite <- !app_assoc.
    + destruct (run_committed_calls ops (Flush t) (Flush_committed t))
        as (rest & Hc & Hr).
      exists ((if isFlusher (w t) then [SinkFlush] else []) ++ rest).
      split.
      * rewrite Hc, Flush_calls, Ht. unfold ResponseCode.
        now rewrite <- !app_assoc.
      * apply Forall_app. split; [|exact Hr]. destruct (isFlusher (w t)); auto.
    + destruct (IH (setHeader k v t) Ht) as (rest & Hc & Hr).
      exists rest. split; [|exact Hr]. exact Hc.
Qed.

Lemma status_precedes_body_witness :
  exists rest,
    calls (w (run [OSetHeader "A" "b"; OWrite []; OWriteHeader 500; OFlush]
                (wrapRaw (acceptAll ∅ true)))) =
      [] ++ SinkWriteHeader 200 :: rest
    /\ Forall (fun c => isStatus c = false) rest.
Proof.
  exact (status_precedes_body
           [OSetHeader "A" "b"; OWrite []; OWriteHeader 500; OFlush]
           (wrapRaw (acceptAll ∅ true)) eq_refl).
Defined.

(** X2.  What [ResponseCode] reports once the wrapper is committed is
    the status the raw sink was sent: over any sequence of calls on a
    wrapper of a sink that had no status yet, a committed wrapper has
    sent exactly the code it reports, and an uncommitted one none. *)
Theorem ResponseCode_is_sent ops t :
  headerWritten t = false -> statuses (calls (w t)) = [] ->
  statuses (calls (w (run ops t))) =
    if IsHeaderWritten (run ops t) then [ResponseCode (run ops t)] else [].
Proof.
  intros Ht Hs.
  assert (H : forall ops t,
             statuses (calls (w t)) =
               (if headerWritten t then [ResponseCode t] else []) ->
             statuses (calls (w (run ops t))) =
               (if headerWritten (run ops t) then [ResponseCode (run ops t)] else [])).
  { clear. induction ops as [|o ops IH]; intros t H; simpl; [exact H|].
    apply IH. rewrite step_statuses, step_headerWritten, H.
    assert (Hc : ResponseCode (step t o) =
                 if headerWritten t then ResponseCode t
                 else match o with
                      | OWriteHeader c => if c <=? 0 then StatusOK else c
                      | _ => ResponseCode t
                      end).
    { unfold ResponseCode. rewrite step_code.
      destruct o, (headerWritten t); reflexivity. }
    rewrite Hc. destruct (headerWritten t), o; reflexivity. }
  unfold IsHeaderWritten. apply H. now rewrite Ht.
Qed.

Lemma ResponseCode_is_sent_witness :
  statuses (calls (w (run [OWriteHeader 404; OWrite []; OWriteHeader 500]
                        (wrapRaw (acceptAll ∅ false))))) = [404]
  /\ ResponseCode (run [OWriteHeader 404; OWrite []; OWriteHeader 500]
                     (wrapRaw (acceptAll ∅ false))) = 404.
Proof.
  split; [|reflexivity].
  exact (ResponseCode_is_sent [OWriteHeader 404; OWrite []; OWriteHeader 500]
           (wrapRaw (acceptAll ∅ false)) eq_refl eq_refl).
Defined.

(** X3.  [NumBytesWritten] counts what the raw sink reports as written.
    With a raw sink that honours the [io.Writer] contract, and as long as
    the total stays below 2^63, the counter never decreases and never
    exceeds the bytes handed to [Write]; it grows by exactly those bytes
    when the sink takes every write in full. *)
Theorem NumBytesWritten_bounds ops : forall t,
  io_Writer_contract (w t) ->
  0 <= numBytesW t -> numBytesW t + len (offered ops) < 2 ^ 63 ->
  body (run ops t) = body t ++ offered ops
  /\ NumBytesWritten t <= NumBytesWritten (run ops t)
       <= NumBytesWritten t + len (offered ops)
  /\ ((forall cs b, fst (writeReply (w t) cs b) = len b) ->
      NumBytesWritten (run ops t) = NumBytesWritten t + len (offered ops)).
Proof.
  unfold NumBytesWritten.
  induction ops as [|o ops IH]; intros t Hio H0 Hlt.
  - simpl. unfold offered, len in *. simpl in *.
    rewrite app_nil_r. split; [reflexivity|]. split; [lia|]. intros _. lia.
  - split; [apply run_body|].
    assert (Hoff : len (offered (o :: ops)) =
                   len (match o with OWrite b => b | _ => [] end)
                   + len (offered ops)).
    { replace (offered (o :: ops))
        with (match o with OWrite b => b | _ => [] end ++ offered ops)
        by (destruct o; reflexivity).
      unfold len. rewrite length_app. lia. }
    assert (Hstep : numBytesW t <= numBytesW (step t o)
                      <= numBytesW t + len (match o with OWrite b => b | _ => [] end)
                    /\ ((forall cs b, fst (writeReply (w t) cs b) = len b) ->
                        numBytesW (step t o) =
                          numBytesW t + len (match o with OWrite b => b | _ => [] end))).
    { assert (Hl : 0 <= len (offered ops)) by (unfold len; lia).
      destruct o as [c|b| |k v]; simpl.
      - unfold WriteHeader. destruct (headerWritten t); simpl;
          unfold len; simpl; split; lia.
      - unfold Write, raw_Write.
        destruct (writeReply (w (ensureHeaderWritten t))
                    (calls (w (ensureHeaderWritten t))) b) as [n err] eqn:Hr.
        simpl.
        assert (Hn : numBytesW (ensureHeaderWritten t) = numBytesW t).
        { unfold ensureHeaderWritten. now destruct (headerWritten t). }
        pose proof (Hio (calls (w (ensureHeaderWritten t))) b) as Hb.
        rewrite <- ensureHeaderWritten_writeReply, Hr in Hb. simpl in Hb.
        rewrite Hn, wrap64_id by (unfold int64_range; lia).
        split; [lia|]. intros Hfull.
        pose proof (Hfull (calls (w (ensureHeaderWritten t))) b) as Hf.
        rewrite <- ensureHeaderWritten_writeReply, Hr in Hf. simpl in Hf. lia.
      - unfold Flush, ensureHeaderWritten.
        destruct (headerWritten t); simpl; destruct (isFlusher _); simpl;
          unfold len; simpl; split; lia.
      - unfold len; simpl; split; lia. }
    destruct Hstep as [Hs1 Hs2].
    assert (Hio' : io_Writer_contract (w (step t o))).
    { unfold io_Writer_contract. now rewrite step_writeReply. }
    destruct (IH (step t o) Hio') as (_ & Hb & Hfull); [lia | lia |].
    simpl run. split; [lia|]. intros Hall.
    rewrite Hfull by (now rewrite step_writeReply). rewrite (Hs2 Hall). lia.
Qed.

Lemma NumBytesWritten_bounds_witness :
  NumBytesWritten
    (run [OWrite [Byte.x68; Byte.x69]; OFlush; OWrite [Byte.x21]]
       (wrapRaw (acceptAll ∅ true))) = 3.
Proof.
  assert (Hio : io_Writer_contract (w (wrapRaw (acceptAll ∅ true)))).
  { intros cs b. simpl. unfold len. lia. }
  destruct (NumBytesWritten_bounds
              [OWrite [Byte.x68; Byte.x69]; OFlush; OWrite [Byte.x21]]
              (wrapRaw (acceptAll ∅ true)) Hio)
    as (_ & _ & H).
  - simpl. lia.
  - vm_compute. reflexivity.
  - exact (H (fun _ _ => eq_refl)).
Defined.

End RW.

(** ** The connection gate ([Listener]) *)

Module Gate.

(** [OnPanicFlags] *)
Definition OnPanicRecover : Z := 1.
Definition OnPanicLogStack : Z := 2.
Definition OnPanicLog : Z := 4.
Definition OnPanicAll : Z := 255.

Definition ClosedErr : string := "<closed>".

(** *** float32 arithmetic of the low threshold

    [int32(float32(maxNumConn) * 0.95)]: the int32 is converted to IEEE
    binary32 (round to nearest even), multiplied in binary32 by the constant
    0.95 converted to binary32, and the product is truncated toward zero.
    The binary32 operations are those of [SpecFloat] at precision 24. *)
Definition prec32 : Z := 24.
Definition emax32 : Z := 128.

Definition float32_of_int (z : Z) : spec_float :=
  binary_normalize prec32 emax32 z 0 false.

(** The untyped constant [0.95] is the exact rational 19/20; its conversion
    to float32 is the correctly rounded quotient. *)
Definition float32_0_95 : spec_float :=
  SFdiv prec32 emax32 (float32_of_int 19) (float32_of_int 20).

Definition float32_mul : spec_float -> spec_float -> spec_float :=
  SFmul prec32 emax32.

(** Truncation toward zero of a finite float; for infinities and NaN Go
    leaves the result to the implementation (amd64 yields the minimum). *)
Definition int32_of_float32 (f : spec_float) : Z :=
  match f with
  | S754_zero _ => 0
  | S754_finite s m e =>
      let a := match e with
               | Z0 => Zpos m
               | Zpos _ => Zpos m * 2 ^ e
               | Zneg p => Zpos m / 2 ^ Zpos p
               end in
      wrap32 (if s then - a else a)
  | _ => - 2 ^ 31
  end.

Definition lowThreshold (maxNumConn : Z) : Z :=
  int32_of_float32 (float32_mul (float32_of_int maxNumConn) float32_0_95).

(** The low threshold as the specification words it: [floor(0.95 * high)],
    over the integers [floor(19 * high / 20)]. *)
Definition spec_lowThreshold (hi : Z) : Z := 19 * hi / 20.

(** *** State *)

Inductive Cond : Type := pausedCond | closedCond | zeroCond.

(** What the gate does to its collaborators: the logger, the three
    condition variables and the raw listener [l]. *)
Inductive Effect : Type :=
| LogPause (nHi n : Z)
| LogUnpause (nLo n : Z)
| Broadcast (c : Cond)
| RawClose
| RawAccept.

(** [type Listener struct].  [rawCloseErr] is the error the raw listener
    answers to [Close] with; [fx] is the trace of effects, oldest first. *)
Record Listener : Type := mkListener {
  closed : Z;              (* uint32, 0 or 1 *)
  paused : Z;              (* uint32, 0 or 1 *)
  hardPaused : Z;          (* uint32, 0 or 1 *)
  maxNumConnHi : Z;        (* int32 *)
  maxNumConnLo : Z;        (* int32 *)
  numConn : Z;             (* int32 *)
  panicFlags : Z;          (* uint8 *)
  trackConnOnAccept : bool;
  rawCloseErr : option string;
  fx : list Effect
}.

Definition set_closed (v : Z) (s : Listener) : Listener :=
  mkListener v (paused s) (hardPaused s) (maxNumConnHi s) (maxNumConnLo s)
    (numConn s) (panicFlags s) (trackConnOnAccept s) (rawCloseErr s) (fx s).
Definition set_paused (v : Z) (s : Listener) : Listener :=
  mkListener (closed s) v (hardPaused s) (maxNumConnHi s) (maxNumConnLo s)
    (numConn s) (panicFlags s) (trackConnOnAccept s) (rawCloseErr s) (fx s).
Definition set_hardPaused (v : Z) (s : Listener) : Listener :=
  mkListener (closed s) (paused s) v (maxNumConnHi s) (maxNumConnLo s)
    (numConn s) (panicFlags s) (trackConnOnAccept s) (rawCloseErr s) (fx s).
Definition set_maxNumConnHi (v : Z) (s : Listener) : Listener :=
  mkListener (closed s) (paused s) (hardPaused s) v (maxNumConnLo s)
    (numConn s) (panicFlags s) (trackConnOnAccept s) (rawCloseErr s) (fx s).
Definition set_maxNumConnLo (v : Z) (s : Listener) : Listener :=
  mkListener (closed s) (paused s) (hardPaused s) (maxNumConnHi s) v
    (numConn s) (panicFlags s) (trackConnOnAccept s) (rawCloseErr s) (fx s).
Definition set_numConn (v : Z) (s : Listener) : Listener :=
  mkListener (closed s) (paused s) (hardPaused s) (maxNumConnHi s) (maxNumConnLo s)
    v (panicFlags s) (trackConnOnAccept s) (rawCloseErr s) (fx s).
Definition emit (es : list Effect) (s : Listener) : Listener :=
  mkListener (closed s) (paused s) (hardPaused s) (maxNumConnHi s) (maxNumConnLo s)
    (numConn s) (panicFlags s) (trackConnOnAccept s) (rawCloseErr s) (fx s ++ es).

(** sync/atomic *)
Definition CompareAndSwapUint32 (cur old new : Z) : bool * Z :=
  if cur =? old then (true, new) else (false, cur).
Definition AddInt32 (cur delta : Z) : Z := wrap32 (cur + delta).

Definition signalCond (c : Cond) (s : Listener) : Listener := emit [Broadcast c] s.

(** *** Construction and configuration *)

Definition NewListener (rawErr : option string) (maxNumConn : Z) (flags : Z)
  : Listener :=
  let maxNumConn := if maxNumConn <=? 0 then 10 else maxNumConn in
  mkListener 0 0 0 maxNumConn (lowThreshold maxNumConn) 0 flags false rawErr [].

Definition ResetMaxNumConn (maxNumConn : Z) (s : Listener) : Listener :=
  let maxNumConn := if maxNumConn <=? 0 then 10 else maxNumConn in
  set_maxNumConnLo (lowThreshold maxNumConn) (set_maxNumConnHi maxNumConn s).

(** *** Run *)

(** Lines 126-132 of Run: the in-flight count is bumped unless connections
    are tracked on Accept. *)
Definition beforeRun (s : Listener) : Z * Listener :=
  if trackConnOnAccept s then (numConn s, s)
  else let n := AddInt32 (numConn s) 1 in (n, set_numConn n s).

(** Lines 134-140 of Run.  The boolean tells whether [onPaused] is to be
    called. *)
Definition checkPause (n : Z) (s : Listener) : bool * Listener :=
  if (hardPaused s =? 1) || (paused s =? 1) then (true, s)
  else if n >=? maxNumConnHi s then
    match CompareAndSwapUint32 (paused s) 0 1 with
    | (true, p) => (false, emit [LogPause (maxNumConnHi s) n] (set_paused p s))
    | (false, _) => (false, s)
    end
  else (false, s).

Definition afterRun (s : Listener) : Listener :=
  let '(n, s1) :=
    if trackConnOnAccept s then (numConn s, s)
    else let n := AddInt32 (numConn s) (-1) in (n, set_numConn n s) in
  if n <=? maxNumConnLo s1 then
    let s2 :=
      match CompareAndSwapUint32 (paused s1) 1 0 with
      | (true, p) =>
          signalCond pausedCond
            (emit [LogUnpause (maxNumConnLo s1) n] (set_paused p s1))
      | (false, _) => s1
      end in
    if n =? 0 then
      let s3 := if closed s2 =? 1 then signalCond closedCond s2 else s2 in
      signalCond zeroCond s3
    else s2
  else s1.

Section Callbacks.
(** Callbacks act on the gate and on whatever else ([E]) they close
    over; they may panic. *)
Context {E : Type}.

Definition onGate (f : Listener -> Listener) (x : Listener * E) : Listener * E :=
  (f (fst x), snd x).

Definition Run (onClosed onPaused onRun : M (Listener * E) unit)
  : M (Listener * E) unit :=
  fun x =>
    if closed (fst x) =? 1 then onClosed x
    else
      let '(n, s1) := beforeRun (fst x) in
      let '(callPaused, s2) := checkPause n s1 in
      bind (if callPaused then onPaused else ret tt)
           (* defer s.afterRun() *)
           (fun _ => finally onRun (onGate afterRun))
           (s2, snd x).
End Callbacks.

(** *** Blocking calls

    [waitCond(c, true, fn)] parks the caller while [fn()] holds.  A call
    that may park returns the condition it waits for together with what it
    does once woken in a state that satisfies it. *)
Inductive Susp (A : Type) : Type :=
| Now (a : A)
| WaitUntil (ready : Listener -> bool) (k : Listener -> A * Listener).
Arguments Now {A} a.
Arguments WaitUntil {A} ready k.

Definition waitCond {A} (fn : Listener -> bool) (k : Listener -> A * Listener)
  : Susp A :=
  WaitUntil (fun s => negb (fn s)) k.

Inductive Conn : Type :=
| RawConn (id : Z)
| TrackedConn (id : Z).

(** [raw] is what the raw listener answers to [Accept]. *)
Definition Accept (raw : option Z * option string) (s : Listener)
  : Susp (option Conn * option string) * Listener :=
  if closed s =? 1 then (Now (None, Some ClosedErr), s)
  else
    (waitCond (fun s => (hardPaused s =? 1) || (paused s =? 1))
       (fun s =>
          let s1 := emit [RawAccept] s in
          if trackConnOnAccept s1 then
            match raw with
            | (Some c, None) =>
                ((Some (TrackedConn c), None),
                 set_numConn (AddInt32 (numConn s1) 1) s1)
            | (_, err) => ((None, err), s1)
            end
          else ((option_map RawConn (fst raw), snd raw), s1)),
     s).

Definition Close (s : Listener) : Susp (option string) * Listener :=
  match CompareAndSwapUint32 (closed s) 0 1 with
  | (false, _) => (Now None, s)
  | (true, c) =>
      let s1 := emit [RawClose] (set_closed c s) in
      (waitCond (fun s => numConn s >? 0) (fun s => (rawCloseErr s1, s)), s1)
  end.

Definition HardPause (s : Listener) : Listener :=
  if closed s =? 1 then s else set_hardPaused 1 s.

Definition WaitZeroInflight (s : Listener) : Susp unit * Listener :=
  (waitCond (fun s => negb (numConn s =? 0)) (fun s => (tt, s)), s).

Definition ResumeFromHardPause (s : Listener) : Listener :=
  if closed s =? 1 then s else signalCond pausedCond (set_hardPaused 0 s).

Definition IsClosed (s : Listener) : bool := closed s =? 1.

(** *** The gate under concurrent requests

    Requests run on their own goroutines.  Between the entry section of a
    [Run] (lines 121-140) and its deferred [afterRun] any number of other
    calls on the gate take place.  [Sys] is the gate together with the
    goroutines that are inside it: how many requests are between entry and
    exit, and the [Close] call that is parked, if any.  A label is one
    such section executed without interruption. *)
Record Sys : Type := mkSys {
  gate : Listener;
  inflight : nat;
  closing : option (Susp (option string))
}.

Inductive Label : Type :=
| RunEnter
| RunExit
| DoHardPause
| DoResume
| DoReset (maxNumConn : Z)
| DoAccept (raw : option Z * option string)
| CloseCall
| CloseReturn.

(** The entry section of [Run] when the gate is open and [onPaused]
    returns without touching the gate. *)
Definition enter (s : Listener) : Listener :=
  let '(n, s1) := beforeRun s in snd (checkPause n s1).

Definition exec (l : Label) (y : Sys) : option Sys :=
  match l with
  | RunEnter =>
      if closed (gate y) =? 1 then Some y
      else Some (mkSys (enter (gate y)) (S (inflight y)) (closing y))
  | RunExit =>
      match inflight y with
      | O => None
      | S k => Some (mkSys (afterRun (gate y)) k (closing y))
      end
  | DoHardPause => Some (mkSys (HardPause (gate y)) (inflight y) (closing y))
  | DoResume => Some (mkSys (ResumeFromHardPause (gate y)) (inflight y) (closing y))
  | DoReset m => Some (mkSys (ResetMaxNumConn m (gate y)) (inflight y) (closing y))
  | DoAccept raw =>
      match Accept raw (gate y) with
      | (Now _, g) => Some (mkSys g (inflight y) (closing y))
      | (WaitUntil ready k, g) =>
          if ready g then Some (mkSys (snd (k g)) (inflight y) (closing y))
          else None
      end
  | CloseCall =>
      match Close (gate y) with
      | (Now _, g) => Some (mkSys g (inflight y) (closing y))
      | (WaitUntil ready k, g) =>
          Some (mkSys g (inflight y) (Some (WaitUntil ready k)))
      end
  | CloseReturn =>
      match closing y with
      | Some (WaitUntil ready k) =>
          if ready (gate y)
          then Some (mkSys (snd (k (gate y))) (inflight y) None)
          else None
      | _ => None
      end
  end.

Fixpoint execs (tr : list Label) (y : Sys) : option Sys :=
  match tr with
  | [] => Some y
  | l :: tr' =>
      match exec l y with
      | Some y' => execs tr' y'
      | None => None
      end
  end.

Definition init (maxNumConn flags : Z) : Sys :=
  mkSys (NewListener None maxNumConn flags) 0 None.



(** The soft-pause flag as the log tells it: PAUSE and UNPAUSE lines must
    alternate, starting with PAUSE; [None] when they do not. *)
Definition logStep (st : option Z) (e : Effect) : option Z :=
  match e, st with
  | LogPause _ _, Some 0 => Some 1
  | LogUnpause _ _, Some 1 => Some 0
  | (LogPause _ _ | LogUnpause _ _), _ => None
  | _, _ => st
  end.

Definition logState (es : list Effect) : option Z := fold_left logStep es (Some 0).

Definition rawCloses (es : list Effect) : nat :=
  length (List.filter (fun e => match e with RawClose => true | _ => false end) es).

(** *** Facts about Run *)

Section RunFacts.
Context {E : Type}.
Implicit Types (onClosed onPaused onRun : M (Listener * E) unit).



Lemma beforeRun_untracked s :
  trackConnOnAccept s = false ->
  beforeRun s = (wrap32 (numConn s + 1), set_numConn (wrap32 (numConn s + 1)) s).
Proof. unfold beforeRun, AddInt32. now intros ->. Qed.

Lemma checkPause_numConn n s : numConn (snd (checkPause n s)) = numConn s.
Proof.
  unfold checkPause, CompareAndSwapUint32.
  repeat (case_match; simpl; try reflexivity); simplify_eq; reflexivity.
Qed.


Lemma afterRun_numConn s :
  trackConnOnAccept s = false -> numConn (afterRun s) = wrap32 (numConn s - 1).
Proof.
  intros Ht. unfold afterRun, AddInt32, CompareAndSwapUint32, signalCond.
  rewrite Ht. replace (numConn s + -1) with (numConn s - 1) by lia.
  repeat (case_match; simpl; try reflexivity); simplify_eq; reflexivity.
Qed.

(** C6.  When the gate is closed, [Run] is [onClosed] and nothing else:
    whatever [onPaused] and [onRun] are they are not called, and the gate
    (its in-flight count included) reaches [onClosed] as [Run] found it
    and is returned as [onClosed] left it. *)
Theorem Run_closed onClosed onPaused onRun (x : Listener * E) :
  closed (fst x) = 1 ->
  Run onClosed onPaused onRun x = onClosed x.
Proof. intros H. unfold Run. now rewrite H. Qed.

End RunFacts.

Lemma Run_closed_witness :
  Run (E := unit) (ret tt) (panic "onPaused") (panic "onRun")
      (set_closed 1 (NewListener None 10 0), tt)
  = (Ok tt, (set_closed 1 (NewListener None 10 0), tt)).
Proof.
  exact (Run_closed (ret tt) (panic "onPaused") (panic "onRun")
           (set_closed 1 (NewListener None 10 0), tt) eq_refl).
Defined.



(** *** Invariants of the gate *)

Definition flag (z : Z) : Prop := z = 0 \/ z = 1.

Record GInv (s : Listener) : Prop := mkGInv {
  inv_closed : flag (closed s);
  inv_paused : flag (paused s);
  inv_hardPaused : flag (hardPaused s);
  inv_track : trackConnOnAccept s = false;
  inv_log : logState (fx s) = Some (paused s);
  inv_rawClose : rawCloses (fx s) = if closed s =? 1 then 1%nat else 0%nat
}.

(** The only call that parks in [closing] is the first [Close]. *)
Definition parkedClose (c : Susp (option string)) : Prop :=
  exists e, c = WaitUntil (fun s => negb (numConn s >? 0)) (fun s => (e, s)).

Record Inv (y : Sys) : Prop := mkInv {
  inv_gate : GInv (gate y);
  inv_count : numConn (gate y) = wrap32 (Z.of_nat (inflight y));
  inv_closing : forall c, closing y = Some c ->
                          closed (gate y) = 1 /\ parkedClose c
}.

Lemma logState_snoc es e : logState (es ++ [e]) = logStep (logState es) e.
Proof. unfold logState. now rewrite fold_left_app. Qed.

Lemma rawCloses_snoc es e :
  rawCloses (es ++ [e]) =
  (rawCloses es + match e with RawClose => 1 | _ => 0 end)%nat.
Proof.
  unfold rawCloses. rewrite List.filter_app, length_app. simpl.
  destruct e; reflexivity.
Qed.

Ltac gate_unfold :=
  unfold enter, beforeRun, checkPause, afterRun, HardPause, ResumeFromHardPause,
    ResetMaxNumConn, Close, Accept, waitCond, signalCond, AddInt32,
    CompareAndSwapUint32, emit, set_closed, set_paused, set_hardPaused,
    set_numConn, set_maxNumConnHi, set_maxNumConnLo in *.

Ltac gate_cases :=
  repeat (simpl in *;
          match goal with
          | |- context [if ?b then _ else _] => destruct b eqn:?
          | H : context [if ?b then _ else _] |- _ => destruct b eqn:?
          | H : (_ =? _) = true |- _ => apply Z.eqb_eq in H
          | H : (_ =? _) = false |- _ => apply Z.eqb_neq in H
          | H : (_ || _) = true |- _ => apply orb_true_iff in H
          | H : (_ || _) = false |- _ => apply orb_false_iff in H; destruct H
          end).

Ltac ginv_solve :=
  match goal with
  | H : GInv _ |- _ =>
      let Hc := fresh "Hc" in let Hp := fresh "Hp" in let Hh := fresh "Hh" in
      let Ht := fresh "Ht" in let Hl := fresh "Hl" in let Hr := fresh "Hr" in
      destruct H as [Hc Hp Hh Ht Hl Hr]; unfold flag in *;
      gate_unfold; rewrite ?Ht;
      split; unfold flag; gate_cases;
      rewrite ?logState_snoc, ?rawCloses_snoc, ?logState_snoc, ?rawCloses_snoc,
        ?logState_snoc, ?rawCloses_snoc, ?Hl;
      simpl; auto; try lia; try congruence;
      try (rewrite Hr; gate_cases; simpl; lia);
      try (destruct Hp as [Hp|Hp]; rewrite Hp in *; simpl; congruence)
  end.

Lemma GInv_NewListener e m f : GInv (NewListener e m f).
Proof. split; unfold flag; simpl; auto. Qed.

Lemma GInv_enter s : GInv s -> GInv (enter s).
Proof. intros H. ginv_solve. Qed.

Lemma GInv_afterRun s : GInv s -> GInv (afterRun s).
Proof. intros H. ginv_solve. Qed.

Lemma GInv_HardPause s : GInv s -> GInv (HardPause s).
Proof. intros H. ginv_solve. Qed.

Lemma GInv_ResumeFromHardPause s : GInv s -> GInv (ResumeFromHardPause s).
Proof. intros H. ginv_solve. Qed.

Lemma GInv_ResetMaxNumConn m s : GInv s -> GInv (ResetMaxNumConn m s).
Proof. intros H. ginv_solve. Qed.

Lemma GInv_Close s : GInv s -> GInv (snd (Close s)).
Proof. intros H. ginv_solve. Qed.

Lemma Accept_resume raw s :
  GInv s ->
  forall ready k, fst (Accept raw s) = WaitUntil ready k ->
  GInv (snd (k s)) /\ numConn (snd (k s)) = numConn s
  /\ closed (snd (k s)) = closed s /\ paused (snd (k s)) = paused s
  /\ hardPaused (snd (k s)) = hardPaused s
  /\ maxNumConnHi (snd (k s)) = maxNumConnHi s
  /\ maxNumConnLo (snd (k s)) = maxNumConnLo s.
Proof.
  intros H ready k Hk. unfold Accept, waitCond in Hk.
  destruct (closed s =? 1) eqn:Hcl; simpl in Hk; [discriminate|].
  injection Hk as _ <-.
  pose proof (inv_track s H) as Ht. simpl. rewrite Ht. simpl.
  destruct H as [Hc Hp Hh _ Hl Hr].
  repeat split; simpl; auto.
  - rewrite logState_snoc, Hl. reflexivity.
  - now rewrite rawCloses_snoc, Hr, Nat.add_0_r.
Qed.

Lemma Accept_snd raw s : snd (Accept raw s) = s.
Proof. unfold Accept. now destruct (closed s =? 1). Qed.

Lemma Inv_init m f : Inv (init m f).
Proof.
  split; simpl; [apply GInv_NewListener | reflexivity | congruence].
Qed.

Lemma Inv_exec l y y' : Inv y -> exec l y = Some y' -> Inv y'.
Proof.
  intros [Hg Hn Hcl] He. pose proof (inv_track _ Hg) as Ht.
  destruct l; simpl in He.
  - (* RunEnter *)
    destruct (closed (gate y) =? 1) eqn:Hc; injection He as <-; [now split|].
    split; simpl.
    + now apply GInv_enter.
    + unfold enter. rewrite (beforeRun_untracked _ Ht).
      rewrite checkPause_numConn. simpl. rewrite Hn, wrap32_add_l.
      f_equal. lia.
    + intros c H. apply Hcl in H as [H _]. apply Z.eqb_neq in Hc. contradiction.
  - (* RunExit *)
    destruct (inflight y) as [|k] eqn:Hk; [discriminate|]. injection He as <-.
    split; simpl.
    + now apply GInv_afterRun.
    + rewrite (afterRun_numConn _ Ht), Hn.
      replace (wrap32 (Z.of_nat (S k)) - 1) with (wrap32 (Z.of_nat (S k)) + -1)
        by lia.
      rewrite wrap32_add_l. f_equal. lia.
    + intros c H. apply Hcl in H as [H Hp]. split; [|exact Hp].
      unfold afterRun, signalCond, CompareAndSwapUint32. rewrite Ht.
      repeat (case_match; simpl; auto); simplify_eq; auto.
  - injection He as <-. split; simpl.
    + now apply GInv_HardPause.
    + rewrite <- Hn. unfold HardPause. now destruct (closed (gate y) =? 1).
    + intros c H. apply Hcl in H as [H Hp]. split; [|exact Hp].
      unfold HardPause. rewrite H. exact H.
  - injection He as <-. split; simpl.
    + now apply GInv_ResumeFromHardPause.
    + rewrite <- Hn. unfold ResumeFromHardPause.
      now destruct (closed (gate y) =? 1).
    + intros c H. apply Hcl in H as [H Hp]. split; [|exact Hp].
      unfold ResumeFromHardPause. rewrite H. exact H.
  - injection He as <-. split; simpl.
    + now apply GInv_ResetMaxNumConn.
    + exact Hn.
    + exact Hcl.
  - (* DoAccept *)
    pose proof (Accept_snd raw (gate y)) as Hs.
    pose proof (Accept_resume raw (gate y) Hg) as Hr.
    destruct (Accept raw (gate y)) as [[a|ready k] g]; simpl in *; subst g.
    + injection He as <-. now split.
    + destruct (ready (gate y)); [|discriminate]. injection He as <-.
      destruct (Hr ready k eq_refl) as (H1 & H2 & H3 & _).
      split; simpl; [exact H1 | congruence | ].
      intros c H. rewrite H3. auto.
  - (* CloseCall *)
    pose proof (GInv_Close (gate y) Hg) as HgC.
    unfold Close, CompareAndSwapUint32, waitCond in *.
    destruct (closed (gate y) =? 0) eqn:Hc; simpl in *; injection He as <-.
    + split; simpl; auto.
      intros c [= <-]. split; [reflexivity|]. now eexists.
    + now split.
  - (* CloseReturn *)
    destruct (closing y) as [[a|ready k]|] eqn:Hk; try discriminate.
    destruct (ready (gate y)) eqn:Hrd; [|discriminate]. injection He as <-.
    destruct (Hcl _ eq_refl) as [Hc1 [e He]]. injection He as -> ->.
    split; simpl; [exact Hg | exact Hn | discriminate].
Qed.

Lemma Inv_execs tr : forall y y', Inv y -> execs tr y = Some y' -> Inv y'.
Proof.
  induction tr as [|l tr IH]; intros y y' Hy He; simpl in He.
  - now injection He as <-.
  - destruct (exec l y) as [y1|] eqn:H1; [|discriminate].
    eauto using Inv_exec.
Qed.

(** *** Soft pause and the thresholds *)



Lemma enter_frame s :
  trackConnOnAccept s = false ->
  numConn (enter s) = wrap32 (numConn s + 1)
  /\ maxNumConnHi (enter s) = maxNumConnHi s
  /\ maxNumConnLo (enter s) = maxNumConnLo s
  /\ hardPaused (enter s) = hardPaused s
  /\ closed (enter s) = closed s.
Proof.
  intros Ht. gate_unfold. rewrite Ht. gate_cases; auto.
Qed.

Lemma afterRun_frame s :
  trackConnOnAccept s = false ->
  numConn (afterRun s) = wrap32 (numConn s - 1)
  /\ maxNumConnHi (afterRun s) = maxNumConnHi s
  /\ maxNumConnLo (afterRun s) = maxNumConnLo s
  /\ hardPaused (afterRun s) = hardPaused s
  /\ closed (afterRun s) = closed s.
Proof.
  intros Ht. gate_unfold. rewrite Ht.
  replace (numConn s + -1) with (numConn s - 1) by lia.
  gate_cases; auto.
Qed.







(** *** Close *)

Lemma closed_stays l y y' :
  Inv y -> exec l y = Some y' -> closed (gate y) = 1 -> closed (gate y') = 1.
Proof.
  intros Hy He Hc. destruct l; simpl in He.
  - rewrite Hc in He. simpl in He. now injection He as <-.
  - destruct (inflight y); [discriminate|]. injection He as <-. simpl.
    gate_unfold. gate_cases; auto.
  - injection He as <-. simpl. unfold HardPause. now rewrite Hc.
  - injection He as <-. simpl. unfold ResumeFromHardPause. now rewrite Hc.
  - now injection He as <-.
  - unfold Accept in He. rewrite Hc in He. simpl in He. now injection He as <-.
  - unfold Close, CompareAndSwapUint32 in He. rewrite Hc in He. simpl in He.
    now injection He as <-.
  - destruct (closing y) as [[a|ready k]|] eqn:Hk; try discriminate.
    destruct (ready (gate y)); [|discriminate]. injection He as <-.
    destruct (inv_closing _ Hy _ Hk) as [_ [e He]]. now injection He as -> ->.
Qed.

Lemma closed_stays_execs tr : forall y y',
  Inv y -> execs tr y = Some y' -> closed (gate y) = 1 -> closed (gate y') = 1.
Proof.
  induction tr as [|l tr IH]; intros y y' Hy He Hc; simpl in He.
  - now injection He as <-.
  - destruct (exec l y) as [y1|] eqn:H1; [|discriminate].
    eauto using Inv_exec, closed_stays.
Qed.

(** C3.  A [Close] on a gate that is already closed returns no error and
    leaves the gate, the raw listener included, as it is.  A [Close] on an
    open gate marks it closed, closes the raw listener once, and parks
    until the in-flight count is not above zero.  In every state the gate
    reaches: when the parked call returns the count is at most zero (zero,
    with fewer than 2^31 requests inside) and the return changes nothing;
    once closed the gate stays closed, every further [Close] is a no-op, and
    the raw listener has been closed once. *)
Theorem Close_idempotent :
  (forall s, closed s = 1 -> Close s = (Now None, s))
  /\ (forall s, closed s = 0 ->
        Close s =
          (waitCond (fun s' => numConn s' >? 0) (fun s' => (rawCloseErr s, s')),
           emit [RawClose] (set_closed 1 s)))
  /\ (forall m f tr y,
        execs tr (init m f) = Some y ->
        (forall y', exec CloseReturn y = Some y' ->
           numConn (gate y) <= 0 /\ gate y' = gate y
           /\ (Z.of_nat (inflight y) < 2 ^ 31 ->
               inflight y = 0%nat /\ numConn (gate y) = 0))
        /\ (closed (gate y) = 1 ->
            exec CloseCall y = Some y
            /\ forall tr' y', execs tr' y = Some y' ->
                 closed (gate y') = 1 /\ rawCloses (fx (gate y')) = 1%nat)).
Proof.
  split; [|split].
  - intros s Hc. unfold Close, CompareAndSwapUint32. now rewrite Hc.
  - intros s Hc. unfold Close, CompareAndSwapUint32. now rewrite Hc.
  - intros m f tr y He.
    pose proof (Inv_execs tr _ _ (Inv_init m f) He) as Hy. split.
    + intros y' Hr. simpl in Hr.
      destruct (closing y) as [[a|ready k]|] eqn:Hk; try discriminate.
      destruct (ready (gate y)) eqn:Hrd; [|discriminate]. injection Hr as <-.
      destruct (inv_closing _ Hy _ Hk) as [_ [e Hpk]]. injection Hpk as -> ->.
      simpl. apply negb_true_iff in Hrd. rewrite Z.gtb_ltb in Hrd.
      apply Z.ltb_ge in Hrd.
      split; [exact Hrd|]. split; [reflexivity|].
      intros Hb. pose proof (inv_count _ Hy) as Hn.
      rewrite wrap32_id in Hn by (unfold int32_range; lia).
      split; lia.
    + intros Hc. split.
      * simpl. unfold Close, CompareAndSwapUint32. rewrite Hc. simpl.
        now destruct y.
      * intros tr' y' He'.
        pose proof (Inv_execs tr' _ _ Hy He') as Hy'.
        pose proof (closed_stays_execs tr' _ _ Hy He' Hc) as Hc'.
        split; [exact Hc'|].
        rewrite (inv_rawClose _ (inv_gate _ Hy')), Hc'. reflexivity.
Qed.

Lemma Close_idempotent_witness :
  exists y y',
    execs [RunEnter; CloseCall; RunExit] (init 10 0) = Some y
    /\ exec CloseReturn y = Some y'
    /\ numConn (gate y) = 0
    /\ exec CloseCall y' = Some y'
    /\ rawCloses (fx (gate y')) = 1%nat.
Proof.
  destruct Close_idempotent as (_ & _ & H).
  eexists. eexists.
  split; [vm_compute; reflexivity|]. split; [vm_compute; reflexivity|].
  split.
  - match goal with |- numConn (gate ?y) = 0 =>
      destruct (H 10 0 [RunEnter; CloseCall; RunExit] y eq_refl) as [H1 _] end.
    destruct (H1 _ eq_refl) as (_ & _ & H2). apply H2. simpl. lia.
  - match goal with |- exec CloseCall ?y' = _ /\ _ =>
      destruct (H 10 0 [RunEnter; CloseCall; RunExit; CloseReturn] y' eq_refl)
        as [_ H3] end.
    destruct (H3 eq_refl) as [H4 H5]. split; [exact H4|].
    exact (proj2 (H5 [] _ eq_refl)).
Defined.

(** *** The thresholds

    The low threshold is computed in binary32.  The facts below describe the
    rounding of [SpecFloat] closely enough to evaluate the product
    [float32(maxNumConn) * 0.95] symbolically. *)

Lemma digits2_bounds p :
  2 ^ (Zpos (digits2_pos p) - 1) <= Zpos p < 2 ^ Zpos (digits2_pos p).
Proof.
  induction p as [p IH|p IH|]; simpl digits2_pos.
  - rewrite Pos2Z.inj_succ.
    replace (Z.succ (Zpos (digits2_pos p)) - 1) with (Z.succ (Zpos (digits2_pos p) - 1))
      by lia.
    rewrite !Z.pow_succ_r by lia.
    set (a := 2 ^ (Zpos (digits2_pos p) - 1)) in *.
    set (b := 2 ^ Zpos (digits2_pos p)) in *. lia.
  - rewrite Pos2Z.inj_succ.
    replace (Z.succ (Zpos (digits2_pos p)) - 1) with (Z.succ (Zpos (digits2_pos p) - 1))
      by lia.
    rewrite !Z.pow_succ_r by lia.
    set (a := 2 ^ (Zpos (digits2_pos p) - 1)) in *.
    set (b := 2 ^ Zpos (digits2_pos p)) in *. lia.
  - simpl. lia.
Qed.

Lemma digits2_unique p D :
  2 ^ (D - 1) <= Zpos p < 2 ^ D -> Zpos (digits2_pos p) = D.
Proof.
  intros [H1 H2]. pose proof (digits2_bounds p) as [H3 H4].
  assert (HD : 0 < D).
  { destruct (Z.ltb_spec 0 D) as [|Hle]; [assumption|].
    destruct (Z.eq_dec D 0) as [->|Hne]; [simpl in H2; lia|].
    rewrite Z.pow_neg_r in H2 by lia. lia. }
  assert (D - 1 < Zpos (digits2_pos p)).
  { apply (Z.pow_lt_mono_r_iff 2); lia. }
  assert (Zpos (digits2_pos p) - 1 < D).
  { apply (Z.pow_lt_mono_r_iff 2); lia. }
  lia.
Qed.

Lemma shr_1_spec m r s :
  0 <= m ->
  shr_1 {| shr_m := m; shr_r := r; shr_s := s |} =
  {| shr_m := m / 2; shr_r := Z.odd m; shr_s := r || s |}.
Proof.
  intros Hm. rewrite <- Z.div2_div.
  destruct m as [|p|p]; [reflexivity| |lia].
  destruct p; reflexivity.
Qed.

Lemma iter_pos_nat {A} (f : A -> A) p : forall x,
  SpecFloat.iter_pos f p x = Nat.iter (Pos.to_nat p) f x.
Proof.
  induction p as [p IH|p IH|]; intros x; cbn [SpecFloat.iter_pos].
  - rewrite !IH, Pos2Nat.inj_xI.
    replace (S (2 * Pos.to_nat p)) with (Pos.to_nat p + (Pos.to_nat p + 1))%nat by lia.
    rewrite !Nat.iter_add. reflexivity.
  - rewrite !IH, Pos2Nat.inj_xO.
    replace (2 * Pos.to_nat p)%nat with (Pos.to_nat p + Pos.to_nat p)%nat by lia.
    rewrite Nat.iter_add. reflexivity.
  - reflexivity.
Qed.

Lemma iter_shr k : forall m, 0 <= m ->
  Nat.iter (S k) shr_1 {| shr_m := m; shr_r := false; shr_s := false |} =
  {| shr_m := m / 2 ^ (Z.of_nat k + 1);
     shr_r := Z.odd (m / 2 ^ Z.of_nat k);
     shr_s := negb (m mod 2 ^ Z.of_nat k =? 0) |}.
Proof.
  induction k as [|k IH]; intros m Hm.
  - unfold Nat.iter. cbn [nat_rect]. rewrite shr_1_spec by assumption.
    change (Z.of_nat 0) with 0. rewrite Z.add_0_l.
    change (2 ^ 0) with 1. change (2 ^ 1) with 2.
    rewrite Z.div_1_r, Z.mod_1_r. reflexivity.
  - rewrite Nat.iter_succ.
    rewrite IH by assumption.
    assert (Hp : 0 < 2 ^ Z.of_nat k) by (apply Z.pow_pos_nonneg; lia).
    rewrite shr_1_spec by (apply Z.div_pos; [lia | apply Z.pow_pos_nonneg; lia]).
    replace (Z.of_nat (S k)) with (Z.of_nat k + 1) by lia.
    f_equal.
    + rewrite Z.div_div by lia. f_equal.
      rewrite (Z.pow_add_r 2 (Z.of_nat k + 1) 1) by lia. reflexivity.
    + rewrite (Z.pow_add_r 2 (Z.of_nat k) 1) by lia. change (2 ^ 1) with 2.
      rewrite Z.rem_mul_r by lia.
      rewrite Zodd_mod.
      pose proof (Z.mod_pos_bound m (2 ^ Z.of_nat k) Hp).
      pose proof (Z.mod_pos_bound (m / 2 ^ Z.of_nat k) 2 ltac:(lia)).
      set (a := m mod 2 ^ Z.of_nat k) in *.
      set (b := (m / 2 ^ Z.of_nat k) mod 2) in *.
      set (c := 2 ^ Z.of_nat k) in *.
      destruct (Z.eqb_spec b 1), (Z.eqb_spec a 0), (Z.eqb_spec (a + c * b) 0);
        simpl; try reflexivity; try nia.
Qed.

(** Rounding a positive integer [P] of [24 + n] binary digits to 24 digits:
    the result is a nearest multiple of [2 ^ n]. *)
Lemma round_nearest P e (k : nat) :
  Zpos (digits2_pos P) = 24 + Z.of_nat (S k) ->
  -149 <= e + Z.of_nat (S k) -> e + Z.of_nat (S k) + 1 < 0 ->
  exists Rv,
    int32_of_float32 (binary_round_aux 24 128 false (Zpos P) e loc_Exact)
      = wrap32 (Rv / 2 ^ (- e - Z.of_nat (S k)))
    /\ 2 ^ 23 <= Rv <= 2 ^ 24
    /\ 2 ^ Z.of_nat (S k) * Rv - 2 ^ Z.of_nat k <= Zpos P
       <= 2 ^ Z.of_nat (S k) * Rv + 2 ^ Z.of_nat k.
Proof.
  intros HD He1 He2.
  remember (Z.of_nat (S k)) as n eqn:Hndef.
  unfold binary_round_aux.
  (* first shift *)
  unfold shr_fexp at 1. unfold Zdigits2. rewrite HD.
  replace (fexp 24 128 (24 + n + e) - e) with (Zpos (Pos.of_succ_nat k))
    by (unfold fexp, emin; lia).
  cbn [shr shr_record_of_loc].
  rewrite iter_pos_nat, SuccNat2Pos.id_succ, iter_shr by lia.
  replace (Z.of_nat k + 1) with n by lia.
  replace (Z.pos (Pos.of_succ_nat k)) with n by lia.
  set (q := Zpos P / 2 ^ n).
  set (hb := Z.odd (Zpos P / 2 ^ Z.of_nat k)).
  set (st := negb (Zpos P mod 2 ^ Z.of_nat k =? 0)).
  cbn [shr_m].
  set (R := round_nearest_even q (loc_of_shr_record {| shr_m := q; shr_r := hb; shr_s := st |})).
  (* arithmetic facts *)
  pose proof (digits2_bounds P) as [Hlo Hhi]. rewrite HD in Hlo, Hhi.
  assert (Hn : 0 < n) by lia.
  assert (Hpn : 0 < 2 ^ n) by (apply Z.pow_pos_nonneg; lia).
  assert (Hpk : 0 < 2 ^ Z.of_nat k) by (apply Z.pow_pos_nonneg; lia).
  assert (Hnk : 2 ^ n = 2 * 2 ^ Z.of_nat k).
  { rewrite Hndef, Nat2Z.inj_succ, Z.pow_succ_r by lia. reflexivity. }
  assert (H24 : 2 ^ (24 + n) = 2 ^ 24 * 2 ^ n) by (apply Z.pow_add_r; lia).
  assert (H23 : 2 ^ (24 + n - 1) = 2 ^ 23 * 2 ^ n).
  { replace (24 + n - 1) with (23 + n) by lia. apply Z.pow_add_r; lia. }
  rewrite H24 in Hhi. rewrite H23 in Hlo.
  assert (Hq : 2 ^ 23 <= q < 2 ^ 24).
  { subst q. split.
    - apply Z.div_le_lower_bound; lia.
    - apply Z.div_lt_upper_bound; lia. }
  assert (Hrem : Zpos P = 2 ^ n * q + Zpos P mod 2 ^ n).
  { subst q. apply Z.div_mod. lia. }
  pose proof (Z.mod_pos_bound (Zpos P) (2 ^ n) Hpn) as Hrb.
  assert (Hsplit : Zpos P mod 2 ^ n
                   = Zpos P mod 2 ^ Z.of_nat k
                     + 2 ^ Z.of_nat k * ((Zpos P / 2 ^ Z.of_nat k) mod 2)).
  { rewrite Hnk, Z.mul_comm. rewrite Z.rem_mul_r by lia. reflexivity. }
  pose proof (Z.mod_pos_bound (Zpos P) (2 ^ Z.of_nat k) Hpk) as Hlb.
  assert (Hodd : hb = ((Zpos P / 2 ^ Z.of_nat k) mod 2 =? 1)).
  { subst hb. apply Zodd_mod. }
  pose proof (Z.mod_pos_bound (Zpos P / 2 ^ Z.of_nat k) 2 ltac:(lia)) as Hbb.
  assert (HR : (R = q \/ R = q + 1)
               /\ 2 ^ n * R - 2 ^ Z.of_nat k <= Zpos P <= 2 ^ n * R + 2 ^ Z.of_nat k).
  { subst R. unfold round_nearest_even, loc_of_shr_record.
    set (lowbits := Zpos P mod 2 ^ Z.of_nat k) in *.
    set (bit := (Zpos P / 2 ^ Z.of_nat k) mod 2) in *.
    set (c := 2 ^ Z.of_nat k) in *. set (pn := 2 ^ n) in *.
    destruct hb, st eqn:Hst; subst st;
      try (destruct (Z.eqb_spec bit 1); try discriminate);
      try (apply negb_true_iff in Hst; apply Z.eqb_neq in Hst);
      try (apply negb_false_iff in Hst; apply Z.eqb_eq in Hst);
      try (destruct (Z.even q)); split; auto; try nia. }
  destruct HR as [HRq HRb].
  assert (HRr : 2 ^ 23 <= R <= 2 ^ 24) by lia.
  (* second shift *)
  destruct (Z.eq_dec R (2 ^ 24)) as [HR24|HRlt].
  - rewrite HR24. 
    unfold shr_fexp. 
    replace (fexp 24 128 (Zdigits2 (2 ^ 24) + (e + n)) - (e + n)) with 1
      by (unfold fexp, emin; simpl Zdigits2; lia).
    cbn [shr shr_record_of_loc shr_m SpecFloat.iter_pos].
    change (2 ^ 24) with 16777216. rewrite shr_1_spec by lia. cbn [shr_m].
    change (16777216 / 2) with 8388608.
    replace (e + n + 1 <=? 128 - 24) with true by (symmetry; apply Z.leb_le; lia).
    cbn [int32_of_float32].
    destruct (e + n + 1) as [|p|p] eqn:Hen; try lia.
    exists R. rewrite HR24. split; [|split; [lia|]].
    + f_equal. replace (- e - n) with (Zpos p + 1) by lia.
      rewrite Z.pow_add_r by lia. change (2 ^ 1) with 2.
      change (2 ^ 24) with (8388608 * 2).
      rewrite Z.div_mul_cancel_r; [reflexivity| |lia].
      apply Z.pow_nonzero; lia.
    + rewrite <- HR24. exact HRb.
  - assert (HRp : exists r, R = Zpos r).
    { destruct R; try lia. eauto. }
    destruct HRp as [r Hr]. rewrite Hr.
    unfold shr_fexp. unfold Zdigits2.
    rewrite (digits2_unique r 24) by (change (2 ^ (24 - 1)) with (2 ^ 23); lia).
    replace (fexp 24 128 (24 + (e + n)) - (e + n)) with 0
      by (unfold fexp, emin; lia).
    cbn [shr shr_record_of_loc shr_m].
    replace (e + n <=? 128 - 24) with true by (symmetry; apply Z.leb_le; lia).
    cbn [int32_of_float32].
    destruct (e + n) as [|p|p] eqn:Hen; try lia.
    exists R. split; [|split; [lia|exact HRb]].
    rewrite Hr. f_equal. f_equal. f_equal. lia.
Qed.

Lemma float32_0_95_eq : float32_0_95 = S754_finite false 15938355 (-24).
Proof. vm_compute. reflexivity. Qed.

Lemma iter_xO_spec m k :
  Zpos (Pos.iter xO m k) = Zpos m * 2 ^ Zpos k
  /\ Zpos (digits2_pos (Pos.iter xO m k)) = Zpos (digits2_pos m) + Zpos k.
Proof.
  induction k as [|k IH] using Pos.peano_ind.
  - simpl Pos.iter. simpl digits2_pos. rewrite Pos2Z.inj_succ. 
    change (2 ^ 1) with 2. rewrite Pos2Z.inj_xO. lia.
  - rewrite Pos.iter_succ. destruct IH as [IH1 IH2].
    rewrite Pos2Z.inj_xO, IH1. simpl digits2_pos.
    rewrite !Pos2Z.inj_succ, IH2, Z.pow_succ_r by lia. lia.
Qed.

Lemma bra_exact mz ez :
  Zpos (digits2_pos mz) = 24 -> -149 <= ez <= 104 ->
  binary_round_aux 24 128 false (Zpos mz) ez loc_Exact = S754_finite false mz ez.
Proof.
  intros HD He. unfold binary_round_aux, shr_fexp. unfold Zdigits2. rewrite HD.
  replace (fexp 24 128 (24 + ez) - ez) with 0 by (unfold fexp, emin; lia).
  cbn [shr shr_record_of_loc shr_m loc_of_shr_record round_nearest_even].
  unfold Zdigits2. rewrite HD.
  replace (fexp 24 128 (24 + ez) - ez) with 0 by (unfold fexp, emin; lia).
  cbn [shr shr_record_of_loc shr_m].
  replace (ez <=? 128 - 24) with true by (symmetry; apply Z.leb_le; lia).
  reflexivity.
Qed.

Lemma float32_of_int_pos m :
  Zpos (digits2_pos m) <= 24 ->
  exists mz,
    float32_of_int (Zpos m) = S754_finite false mz (Zpos (digits2_pos m) - 24)
    /\ Zpos mz = Zpos m * 2 ^ (24 - Zpos (digits2_pos m))
    /\ Zpos (digits2_pos mz) = 24.
Proof.
  intros HD. unfold float32_of_int, binary_normalize, binary_round, prec32, emax32.
  replace (fexp 24 128 (Zpos (digits2_pos m) + 0)) with (Zpos (digits2_pos m) - 24)
    by (unfold fexp, emin; lia).
  unfold shl_align.
  destruct (Zpos (digits2_pos m) - 24 - 0) as [|k|k] eqn:Hk; try lia.
  - exists m. assert (H24 : Zpos (digits2_pos m) = 24) by lia.
    rewrite bra_exact by lia. rewrite H24. simpl. split; [reflexivity|]. split; lia.
  - destruct (iter_xO_spec m k) as [H1 H2].
    exists (Pos.iter xO m k).
    rewrite bra_exact by lia.
    split; [reflexivity|]. split; [|lia].
    rewrite H1. f_equal. f_equal. lia.
Qed.

Lemma lowThreshold_math M :
  0 < M < 2207529 -> lowThreshold M = 19 * M / 20.
Proof.
  intros HM. destruct M as [|m|m]; try lia.
  pose proof (digits2_bounds m) as [Hdlo Hdhi].
  set (D := Zpos (digits2_pos m)) in *.
  assert (HD1 : 1 <= D) by (subst D; lia).
  assert (HD : D <= 22).
  { assert (D - 1 < 22); [|lia]. apply (Z.pow_lt_mono_r_iff 2); lia. }
  destruct (float32_of_int_pos m ltac:(fold D; lia)) as (mz & Hf & Hmz & Hdz).
  fold D in Hf, Hmz.
  unfold lowThreshold, float32_mul. rewrite Hf, float32_0_95_eq.
  unfold SFmul, prec32, emax32. cbn [xorb].
  remember (2 ^ (24 - D)) as A eqn:HAdef.
  assert (HA : 4 <= A).
  { rewrite HAdef. change 4 with (2 ^ 2). apply Z.pow_le_mono_r; lia. }
  assert (HA22 : D = 22 -> A = 4).
  { intros H22. rewrite HAdef, H22. reflexivity. }
  assert (HA21 : D <= 21 -> 8 <= A).
  { intros H21. rewrite HAdef. change 8 with (2 ^ 3). apply Z.pow_le_mono_r; lia. }
  assert (HAeq : A = 2 ^ (24 - D)) by exact HAdef.
  assert (H24D : 2 ^ (24 - D + 1) = A * 2).
  { rewrite Z.pow_add_r, <- HAdef by lia. reflexivity. }
  clear Hdlo Hdhi HAdef.
  assert (HQ : 2 ^ 23 <= Zpos mz < 2 ^ 24).
  { pose proof (digits2_bounds mz) as H. rewrite Hdz in H. exact H. }
  set (Q := Zpos mz) in *.
  set (P := (mz * 15938355)%positive).
  assert (HP : Zpos P = Q * 15938355) by (subst P Q; lia).
  set (f := 19 * Zpos m / 20).
  assert (Hf20 : 19 * Zpos m = 20 * f + (19 * Zpos m) mod 20).
  { subst f. apply Z.div_mod. lia. }
  pose proof (Z.mod_pos_bound (19 * Zpos m) 20 ltac:(lia)) as Hr.
  set (r := (19 * Zpos m) mod 20) in *.
  assert (HfA : 19 * Q = 20 * (f * A) + r * A) by (clear HAeq H24D; rewrite Hmz; nia).
  assert (HrA : 0 <= r * A <= 19 * A) by (clear HAeq H24D; nia).
  assert (Hf0 : 0 <= f) by (subst f; apply Z.div_pos; lia).
  assert (HfA0 : 0 <= f * A) by (clear HAeq H24D; nia).
  assert (Hfr : - 2 ^ 31 <= f < 2 ^ 31).
  { subst f. split; [lia|]. apply Z.div_lt_upper_bound; lia. }
  destruct (Z.ltb_spec (Zpos P) (2 ^ 47)) as [Hlt|Hge].
  - (* 47 digits: 23 bits are rounded away *)
    assert (HDP : Zpos (digits2_pos P) = 24 + Z.of_nat 23).
    { apply digits2_unique. change (24 + Z.of_nat 23) with 47.
      change (2 ^ (47 - 1)) with (2 ^ 46). lia. }
    destruct (round_nearest P (D - 24 + -24) 22 HDP) as (Rv & Hres & HRv & Hnear);
      [lia | lia |].
    rewrite Hres.
    change (Z.of_nat 23) with 23 in *. change (Z.of_nat 22) with 22 in *.
    replace (- (D - 24 + -24) - 23) with (24 - D + 1) by lia.
    rewrite H24D.
    assert (Hdiv : Rv / (A * 2) = f).
    { clear HAeq H24D. symmetry.
      apply (Z.div_unique_pos _ _ _ (Rv - f * (A * 2))); [|lia].
      rewrite HP in Hnear. lia. }
    rewrite Hdiv. unfold wrap32, wrap. rewrite Z.mod_small by lia. lia.
  - (* 48 digits: 24 bits are rounded away *)
    assert (HDP : Zpos (digits2_pos P) = 24 + Z.of_nat 24).
    { apply digits2_unique. change (24 + Z.of_nat 24) with 48.
      change (2 ^ (48 - 1)) with (2 ^ 47). lia. }
    destruct (round_nearest P (D - 24 + -24) 23 HDP) as (Rv & Hres & HRv & Hnear);
      [lia | lia |].
    rewrite Hres.
    change (Z.of_nat 24) with 24 in *. change (Z.of_nat 23) with 23 in *.
    replace (- (D - 24 + -24) - 24) with (24 - D) by lia. rewrite <- HAeq.
    assert (HA8 : 8 <= A).
    { clear HAeq H24D. destruct (Z.eq_dec D 22) as [HD22|HD22].
      - exfalso. rewrite (HA22 HD22) in Hmz. lia.
      - apply HA21. lia. }
    assert (Hdiv : Rv / A = f).
    { clear HAeq H24D. symmetry.
      apply (Z.div_unique_pos _ _ _ (Rv - f * A)); [|lia].
      rewrite HP in Hnear. lia. }
    rewrite Hdiv. unfold wrap32, wrap. rewrite Z.mod_small by lia. lia.
Qed.

(** From 2207529 on the product has 48 binary digits although the operand is
    only a multiple of 4; the ceilings up to the first deviation are
    evaluated one by one. *)
Lemma lowThreshold_eval M :
  2207529 <= M < 2207541 -> lowThreshold M = 19 * M / 20.
Proof.
  intros HM.
  assert (H : exists k, (k < 12)%nat /\ M = 2207529 + Z.of_nat k).
  { exists (Z.to_nat (M - 2207529)). lia. }
  destruct H as (k & Hk & ->).
  do 12 (destruct k as [|k]; [vm_compute; reflexivity|]). lia.
Qed.

Lemma lowThreshold_floor M :
  0 < M < 2207541 -> lowThreshold M = spec_lowThreshold M.
Proof.
  intros HM. unfold spec_lowThreshold.
  destruct (Z.ltb_spec M 2207529).
  - apply lowThreshold_math. lia.
  - apply lowThreshold_eval. lia.
Qed.

(** What the two configuration entry points store, for every ceiling. *)
Lemma thresholds_computed rawErr flags s M :
  let hi := if M <=? 0 then 10 else M in
  maxNumConnHi (NewListener rawErr M flags) = hi
  /\ maxNumConnLo (NewListener rawErr M flags) = lowThreshold hi
  /\ maxNumConnHi (ResetMaxNumConn M s) = hi
  /\ maxNumConnLo (ResetMaxNumConn M s) = lowThreshold hi.
Proof. destruct s. repeat split. Qed.

(** C7 (amended).  The high threshold is the configured ceiling [M] when [M]
    is positive and 10 otherwise, at construction and after
    [ResetMaxNumConn] alike.  The low threshold is the float32 product
    [float32(high) * 0.95] truncated to int32; it equals
    [floor(0.95 * high)] for every high threshold below 2207541. *)
Theorem thresholds_below_2207541 rawErr flags s M :
  (if M <=? 0 then 10 else M) < 2207541 ->
  maxNumConnHi (NewListener rawErr M flags) = (if M <=? 0 then 10 else M)
  /\ maxNumConnLo (NewListener rawErr M flags)
     = spec_lowThreshold (maxNumConnHi (NewListener rawErr M flags))
  /\ maxNumConnHi (ResetMaxNumConn M s) = (if M <=? 0 then 10 else M)
  /\ maxNumConnLo (ResetMaxNumConn M s)
     = spec_lowThreshold (maxNumConnHi (ResetMaxNumConn M s)).
Proof.
  intros HM.
  destruct (thresholds_computed rawErr flags s M) as (H1 & H2 & H3 & H4).
  cbv zeta in H1, H2, H3, H4.
  assert (Hpos : 0 < (if M <=? 0 then 10 else M) < 2207541).
  { split; [|exact HM]. destruct (Z.leb_spec M 0); lia. }
  rewrite H1, H2, H3, H4.
  rewrite (lowThreshold_floor _ Hpos). repeat split.
Qed.

Lemma thresholds_below_2207541_witness :
  maxNumConnHi (NewListener None 0 0) = 10
  /\ maxNumConnLo (NewListener None 0 0)
     = spec_lowThreshold (maxNumConnHi (NewListener None 0 0))
  /\ maxNumConnHi (ResetMaxNumConn 0 (NewListener None 1 0)) = 10
  /\ maxNumConnLo (ResetMaxNumConn 0 (NewListener None 1 0))
     = spec_lowThreshold (maxNumConnHi (ResetMaxNumConn 0 (NewListener None 1 0))).
Proof.
  exact (thresholds_below_2207541 None 0 (NewListener None 1 0) 0 eq_refl).
Defined.

(** C7 as stated fails for large ceilings: at 2207541 the float32 product
    rounds up to 2097164, one above [floor(0.95 * 2207541)]. *)
Lemma low_threshold_above_floor :
  maxNumConnHi (NewListener None 2207541 0) = 2207541
  /\ maxNumConnLo (NewListener None 2207541 0) = 2097164
  /\ maxNumConnLo (ResetMaxNumConn 2207541 (NewListener None 1 0)) = 2097164
  /\ spec_lowThreshold 2207541 = 2097163.
Proof. vm_compute. repeat split. Qed.

(** *** Further facts about the gate *)

(** [conn.Close]: a connection that was counted on Accept is uncounted
    when it is closed (the raw connection is closed besides). *)
Definition conn_Close (s : Listener) : Listener :=
  if trackConnOnAccept s then set_numConn (AddInt32 (numConn s) (-1)) s else s.

(** Closing what [Accept] returned: only the wrapped connection has the
    method above, a raw one closes without the gate. *)
Definition closeAccepted (c : Conn) (s : Listener) : Listener :=
  match c with
  | TrackedConn _ => conn_Close s
  | RawConn _ => s
  end.

Lemma execs_app tr1 tr2 y :
  execs (tr1 ++ tr2) y =
  match execs tr1 y with Some y1 => execs tr2 y1 | None => None end.
Proof.
  revert y. induction tr1 as [|l tr1 IH]; intros y; simpl; [reflexivity|].
  destruct (exec l y); [apply IH | reflexivity].
Qed.

(** X4.  In every state the gate reaches: on a closed gate [Accept]
    returns [ClosedErr] at once, without calling the raw listener; on an
    open gate it parks exactly while the gate is hard-paused or
    soft-paused, and otherwise calls the raw listener once, hands on its
    answer and leaves the in-flight count alone. *)
Theorem Accept_gating m f tr y raw :
  execs tr (init m f) = Some y ->
  (closed (gate y) = 1 ->
     Accept raw (gate y) = (Now (None, Some ClosedErr), gate y))
  /\ (closed (gate y) = 0 ->
      (exec (DoAccept raw) y = None <->
         hardPaused (gate y) = 1 \/ paused (gate y) = 1)
      /\ (forall y', exec (DoAccept raw) y = Some y' ->
            gate y' = emit [RawAccept] (gate y) /\ inflight y' = inflight y)
      /\ exists ready k,
           Accept raw (gate y) = (WaitUntil ready k, gate y)
           /\ fst (k (gate y)) = (option_map RawConn (fst raw), snd raw)).
Proof.
  intros He. pose proof (Inv_execs tr _ _ (Inv_init m f) He) as Hy.
  destruct (inv_gate _ Hy) as [_ Hp Hh Ht _ _]. unfold flag in Hp, Hh.
  split.
  - intros Hc. unfold Accept. now rewrite Hc.
  - intros Hc. simpl. unfold Accept, waitCond. rewrite Hc. simpl.
    rewrite Ht. simpl. split; [|split].
    + destruct Hp as [Hp|Hp], Hh as [Hh|Hh]; rewrite Hp, Hh; simpl;
        split; intros H; try discriminate; auto; destruct H; discriminate.
    + intros y' H.
      destruct (negb ((hardPaused (gate y) =? 1) || (paused (gate y) =? 1)));
        [|discriminate].
      injection H as <-. auto.
    + eexists. eexists. split; [reflexivity|]. simpl. now rewrite Ht.
Qed.

Lemma Accept_gating_witness :
  exists y, execs [CloseCall; CloseReturn] (init 10 0) = Some y
            /\ Accept (Some 7, None) (gate y)
               = (Now (None, Some ClosedErr), gate y).
Proof.
  eexists. split; [vm_compute; reflexivity|].
  match goal with |- Accept _ (gate ?y) = _ =>
    exact (proj1 (Accept_gating 10 0 [CloseCall; CloseReturn] y (Some 7, None)
                    eq_refl) eq_refl) end.
Defined.

(** X5.  In every state the gate reaches, the in-flight count is the
    number of requests between the entry of [Run] and its [afterRun]
    (as an int32): with fewer than 2^31 requests inside it is exactly
    that number, so never negative; and connections are never counted on
    Accept. *)
Theorem numConn_counts_inflight m f tr y :
  execs tr (init m f) = Some y ->
  numConn (gate y) = wrap32 (Z.of_nat (inflight y))
  /\ (Z.of_nat (inflight y) < 2 ^ 31 ->
      numConn (gate y) = Z.of_nat (inflight y) /\ 0 <= numConn (gate y))
  /\ trackConnOnAccept (gate y) = false.
Proof.
  intros He. pose proof (Inv_execs tr _ _ (Inv_init m f) He) as Hy.
  pose proof (inv_count _ Hy) as Hn.
  split; [exact Hn|]. split; [|apply (inv_track _ (inv_gate _ Hy))].
  intros Hlt. rewrite wrap32_id in Hn by (unfold int32_range; lia). lia.
Qed.

Lemma numConn_counts_inflight_witness :
  exists y, execs [RunEnter; RunEnter; DoHardPause; RunExit] (init 1 0) = Some y
            /\ numConn (gate y) = 1.
Proof.
  eexists. split; [vm_compute; reflexivity|].
  match goal with |- numConn (gate ?y) = _ =>
    destruct (numConn_counts_inflight 1 0
                [RunEnter; RunEnter; DoHardPause; RunExit] y eq_refl)
      as (_ & H & _) end.
  apply H. simpl. lia.
Defined.

Lemma drain c : forall n y,
  Inv y -> inflight y = n -> closing y = Some c ->
  exists y1, execs (repeat RunExit n) y = Some y1
             /\ Inv y1 /\ inflight y1 = 0%nat /\ closing y1 = Some c.
Proof.
  induction n as [|n IH]; intros y Hy Hn Hc; simpl.
  - exists y. auto.
  - rewrite Hn.
    assert (He : exec RunExit y = Some (mkSys (afterRun (gate y)) n (closing y))).
    { simpl. now rewrite Hn. }
    apply (IH (mkSys (afterRun (gate y)) n (closing y)));
      [exact (Inv_exec _ _ _ Hy He) | reflexivity | exact Hc].
Qed.

(** X6.  A parked [Close] gets to return: from every state the gate
    reaches with a [Close] parked, once the requests that are inside have
    left, the in-flight count is zero and the parked call returns. *)
Theorem Close_returns_after_drain m f tr y c :
  execs tr (init m f) = Some y ->
  closing y = Some c ->
  exists y',
    execs (repeat RunExit (inflight y) ++ [CloseReturn]) y = Some y'
    /\ closing y' = None /\ inflight y' = 0%nat
    /\ numConn (gate y') = 0 /\ closed (gate y') = 1.
Proof.
  intros He Hc. pose proof (Inv_execs tr _ _ (Inv_init m f) He) as Hy.
  destruct (drain c (inflight y) y Hy eq_refl Hc) as (y1 & H1 & Hy1 & Hn1 & Hc1).
  destruct (inv_closing _ Hy1 _ Hc1) as [Hcl [e ->]].
  pose proof (inv_count _ Hy1) as Hcount. rewrite Hn1 in Hcount.
  change (wrap32 (Z.of_nat 0)) with 0 in Hcount.
  exists (mkSys (gate y1) (inflight y1) None).
  rewrite execs_app, H1. simpl. rewrite Hc1, Hcount. simpl. auto.
Qed.

Lemma Close_returns_after_drain_witness :
  exists y',
    execs (repeat RunExit 2 ++ [CloseReturn])
      (mkSys (snd (Close (enter (enter (NewListener None 10 0))))) 2
         (Some (fst (Close (enter (enter (NewListener None 10 0))))))) = Some y'
    /\ closing y' = None /\ inflight y' = 0%nat
    /\ numConn (gate y') = 0 /\ closed (gate y') = 1.
Proof.
  exact (Close_returns_after_drain 10 0 [RunEnter; RunEnter; CloseCall] _ _
           eq_refl eq_refl).
Defined.

(** X7.  Whom [afterRun] wakes.  Waiters for zero in flight are woken
    exactly when the count reaches zero (the low threshold not being
    negative), a parked [Close] exactly when that happens on a closed
    gate, and parked accepters exactly when the soft pause is cleared. *)
Theorem afterRun_wakes s :
  trackConnOnAccept s = false ->
  exists es,
    fx (afterRun s) = fx s ++ es
    /\ (In (Broadcast zeroCond) es <->
          wrap32 (numConn s - 1) = 0 /\ 0 <= maxNumConnLo s)
    /\ (In (Broadcast closedCond) es <->
          wrap32 (numConn s - 1) = 0 /\ 0 <= maxNumConnLo s /\ closed s = 1)
    /\ (In (Broadcast pausedCond) es <->
          wrap32 (numConn s - 1) <= maxNumConnLo s /\ paused s = 1).
Proof.
  intros Ht. set (n := wrap32 (numConn s - 1)).
  exists ((if (n <=? maxNumConnLo s) && (paused s =? 1)
           then [LogUnpause (maxNumConnLo s) n; Broadcast pausedCond] else [])
          ++ (if (n <=? maxNumConnLo s) && (n =? 0)
              then (if closed s =? 1 then [Broadcast closedCond] else [])
                   ++ [Broadcast zeroCond]
              else [])).
  split.
  - unfold afterRun, AddInt32, CompareAndSwapUint32, signalCond.
    rewrite Ht. replace (numConn s + -1) with (numConn s - 1) by lia.
    fold n. cbn [numConn maxNumConnLo set_numConn paused].
    destruct (n <=? maxNumConnLo s), (paused s =? 1), (n =? 0);
      cbn [andb closed emit set_paused set_numConn fx app];
      try destruct (closed s =? 1); cbn [fx emit app];
      rewrite ?app_nil_r, <- ?app_assoc; reflexivity.
  - destruct (Z.leb_spec n (maxNumConnLo s)) as [Hlo|Hlo];
      destruct (Z.eqb_spec (paused s) 1) as [Hp1|Hp1];
      destruct (Z.eqb_spec n 0) as [Hn|Hn];
      destruct (Z.eqb_spec (closed s) 1) as [Hc|Hc]; simpl;
      intuition (try discriminate; try lia; try congruence).
Qed.

Lemma afterRun_wakes_witness :
  exists es,
    fx (afterRun (set_closed 1 (enter (NewListener None 1 0)))) =
      fx (set_closed 1 (enter (NewListener None 1 0))) ++ es
    /\ In (Broadcast zeroCond) es /\ In (Broadcast closedCond) es
    /\ In (Broadcast pausedCond) es.
Proof.
  destruct (afterRun_wakes (set_closed 1 (enter (NewListener None 1 0))) eq_refl)
    as (es & H1 & H2 & H3 & H4).
  exists es. split; [exact H1|]. split; [|split].
  - apply H2. split; [reflexivity | vm_compute; discriminate].
  - apply H3. split; [reflexivity|]. split; [vm_compute; discriminate | reflexivity].
  - apply H4. split; [vm_compute; discriminate | reflexivity].
Defined.

(** X8.  Hard pause is a switch of its own.  On a closed gate
    [HardPause] and [ResumeFromHardPause] do nothing.  On an open gate
    [HardPause] sets the flag and is idempotent, and a resume after it
    gives back the gate as it was before the pause (soft-pause flag,
    count and thresholds included) except that accepters have been
    woken. *)
Theorem HardPause_Resume s :
  (closed s = 1 -> HardPause s = s /\ ResumeFromHardPause s = s)
  /\ (closed s <> 1 ->
      hardPaused (HardPause s) = 1
      /\ HardPause (HardPause s) = HardPause s
      /\ hardPaused (ResumeFromHardPause (HardPause s)) = 0
      /\ (hardPaused s = 0 ->
          ResumeFromHardPause (HardPause s) = signalCond pausedCond s)).
Proof.
  unfold HardPause, ResumeFromHardPause. split.
  - intros ->. auto.
  - intros Hc. apply Z.eqb_neq in Hc. rewrite Hc. simpl. rewrite Hc.
    repeat split. intros Hh. destruct s. simpl in *. now subst.
Qed.

(** X9.  Accepting a connection and closing it again leaves the
    in-flight count where it was, whether connections are counted on
    Accept or not; an Accept that fails does not count at all. *)
Theorem Accept_then_conn_Close raw s ready k s' :
  Accept raw s = (WaitUntil ready k, s) ->
  int32_range (numConn s') ->
  match fst (fst (k s')) with
  | Some c => numConn (closeAccepted c (snd (k s'))) = numConn s'
  | None => numConn (snd (k s')) = numConn s'
  end.
Proof.
  unfold Accept, waitCond. destruct (closed s =? 1); [discriminate|].
  intros H Hr. injection H as _ <-. cbn [trackConnOnAccept emit].
  destruct (trackConnOnAccept s') eqn:Ht.
  - destruct raw as [[c|] [e|]]; simpl; try reflexivity.
    unfold conn_Close. simpl. rewrite Ht. simpl. unfold AddInt32.
    replace (wrap32 (numConn s' + 1) + -1) with (wrap32 (numConn s' + 1) - 1) by lia.
    now apply wrap32_inc_dec.
  - destruct raw as [[c|] e]; simpl; reflexivity.
Qed.

Lemma Accept_then_conn_Close_witness :
  numConn (closeAccepted (RawConn 7)
             (emit [RawAccept] (NewListener None 10 0))) = 0.
Proof.
  assert (Hr : int32_range (numConn (NewListener None 10 0))).
  { unfold int32_range. simpl. lia. }
  exact (Accept_then_conn_Close (Some 7, None) (NewListener None 10 0) _ _
           (NewListener None 10 0) eq_refl Hr).
Defined.

(** X16.  Who changes what.  In every state the gate reaches, one step
    changes the closed flag only if it is the first [Close], the
    hard-pause flag only if it is [HardPause] or [ResumeFromHardPause],
    the thresholds only if it is [ResetMaxNumConn], and the in-flight
    count and the soft-pause flag only if it is the entry or the exit of
    a [Run]. *)
Theorem gate_fields_owned m f tr y l y' :
  execs tr (init m f) = Some y -> exec l y = Some y' ->
  (closed (gate y') <> closed (gate y) -> l = CloseCall)
  /\ (hardPaused (gate y') <> hardPaused (gate y) ->
      l = DoHardPause \/ l = DoResume)
  /\ (maxNumConnHi (gate y') <> maxNumConnHi (gate y)
      \/ maxNumConnLo (gate y') <> maxNumConnLo (gate y) ->
      exists n, l = DoReset n)
  /\ (numConn (gate y') <> numConn (gate y)
      \/ paused (gate y') <> paused (gate y) ->
      l = RunEnter \/ l = RunExit).
Proof.
  intros He Hx. pose proof (Inv_execs tr _ _ (Inv_init m f) He) as Hy.
  pose proof (inv_gate _ Hy) as Hg. pose proof (inv_track _ Hg) as Ht.
  assert (Hfin : forall g,
             closed g = closed (gate y) -> hardPaused g = hardPaused (gate y) ->
             maxNumConnHi g = maxNumConnHi (gate y) ->
             maxNumConnLo g = maxNumConnLo (gate y) ->
             (l = RunEnter \/ l = RunExit
              \/ (numConn g = numConn (gate y) /\ paused g = paused (gate y))) ->
             (closed g <> closed (gate y) -> l = CloseCall)
             /\ (hardPaused g <> hardPaused (gate y) ->
                 l = DoHardPause \/ l = DoResume)
             /\ (maxNumConnHi g <> maxNumConnHi (gate y)
                 \/ maxNumConnLo g <> maxNumConnLo (gate y) ->
                 exists n, l = DoReset n)
             /\ (numConn g <> numConn (gate y) \/ paused g <> paused (gate y) ->
                 l = RunEnter \/ l = RunExit)).
  { intros g H1 H2 H3 H4 H5. repeat split; intros H; tauto. }
  destruct l; simpl in Hx.
  - destruct (closed (gate y) =? 1); injection Hx as <-; simpl.
    + apply Hfin; auto.
    + destruct (enter_frame _ Ht) as (_ & H1 & H2 & H3 & H4). apply Hfin; auto.
  - destruct (inflight y); [discriminate|]. injection Hx as <-. simpl.
    destruct (afterRun_frame _ Ht) as (_ & H1 & H2 & H3 & H4). apply Hfin; auto.
  - injection Hx as <-. simpl. unfold HardPause.
    destruct (closed (gate y) =? 1); simpl; [apply Hfin; auto|].
    repeat split; intros H; try tauto; auto.
  - injection Hx as <-. simpl. unfold ResumeFromHardPause.
    destruct (closed (gate y) =? 1); simpl; [apply Hfin; auto|].
    repeat split; intros H; try tauto; auto.
  - injection Hx as <-. simpl. repeat split; intros H; try tauto; eauto.
  - pose proof (Accept_snd raw (gate y)) as Hs.
    pose proof (Accept_resume raw (gate y) Hg) as Hr.
    destruct (Accept raw (gate y)) as [[a|ready k] g]; simpl in *; subst g.
    + injection Hx as <-. apply Hfin; auto.
    + destruct (ready (gate y)); [|discriminate]. injection Hx as <-.
      destruct (Hr ready k eq_refl) as (_ & H1 & H2 & H3 & H4 & H5 & H6).
      apply Hfin; auto.
  - unfold Close, CompareAndSwapUint32, waitCond in Hx.
    destruct (closed (gate y) =? 0); simpl in Hx; injection Hx as <-; simpl;
      repeat split; intros H; try tauto; auto.
  - destruct (closing y) as [[a|ready k]|] eqn:Hk; try discriminate.
    destruct (ready (gate y)); [|discriminate]. injection Hx as <-.
    destruct (inv_closing _ Hy _ Hk) as [_ [e Hpk]]. injection Hpk as -> ->.
    simpl. apply Hfin; auto.
Qed.

Lemma gate_fields_owned_witness :
  exists y y',
    execs [RunEnter] (init 10 0) = Some y
    /\ exec (DoReset 5) y = Some y'
    /\ maxNumConnHi (gate y') <> maxNumConnHi (gate y)
    /\ exists n, DoReset 5 = DoReset n.
Proof.
  eexists. eexists. split; [reflexivity|]. split; [reflexivity|].
  split; [vm_compute; discriminate|].
  apply (gate_fields_owned 10 0 [RunEnter] _ (DoReset 5) _ eq_refl eq_refl).
  left. vm_compute. discriminate.
Defined.

(** X17.  The hysteresis band.  For every high threshold below 2207541
    (the default 10 included) the low threshold is not negative and lies
    strictly below the high one, by the twentieth part of it rounded up;
    it is zero exactly when the high threshold is one. *)
Theorem threshold_band rawErr flags s M :
  (if M <=? 0 then 10 else M) < 2207541 ->
  (0 <= maxNumConnLo (NewListener rawErr M flags)
        < maxNumConnHi (NewListener rawErr M flags)
   /\ maxNumConnHi (NewListener rawErr M flags)
      - maxNumConnLo (NewListener rawErr M flags)
      = (maxNumConnHi (NewListener rawErr M flags) + 19) / 20
   /\ (maxNumConnLo (NewListener rawErr M flags) = 0 <->
       maxNumConnHi (NewListener rawErr M flags) = 1))
  /\ 0 <= maxNumConnLo (ResetMaxNumConn M s) < maxNumConnHi (ResetMaxNumConn M s).
Proof.
  intros HM.
  destruct (thresholds_computed rawErr flags s M) as (H1 & H2 & H3 & H4).
  cbv zeta in H1, H2, H3, H4. rewrite H1, H2, H3, H4.
  set (hi := if M <=? 0 then 10 else M) in *.
  assert (Hpos : 0 < hi < 2207541).
  { split; [|exact HM]. subst hi. destruct (Z.leb_spec M 0); lia. }
  rewrite (lowThreshold_floor _ Hpos). unfold spec_lowThreshold.
  pose proof (Z.div_mod (19 * hi) 20 ltac:(lia)) as Hd.
  pose proof (Z.mod_pos_bound (19 * hi) 20 ltac:(lia)) as Hr.
  pose proof (Z.div_mod (hi + 19) 20 ltac:(lia)) as Hd'.
  pose proof (Z.mod_pos_bound (hi + 19) 20 ltac:(lia)) as Hr'.
  set (q := 19 * hi / 20) in *. set (q' := (hi + 19) / 20) in *.
  repeat split; lia.
Qed.

Lemma threshold_band_witness :
  0 <= maxNumConnLo (NewListener None 1 0) < maxNumConnHi (NewListener None 1 0)
  /\ maxNumConnLo (NewListener None 1 0) = 0.
Proof.
  destruct (threshold_band None 0 (NewListener None 1 0) 1 eq_refl)
    as ((H1 & _ & H2) & _).
  split; [exact H1 | apply H2; reflexivity].
Defined.

End Gate.

(** ** pipeline.go and the dispatcher *)

Module Pipe.

(** *** Collaborators outside the repository *)

(** [compress/gzip]: a [gzip.Writer] is known by its state; [Write],
    [Flush] and [Close] hand chunks of compressed bytes to the destination
    it is bound to.  [gunzip] is the decompressor of the format. *)
Record GzipCodec : Type := mkCodec {
  GzW : Type;
  gz_new : GzW;
  gz_write : bytes -> GzW -> list bytes * GzW;
  gz_flush : GzW -> list bytes * GzW;
  gz_close : GzW -> list bytes * GzW;
  gunzip : bytes -> option bytes
}.

(** What may be done to a [gzip.Writer] before it is closed. *)
Inductive GzOp : Type :=
| GzWrite (b : bytes)
| GzFlush.

(** [http.Request], as far as the pipeline reads it. *)
Record Request : Type := mkRequest {
  reqHeader : Header;
  reqHost : string;
  reqPath : string
}.

(** [strings.Contains] *)
Definition Contains (s sub : string) : bool := is_some (String.index 0 sub s).

(** [gzipTypes = regexp.MustCompile(`^text/|(json|javascript|plain|html|css|xml)`)]:
    the value starts with "text/", or one of the words occurs in it. *)
Definition gzipTypes_MatchString (ctype : string) : bool :=
  String.prefix "text/" ctype
  || existsb (Contains ctype) ["json"; "javascript"; "plain"; "html"; "css"; "xml"].

Definition doGzipResp : bool := true.

Section WithCodec.
Variable codec : GzipCodec.
(** [http.DetectContentType] *)
Variable DetectContentType : bytes -> string.

(** All chunks a fresh [gzip.Writer] emits for a sequence of calls
    followed by [Close], and the bytes it was given. *)
Fixpoint gz_run (ops : list GzOp) (z : GzW codec) : list bytes * GzW codec :=
  match ops with
  | [] => ([], z)
  | o :: r =>
      let '(out, z1) := match o with
                        | GzWrite b => gz_write codec b z
                        | GzFlush => gz_flush codec z
                        end in
      let '(outs, z2) := gz_run r z1 in
      (out ++ outs, z2)
  end.

Definition gz_payload (ops : list GzOp) : bytes :=
  concat (omap (fun o => match o with GzWrite b => Some b | GzFlush => None end) ops).

Definition gz_stream (ops : list GzOp) : bytes :=
  let '(outs, z) := gz_run ops (gz_new codec) in
  concat (outs ++ fst (gz_close codec z)).

(** The contract of the format: what was written and then closed
    decompresses to what was written. *)
Definition gzip_roundtrip : Prop :=
  forall ops, gunzip codec (gz_stream ops) = Some (gz_payload ops).

(** *** State of one request being served *)

(** Programs of handlers and of stages the application supplies: calls on
    the [ResponseWriter] they were given, and on the forwarding handle. *)
Inductive Prog : Type :=
| Done
| Fault (v : string)
| DoWriteHeader (c : Z) (k : Prog)
| DoWrite (b : bytes) (k : Z * option string -> Prog)
| DoFlush (k : Prog)
| DoSetHeader (key val : string) (k : Prog)
| DoGetHeader (key : string) (k : string -> Prog)
| DoIsHeaderWritten (k : bool -> Prog)
| DoNext (k : Prog).

(** [type GzipPipe struct] *)
Record GzipPipe : Type := mkGzipPipe {
  level : Z;
  poolCap : Z
}.

Inductive Pipe : Type :=
| PServer                          (* the *HTTPServer, admission stage *)
| PFlusher                         (* FlusherPipe{} *)
| PHandler (h : Prog)              (* HttpHandlerPipe{h} *)
| PGzip (g : GzipPipe)             (* *GzipPipe *)
| PApp (p : Prog).                 (* a stage of the application *)

(** [type Pipeline struct] *)
Record Pipeline : Type := mkPipeline {
  s : list Pipe;
  i : Z
}.

Definition NewPipeline (pipes : list Pipe) : Pipeline := mkPipeline pipes 0.

(** [type gzipWriter struct]; [consumed] is a ghost field, the bytes
    handed to [Write] so far. *)
Record gzipWriter : Type := mkGzipWriter {
  started : bool;
  gw : option (GzW codec);
  consumed : bytes
}.

(** A [ResponseWriter] value: the request's [*responseWriter], or a
    [*gzipWriter] (by address) around another one. *)
Inductive Writer : Type :=
| WBase
| WGzip (a : nat) (inner : Writer).

Record World : Type := mkWorld {
  lis : Gate.Listener;             (* HTTPServer.Listener *)
  seq : Z;                         (* HTTPServer.seq, uint64 *)
  pool : list (GzW codec);         (* GzipPipe.pool, idle writers *)
  rw : RW.responseWriter;          (* the wrapped sink of the request *)
  pl : Pipeline;                   (* the pipeline of the request *)
  gzs : list gzipWriter;           (* the gzipWriters allocated *)
  invoked : list Z                 (* ghost: stages invoked, by index *)
}.

Definition set_lis (v : Gate.Listener) (σ : World) : World :=
  mkWorld v (seq σ) (pool σ) (rw σ) (pl σ) (gzs σ) (invoked σ).
Definition set_seq (v : Z) (σ : World) : World :=
  mkWorld (lis σ) v (pool σ) (rw σ) (pl σ) (gzs σ) (invoked σ).
Definition set_pool (v : list (GzW codec)) (σ : World) : World :=
  mkWorld (lis σ) (seq σ) v (rw σ) (pl σ) (gzs σ) (invoked σ).
Definition set_rw (v : RW.responseWriter) (σ : World) : World :=
  mkWorld (lis σ) (seq σ) (pool σ) v (pl σ) (gzs σ) (invoked σ).
Definition set_pl (v : Pipeline) (σ : World) : World :=
  mkWorld (lis σ) (seq σ) (pool σ) (rw σ) v (gzs σ) (invoked σ).
Definition set_gzs (v : list gzipWriter) (σ : World) : World :=
  mkWorld (lis σ) (seq σ) (pool σ) (rw σ) (pl σ) v (invoked σ).
Definition set_invoked (v : list Z) (σ : World) : World :=
  mkWorld (lis σ) (seq σ) (pool σ) (rw σ) (pl σ) (gzs σ) v.

(** *** The pool of gzip writers ([NewGzipWriterPool]) *)

(** [pool.Get]: an idle writer, or a new one. *)
Definition pool_Get (σ : World) : GzW codec * World :=
  match pool σ with
  | z :: r => (z, set_pool r σ)
  | [] => (gz_new codec, σ)
  end.

(** [pool.Put]: the writer is reset to discard its output and kept, unless
    the pool is at capacity. *)
Definition pool_Put (g : GzipPipe) (z : GzW codec) (σ : World) : World :=
  if len (pool σ) >=? poolCap g then σ
  else set_pool (gz_new codec :: pool σ) σ.

(** *** Methods of the writers *)

(** Methods a [gzipWriter] inherits from the writer it embeds end at the
    request's [responseWriter]. *)
Definition w_WriteHeader (w : Writer) (c : Z) (σ : World) : World :=
  set_rw (RW.WriteHeader c (rw σ)) σ.
Definition w_SetHeader (w : Writer) (k v : string) (σ : World) : World :=
  set_rw (RW.setHeader k v (rw σ)) σ.
Definition w_GetHeader (w : Writer) (k : string) (σ : World) : string :=
  RW.getHeader k (rw σ).
Definition w_IsHeaderWritten (w : Writer) (σ : World) : bool :=
  RW.IsHeaderWritten (rw σ).

(** The chunks a [gzip.Writer] emits go to the writer it is bound to, one
    [Write] each, up to the first that fails. *)
Fixpoint writeChunks (wr : bytes -> World -> (Z * option string) * World)
    (chunks : list bytes) (σ : World) : option string * World :=
  match chunks with
  | [] => (None, σ)
  | c :: r =>
      match wr c σ with
      | ((_, Some e), σ1) => (Some e, σ1)
      | ((_, None), σ1) => writeChunks wr r σ1
      end
  end.

(** The first-write decision of [gzipWriter.Write] (lines 90-111). *)
Definition gz_start (g : gzipWriter) (b : bytes) (σ : World)
  : gzipWriter * World :=
  if doGzipResp && negb (started g) then
    let cEnc := RW.getHeader "Content-Encoding" (rw σ) in
    if String.eqb cEnc "" then
      let ctype0 := RW.getHeader "Content-Type" (rw σ) in
      let '(ctype, σ1) :=
        if String.eqb ctype0 ""
        then let ct := DetectContentType b in
             (ct, set_rw (RW.setHeader "Content-Type" ct (rw σ)) σ)
        else (ctype0, σ) in
      if gzipTypes_MatchString ctype then
        let σ2 := set_rw (RW.setHeader "Content-Encoding" "gzip" (rw σ1)) σ1 in
        let '(_, σ3) := pool_Get σ2 in
        (* t.gw.Reset(t.ResponseWriter) *)
        (mkGzipWriter true (Some (gz_new codec)) (consumed g), σ3)
      else (mkGzipWriter true None (consumed g), σ1)
    else (mkGzipWriter true None (consumed g), σ)
  else (g, σ).

Fixpoint w_Write (w : Writer) (b : bytes) (σ : World)
  : (Z * option string) * World :=
  match w with
  | WBase =>
      let '(r, t) := RW.Write b (rw σ) in (r, set_rw t σ)
  | WGzip a inner =>
      match gzs σ !! a with
      | None => ((0, Some "nil gzipWriter"), σ)
      | Some g =>
          let '(g1, σ1) := gz_start g b σ in
          match gw g1 with
          | Some z =>
              let '(chunks, z') := gz_write codec b z in
              let '(err, σ2) := writeChunks (w_Write inner) chunks σ1 in
              let g2 := mkGzipWriter (started g1) (Some z') (consumed g1 ++ b) in
              ((match err with None => len b | Some _ => 0 end, err),
               set_gzs (<[a := g2]> (gzs σ2)) σ2)
          | None =>
              let '(r, σ2) := w_Write inner b σ1 in
              (r, set_gzs (<[a := mkGzipWriter (started g1) None (consumed g1 ++ b)]>
                             (gzs σ2)) σ2)
          end
      end
  end.

Fixpoint w_Flush (w : Writer) (σ : World) : World :=
  match w with
  | WBase => set_rw (RW.Flush (rw σ)) σ
  | WGzip a inner =>
      let σ1 :=
        match gzs σ !! a with
        | Some (mkGzipWriter st (Some z) cn) =>
            let '(chunks, z') := gz_flush codec z in
            let '(_, σ1) := writeChunks (w_Write inner) chunks σ in
            set_gzs (<[a := mkGzipWriter st (Some z') cn]> (gzs σ1)) σ1
        | _ => σ
        end in
      w_Flush inner σ1
  end.

(** [gzipWriter.Close] *)
Definition gzipWriter_Close (g : GzipPipe) (a : nat) (inner : Writer) (σ : World)
  : option string * World :=
  match gzs σ !! a with
  | Some (mkGzipWriter st (Some z) cn) =>
      let '(chunks, z') := gz_close codec z in
      let '(err, σ1) := writeChunks (w_Write inner) chunks σ in
      (err, pool_Put g z'
              (set_gzs (<[a := mkGzipWriter st (Some z') cn]> (gzs σ1)) σ1))
  | _ => (None, σ)
  end.

(** *** Stages *)

Fixpoint interp (p : Prog) (w : Writer) (next : M World unit) : M World unit :=
  match p with
  | Done => ret tt
  | Fault v => panic v
  | DoWriteHeader c k => fun σ => interp k w next (w_WriteHeader w c σ)
  | DoWrite b k => fun σ => let '(r, σ1) := w_Write w b σ in interp (k r) w next σ1
  | DoFlush k => fun σ => interp k w next (w_Flush w σ)
  | DoSetHeader key val k => fun σ => interp k w next (w_SetHeader w key val σ)
  | DoGetHeader key k => fun σ => interp (k (w_GetHeader w key σ)) w next σ
  | DoIsHeaderWritten k => fun σ => interp (k (w_IsHeaderWritten w σ)) w next σ
  | DoNext k => bind next (fun _ => interp k w next)
  end.

(** [FlusherPipe.ServeHttpPipe] *)
Definition FlusherPipe_ServeHttpPipe (w : Writer) (next : Writer -> M World unit)
  : M World unit :=
  bind (next w) (fun _ => modify (w_Flush w)).

(** [HttpHandlerPipe.ServeHttpPipe]: the handler has no forwarding handle. *)
Definition HttpHandlerPipe_ServeHttpPipe (h : Prog) (w : Writer)
    (next : Writer -> M World unit) : M World unit :=
  bind (interp h w (ret tt)) (fun _ => next w).

(** [GzipPipe.ServeHttpPipe] *)
Definition GzipPipe_ServeHttpPipe (g : GzipPipe) (r : Request) (w : Writer)
    (next : Writer -> M World unit) : M World unit :=
  if negb (Contains (Header_Get (reqHeader r) "Accept-Encoding") "gzip")
  then next w
  else
    fun σ =>
      let a := length (gzs σ) in
      let σ1 := set_gzs (gzs σ ++ [mkGzipWriter false None []]) σ in
      bind (next (WGzip a w))
           (fun _ σ2 =>
              let σ3 := w_Flush (WGzip a w) σ2 in
              (Ok tt, snd (gzipWriter_Close g a w σ3)))
           σ1.

(** Callbacks of the admission stage see the gate beside the rest. *)
Definition withGate (m : M World unit) : M (Gate.Listener * World) unit :=
  fun x => let '(r, σ) := m (set_lis (fst x) (snd x)) in (r, (lis σ, σ)).

Definition Listener_Run (onClosed onPaused onRun : M World unit) : M World unit :=
  fun σ =>
    let '(r, x) :=
      Gate.Run (withGate onClosed) (withGate onPaused) (withGate onRun) (lis σ, σ) in
    (r, set_lis (fst x) (snd x)).

(** [HTTPServer.ServeHttpPipe] *)
Definition HTTPServer_ServeHttpPipe (w : Writer) (next : Writer -> M World unit)
  : M World unit :=
  let onClosed : M World unit :=
    modify (fun σ => w_WriteHeader w RW.StatusServiceUnavailable
                       (w_SetHeader w "Connection" "close" σ)) in
  let onPaused : M World unit := modify (w_SetHeader w "Connection" "close") in
  let onRun : M World unit := next w in
  bind (modify (fun σ => set_seq ((seq σ + 1) mod 2 ^ 64) σ))
       (fun _ => Listener_Run onClosed onPaused onRun).

Definition ServeHttpPipe (r : Request) (x : Pipe) (w : Writer)
    (next : Writer -> M World unit) : M World unit :=
  match x with
  | PServer => HTTPServer_ServeHttpPipe w next
  | PFlusher => FlusherPipe_ServeHttpPipe w next
  | PHandler h => HttpHandlerPipe_ServeHttpPipe h w next
  | PGzip g => GzipPipe_ServeHttpPipe g r w next
  | PApp p => interp p w (next w)
  end.

(** *** Pipeline.Next

    [Next] re-enters itself through the stage it calls, so it is defined
    with fuel for the depth of the nesting; [Next_enough] below shows
    that the length of the pipeline is enough.  Indexing [p.s] out of
    range panics. *)
Fixpoint Next (fuel : nat) (r : Request) (w : Writer) : M World unit :=
  fun σ =>
    if i (pl σ) >=? len (s (pl σ)) then (Ok tt, σ)
    else
      match fuel with
      | O => (Panicked "out of fuel", σ)
      | S f =>
          if i (pl σ) <? 0 then (Panicked "index out of range", σ)
          else
            match s (pl σ) !! Z.to_nat (i (pl σ)) with
            | None => (Panicked "index out of range", σ)
            | Some x =>
                let σ1 := set_invoked (invoked σ ++ [i (pl σ)])
                            (set_pl (mkPipeline (s (pl σ)) (i (pl σ) + 1)) σ) in
                ServeHttpPipe r x w (Next f r) σ1
            end
      end.

(** [Pipeline.Next]: the nesting is never deeper than the pipeline. *)
Definition Pipeline_Next (r : Request) (w : Writer) : M World unit :=
  fun σ => Next (S (length (s (pl σ)))) r w σ.

(** *** The dispatcher *)

(** [Listener.handlePanic], deferred by ServeHTTP: with [OnPanicRecover]
    set the panic is recovered (and logged), otherwise it goes on. *)
Definition handlePanic (flags : Z) (r : Res unit) : Res unit :=
  if Z.land flags Gate.OnPanicRecover =? 0 then r
  else match r with
       | Panicked _ => Ok tt
       | Ok a => Ok a
       end.

(** [HTTPServer.ServeHTTP].  [pipes] is [s.Pipes]; the gate and the
    sequence number of the server are those of [σ]. *)
Definition ServeHTTP (pipes : list Pipe) (raw : RW.RawSink + RW.responseWriter)
    (r : Request) (σ : World) : Res unit * World :=
  let ps := PServer :: pipes ++ [PFlusher] in
  let w2 := RW.AsResponseWriter raw in
  let σ0 := mkWorld (lis σ) (seq σ) (pool σ) w2 (NewPipeline ps) [] [] in
  let '(res, σ1) :=
    bind (Pipeline_Next r WBase) (fun _ => modify (w_Flush WBase)) σ0 in
  (handlePanic (Gate.panicFlags (lis σ1)) res, σ1).

(** *** What serving a request can do to the state

    A stage reaches the state only through the [ResponseWriter] it was
    handed and through the forwarding handle.  Seen from a writer [w0],
    every change made by the stages below it is one of: a method call on
    [w0]; the pipeline advancing its cursor to invoke the stage under it;
    or a change to parts that [w0] does not depend on (the gate, the
    sequence number, the pool, and gzipWriters allocated at addresses from
    [n0] on). *)
Definition advance (σ : World) : World :=
  set_invoked (invoked σ ++ [i (pl σ)])
    (set_pl (mkPipeline (s (pl σ)) (i (pl σ) + 1)) σ).

(** [w] is [w0], or a gzipWriter allocated at an address from [n0] on
    around such a writer. *)
Inductive over (w0 : Writer) (n0 : nat) : Writer -> Prop :=
| over_self : over w0 n0 w0
| over_gzip a w : (n0 <= a)%nat -> over w0 n0 w -> over w0 n0 (WGzip a w).

Inductive via (w0 : Writer) (n0 : nat) : World -> World -> Prop :=
| via_WriteHeader σ c : via w0 n0 σ (w_WriteHeader w0 c σ)
| via_SetHeader σ k v : via w0 n0 σ (w_SetHeader w0 k v σ)
| via_Write σ b : via w0 n0 σ (snd (w_Write w0 b σ))
| via_Flush σ : via w0 n0 σ (w_Flush w0 σ)
| via_next σ :
    0 <= i (pl σ) < len (s (pl σ)) -> via w0 n0 σ (advance σ)
| via_other σ l q p g :
    (n0 <= length g)%nat -> take n0 g = take n0 (gzs σ) ->
    via w0 n0 σ (mkWorld l q p (rw σ) (pl σ) g (invoked σ)).

Definition vias (w0 : Writer) (n0 : nat) : World -> World -> Prop :=
  rtc (via w0 n0).

(** The gzipWriters below address [n0] exist. *)
Definition alloc (n0 : nat) (σ : World) : Prop := (n0 <= length (gzs σ))%nat.

(** A computation that only makes such changes. *)
Definition tame (w0 : Writer) (n0 : nat) {A} (m : M World A) : Prop :=
  forall σ, alloc n0 σ -> vias w0 n0 σ (snd (m σ)).

(** **** The writers keep the gzipWriters in place *)

Lemma gz_start_gzs g b σ : gzs (snd (gz_start g b σ)) = gzs σ.
Proof.
  unfold gz_start, pool_Get.
  repeat (case_match; simpl; try reflexivity); simplify_eq; reflexivity.
Qed.

Lemma writeChunks_len wr :
  (forall b σ, length (gzs (snd (wr b σ))) = length (gzs σ)) ->
  forall chunks σ,
    length (gzs (snd (writeChunks wr chunks σ))) = length (gzs σ).
Proof.
  intros Hwr. induction chunks as [|c r IH]; intros σ; simpl; [reflexivity|].
  pose proof (Hwr c σ) as H. destruct (wr c σ) as [[n [e|]] σ1]; simpl in *.
  - exact H.
  - now rewrite IH.
Qed.

Lemma w_Write_len w : forall b σ,
  length (gzs (snd (w_Write w b σ))) = length (gzs σ).
Proof.
  induction w as [|a inner IH]; intros b σ; simpl.
  - now destruct (RW.Write b (rw σ)).
  - destruct (gzs σ !! a) as [g|]; [|reflexivity].
    pose proof (gz_start_gzs g b σ) as H1.
    destruct (gz_start g b σ) as [g1 σ1]. simpl in H1.
    destruct (gw g1) as [z|].
    + destruct (gz_write codec b z) as [chunks z'].
      pose proof (writeChunks_len (w_Write inner) IH chunks σ1) as H2.
      destruct (writeChunks (w_Write inner) chunks σ1) as [err σ2]. simpl in *.
      rewrite length_insert. congruence.
    + pose proof (IH b σ1) as H2.
      destruct (w_Write inner b σ1) as [r σ2]. simpl in *.
      rewrite length_insert. congruence.
Qed.

Lemma w_Flush_len w : forall σ, length (gzs (w_Flush w σ)) = length (gzs σ).
Proof.
  induction w as [|a inner IH]; intros σ; simpl; [reflexivity|].
  rewrite IH.
  destruct (gzs σ !! a) as [[st [z|] cn]|]; try reflexivity.
  destruct (gz_flush codec z) as [chunks z'].
  pose proof (writeChunks_len (w_Write inner) (w_Write_len inner) chunks σ) as H2.
  destruct (writeChunks (w_Write inner) chunks σ) as [err σ1]. simpl in *.
  now rewrite length_insert.
Qed.

Lemma via_alloc w0 n0 σ σ' : via w0 n0 σ σ' -> alloc n0 σ -> alloc n0 σ'.
Proof.
  unfold alloc. destruct 1; simpl; auto.
  - now rewrite w_Write_len.
  - now rewrite w_Flush_len.
Qed.

Lemma vias_alloc w0 n0 σ σ' : vias w0 n0 σ σ' -> alloc n0 σ -> alloc n0 σ'.
Proof. induction 1; eauto using via_alloc. Qed.

(** **** Everything the stages do is such a change *)

Lemma vias_refl w0 n0 σ : vias w0 n0 σ σ.
Proof. apply rtc_refl. Qed.

Lemma vias_trans w0 n0 σ1 σ2 σ3 :
  vias w0 n0 σ1 σ2 -> vias w0 n0 σ2 σ3 -> vias w0 n0 σ1 σ3.
Proof. apply rtc_trans. Qed.

Lemma vias_WriteHeader w0 n0 w c σ : vias w0 n0 σ (w_WriteHeader w c σ).
Proof. apply rtc_once. apply (via_WriteHeader w0 n0 σ c). Qed.

Lemma vias_SetHeader w0 n0 w k v σ : vias w0 n0 σ (w_SetHeader w k v σ).
Proof. apply rtc_once. apply (via_SetHeader w0 n0 σ k v). Qed.

Lemma vias_other w0 n0 σ l q p g :
  (n0 <= length g)%nat -> take n0 g = take n0 (gzs σ) ->
  vias w0 n0 σ (mkWorld l q p (rw σ) (pl σ) g (invoked σ)).
Proof. intros. apply rtc_once. now constructor. Qed.

Lemma vias_set_pool w0 n0 σ p : alloc n0 σ -> vias w0 n0 σ (set_pool p σ).
Proof. intros H. now apply (vias_other w0 n0 σ (lis σ) (seq σ) p (gzs σ)). Qed.

Lemma vias_set_lis w0 n0 σ l : alloc n0 σ -> vias w0 n0 σ (set_lis l σ).
Proof. intros H. now apply (vias_other w0 n0 σ l (seq σ) (pool σ) (gzs σ)). Qed.

Lemma vias_set_seq w0 n0 σ q : alloc n0 σ -> vias w0 n0 σ (set_seq q σ).
Proof. intros H. now apply (vias_other w0 n0 σ (lis σ) q (pool σ) (gzs σ)). Qed.

Lemma vias_insert_gz w0 n0 σ a g :
  alloc n0 σ -> (n0 <= a)%nat -> vias w0 n0 σ (set_gzs (<[a := g]> (gzs σ)) σ).
Proof.
  intros H Ha. apply (vias_other w0 n0 σ (lis σ) (seq σ) (pool σ)).
  - now rewrite length_insert.
  - now apply take_insert_ge.
Qed.

Lemma vias_new_gz w0 n0 σ g :
  alloc n0 σ -> vias w0 n0 σ (set_gzs (gzs σ ++ [g]) σ).
Proof.
  intros H. unfold alloc in H.
  apply (vias_other w0 n0 σ (lis σ) (seq σ) (pool σ)).
  - rewrite length_app. lia.
  - now apply take_app_le.
Qed.

Lemma vias_pool_Get w0 n0 σ : alloc n0 σ -> vias w0 n0 σ (snd (pool_Get σ)).
Proof.
  intros H. unfold pool_Get. destruct (pool σ); simpl;
    [apply vias_refl | now apply vias_set_pool].
Qed.

Lemma vias_pool_Put w0 n0 g z σ : alloc n0 σ -> vias w0 n0 σ (pool_Put g z σ).
Proof.
  intros H. unfold pool_Put. destruct (_ >=? _);
    [apply vias_refl | now apply vias_set_pool].
Qed.

Lemma vias_gz_start w0 n0 g b σ :
  alloc n0 σ -> vias w0 n0 σ (snd (gz_start g b σ)).
Proof.
  intros Ha. unfold gz_start.
  destruct (doGzipResp && negb (started g)); [|apply vias_refl].
  destruct (String.eqb _ ""); [|apply vias_refl].
  destruct (String.eqb (RW.getHeader "Content-Type" (rw σ)) "").
  - destruct (gzipTypes_MatchString _).
    + set (σ1 := set_rw (RW.setHeader "Content-Type" (DetectContentType b) (rw σ)) σ).
      set (σ2 := set_rw (RW.setHeader "Content-Encoding" "gzip" (rw σ1)) σ1).
      pose proof (vias_pool_Get w0 n0 σ2 Ha) as H.
      destruct (pool_Get σ2) as [z σ3]. simpl in *.
      eapply vias_trans;
        [apply (vias_SetHeader w0 n0 w0 "Content-Type" (DetectContentType b) σ)|].
      eapply vias_trans;
        [apply (vias_SetHeader w0 n0 w0 "Content-Encoding" "gzip" σ1)|].
      exact H.
    + simpl.
      apply (vias_SetHeader w0 n0 w0 "Content-Type" (DetectContentType b) σ).
  - destruct (gzipTypes_MatchString _).
    + set (σ2 := set_rw (RW.setHeader "Content-Encoding" "gzip" (rw σ)) σ).
      pose proof (vias_pool_Get w0 n0 σ2 Ha) as H.
      destruct (pool_Get σ2) as [z σ3]. simpl in *.
      eapply vias_trans;
        [apply (vias_SetHeader w0 n0 w0 "Content-Encoding" "gzip" σ)|].
      exact H.
    + apply vias_refl.
Qed.

Lemma vias_writeChunks w0 n0 wr :
  (forall b σ, alloc n0 σ -> vias w0 n0 σ (snd (wr b σ))) ->
  forall chunks σ, alloc n0 σ -> vias w0 n0 σ (snd (writeChunks wr chunks σ)).
Proof.
  intros Hwr. induction chunks as [|c r IH]; intros σ Ha; simpl.
  - apply vias_refl.
  - pose proof (Hwr c σ Ha) as H. destruct (wr c σ) as [[n [e|]] σ1]; simpl in *.
    + exact H.
    + eapply vias_trans; [exact H | apply IH]. eapply vias_alloc; eauto.
Qed.

Lemma vias_Write w0 n0 w :
  over w0 n0 w ->
  forall b σ, alloc n0 σ -> vias w0 n0 σ (snd (w_Write w b σ)).
Proof.
  induction 1 as [|a inner Hle Hov IH]; intros b σ Ha.
  - apply rtc_once. constructor.
  - simpl. destruct (gzs σ !! a) as [g|]; [|apply vias_refl].
    pose proof (vias_gz_start w0 n0 g b σ Ha) as H1.
    destruct (gz_start g b σ) as [g1 σ1]. simpl in H1.
    pose proof (vias_alloc _ _ _ _ H1 Ha) as Ha1.
    destruct (gw g1) as [z|].
    + destruct (gz_write codec b z) as [chunks z'].
      pose proof (vias_writeChunks w0 n0 (w_Write inner) IH chunks σ1 Ha1) as H2.
      destruct (writeChunks (w_Write inner) chunks σ1) as [err σ2]. simpl in *.
      pose proof (vias_alloc _ _ _ _ H2 Ha1) as Ha2.
      eapply vias_trans; [exact H1|].
      eapply vias_trans; [exact H2 | now apply vias_insert_gz].
    + pose proof (IH b σ1 Ha1) as H2.
      destruct (w_Write inner b σ1) as [r σ2]. simpl in *.
      pose proof (vias_alloc _ _ _ _ H2 Ha1) as Ha2.
      eapply vias_trans; [exact H1|].
      eapply vias_trans; [exact H2 | now apply vias_insert_gz].
Qed.

Lemma vias_Flush w0 n0 w :
  over w0 n0 w -> forall σ, alloc n0 σ -> vias w0 n0 σ (w_Flush w σ).
Proof.
  induction 1 as [|a inner Hle Hov IH]; intros σ Ha.
  - apply rtc_once. constructor.
  - simpl.
    assert (H : forall σ1, vias w0 n0 σ σ1 -> vias w0 n0 σ (w_Flush inner σ1)).
    { intros σ1 H1. eapply vias_trans; [exact H1 | apply IH].
      eapply vias_alloc; eauto. }
    apply H.
    destruct (gzs σ !! a) as [[st [z|] cn]|]; try apply vias_refl.
    destruct (gz_flush codec z) as [chunks z'].
    pose proof (vias_writeChunks w0 n0 (w_Write inner) (vias_Write w0 n0 inner Hov)
                  chunks σ Ha) as H2.
    destruct (writeChunks (w_Write inner) chunks σ) as [err σ1]. simpl in *.
    eapply vias_trans; [exact H2 | apply vias_insert_gz; auto].
    eapply vias_alloc; eauto.
Qed.

Lemma vias_Close w0 n0 g a inner σ :
  (n0 <= a)%nat -> over w0 n0 inner -> alloc n0 σ ->
  vias w0 n0 σ (snd (gzipWriter_Close g a inner σ)).
Proof.
  intros Hle Hov Ha. unfold gzipWriter_Close.
  destruct (gzs σ !! a) as [[st [z|] cn]|]; try apply vias_refl.
  destruct (gz_close codec z) as [chunks z'].
  pose proof (vias_writeChunks w0 n0 (w_Write inner) (vias_Write w0 n0 inner Hov)
                chunks σ Ha) as H2.
  destruct (writeChunks (w_Write inner) chunks σ) as [err σ1]. simpl in *.
  pose proof (vias_alloc _ _ _ _ H2 Ha) as Ha1.
  eapply vias_trans; [exact H2|].
  eapply vias_trans;
    [apply (vias_insert_gz w0 n0 σ1 a (mkGzipWriter st (Some z') cn) Ha1 Hle)|].
  apply vias_pool_Put. unfold alloc. simpl. now rewrite length_insert.
Qed.

Lemma tame_ret w0 n0 {A} (a : A) : tame w0 n0 (ret a).
Proof. intros σ _. apply vias_refl. Qed.

Lemma tame_bind w0 n0 {A B} (m : M World A) (k : A -> M World B) :
  tame w0 n0 m -> (forall a, tame w0 n0 (k a)) -> tame w0 n0 (bind m k).
Proof.
  intros Hm Hk σ Ha. unfold bind. pose proof (Hm σ Ha) as H1.
  destruct (m σ) as [[a|v] σ1]; simpl in *; [|exact H1].
  eapply vias_trans; [exact H1 | apply Hk]. eapply vias_alloc; eauto.
Qed.

Lemma tame_modify w0 n0 (f : World -> World) :
  (forall σ, alloc n0 σ -> vias w0 n0 σ (f σ)) -> tame w0 n0 (modify f).
Proof. intros H σ Ha. now apply H. Qed.

Lemma tame_interp w0 n0 p w next :
  over w0 n0 w -> tame w0 n0 next -> tame w0 n0 (interp p w next).
Proof.
  intros Hov Hn.
  induction p as [|v|c k IH|b k IH|k IH|key val k IH|key k IH|k IH|k IH]; simpl.
  - apply tame_ret.
  - intros σ _. apply vias_refl.
  - intros σ Ha. pose proof (vias_WriteHeader w0 n0 w c σ) as H.
    eapply vias_trans; [exact H | apply IH]. eapply vias_alloc; eauto.
  - intros σ Ha. pose proof (vias_Write w0 n0 w Hov b σ Ha) as H.
    destruct (w_Write w b σ) as [r σ1]. simpl in H.
    eapply vias_trans; [exact H | apply IH]. eapply vias_alloc; eauto.
  - intros σ Ha. pose proof (vias_Flush w0 n0 w Hov σ Ha) as H.
    eapply vias_trans; [exact H | apply IH]. eapply vias_alloc; eauto.
  - intros σ Ha. pose proof (vias_SetHeader w0 n0 w key val σ) as H.
    eapply vias_trans; [exact H | apply IH]. eapply vias_alloc; eauto.
  - intros σ Ha. now apply IH.
  - intros σ Ha. now apply IH.
  - apply tame_bind; [exact Hn | intros _; exact IH].
Qed.

Lemma set_lis_id σ : set_lis (lis σ) σ = σ.
Proof. now destruct σ. Qed.

Lemma tame_withGate_run w0 n0 (m : M World unit) l σ :
  tame w0 n0 m -> alloc n0 σ ->
  vias w0 n0 σ (snd (snd (withGate m (l, σ)))).
Proof.
  intros Hm Ha. unfold withGate. simpl.
  assert (Ha' : alloc n0 (set_lis l σ)) by exact Ha.
  pose proof (Hm (set_lis l σ) Ha') as H.
  destruct (m (set_lis l σ)) as [r σ1]. simpl in *.
  eapply vias_trans; [apply vias_set_lis | exact H]. exact Ha.
Qed.

Lemma tame_Listener_Run w0 n0 onClosed onPaused onRun :
  tame w0 n0 onClosed -> tame w0 n0 onPaused -> tame w0 n0 onRun ->
  tame w0 n0 (Listener_Run onClosed onPaused onRun).
Proof.
  intros Hc Hp Hr σ Ha. unfold Listener_Run, Gate.Run. simpl.
  destruct (Gate.closed (lis σ) =? 1).
  - pose proof (tame_withGate_run w0 n0 onClosed (lis σ) σ Hc Ha) as H1.
    destruct (withGate onClosed (lis σ, σ)) as [r [l σ1]]. simpl in *.
    eapply vias_trans; [exact H1 | apply vias_set_lis].
    eapply vias_alloc; eauto.
  - destruct (Gate.beforeRun (lis σ)) as [n s1].
    destruct (Gate.checkPause n s1) as [callPaused s2].
    assert (Hpre : forall r x,
               (if callPaused then withGate onPaused else ret tt) (s2, σ) = (r, x) ->
               vias w0 n0 σ (snd x)).
    { intros r x Hx. destruct callPaused.
      - pose proof (tame_withGate_run w0 n0 onPaused s2 σ Hp Ha) as H1.
        rewrite Hx in H1. exact H1.
      - injection Hx as <- <-. apply vias_refl. }
    unfold bind.
    destruct ((if callPaused then withGate onPaused else ret tt) (s2, σ))
      as [[[]|v] [l1 σ1]] eqn:Hx; simpl.
    + unfold finally.
      pose proof (Hpre _ _ eq_refl) as H0. simpl in H0.
      pose proof (vias_alloc _ _ _ _ H0 Ha) as Ha1.
      pose proof (tame_withGate_run w0 n0 onRun l1 σ1 Hr Ha1) as H1.
      destruct (withGate onRun (l1, σ1)) as [r2 [l2 σ2]]. simpl in *.
      eapply vias_trans; [exact H0|].
      eapply vias_trans; [exact H1 | apply vias_set_lis].
      eapply vias_alloc; eauto.
    + pose proof (Hpre _ _ eq_refl) as H0. simpl in H0.
      eapply vias_trans; [exact H0 | apply vias_set_lis].
      eapply vias_alloc; eauto.
Qed.

Lemma tame_ServeHttpPipe w0 n0 r x w next :
  over w0 n0 w ->
  (forall w', over w0 n0 w' -> tame w0 n0 (next w')) ->
  tame w0 n0 (ServeHttpPipe r x w next).
Proof.
  intros Hov Hn. destruct x as [| |h|g|p]; simpl.
  - unfold HTTPServer_ServeHttpPipe. apply tame_bind.
    + apply tame_modify. intros σ. apply vias_set_seq.
    + intros _. apply tame_Listener_Run; [| |now apply Hn].
      * apply tame_modify. intros σ _.
        eapply vias_trans; [apply vias_SetHeader | apply vias_WriteHeader].
      * apply tame_modify. intros σ _. apply vias_SetHeader.
  - unfold FlusherPipe_ServeHttpPipe. apply tame_bind; [now apply Hn|].
    intros _. apply tame_modify. now apply vias_Flush.
  - unfold HttpHandlerPipe_ServeHttpPipe. apply tame_bind.
    + apply tame_interp; [exact Hov | apply tame_ret].
    + intros _. now apply Hn.
  - unfold GzipPipe_ServeHttpPipe.
    destruct (negb _); [now apply Hn|].
    intros σ Ha.
    assert (Hov' : over w0 n0 (WGzip (length (gzs σ)) w)).
    { constructor; [exact Ha | exact Hov]. }
    eapply vias_trans; [apply (vias_new_gz w0 n0 σ (mkGzipWriter false None []) Ha)|].
    apply tame_bind.
    + now apply Hn.
    + intros _ σ2 Ha2. simpl.
      pose proof (vias_Flush w0 n0 _ Hov' σ2 Ha2) as H1.
      eapply vias_trans; [exact H1|].
      apply vias_Close; [exact Ha | exact Hov | eapply vias_alloc; eauto].
    + unfold alloc in *. simpl. rewrite length_app. lia.
  - apply tame_interp; [exact Hov | now apply Hn].
Qed.

Lemma tame_Next w0 n0 fuel : forall r w,
  over w0 n0 w -> tame w0 n0 (Next fuel r w).
Proof.
  induction fuel as [|f IH]; intros r w Hov σ Ha; simpl.
  - destruct (_ >=? _); apply vias_refl.
  - destruct (Z.geb_spec (i (pl σ)) (len (s (pl σ)))); [apply vias_refl|].
    destruct (Z.ltb_spec (i (pl σ)) 0); [apply vias_refl|].
    destruct (s (pl σ) !! Z.to_nat (i (pl σ))) as [x|]; [|apply vias_refl].
    eapply vias_trans.
    + apply rtc_once. apply via_next. lia.
    + apply (tame_ServeHttpPipe w0 n0 r x w (Next f r) Hov); [|exact Ha].
      intros w' Hov'. now apply IH.
Qed.

(** *** Invariants carried by every change *)

(** The stages are never replaced and the cursor never moves back. *)
Lemma w_Write_pl w : forall b σ,
  pl (snd (w_Write w b σ)) = pl σ /\ invoked (snd (w_Write w b σ)) = invoked σ.
Proof.
  assert (Hgs : forall g b σ, pl (snd (gz_start g b σ)) = pl σ
                              /\ invoked (snd (gz_start g b σ)) = invoked σ).
  { intros g b σ. unfold gz_start, pool_Get.
    repeat (case_match; simpl; try (split; reflexivity)); simplify_eq;
      split; reflexivity. }
  induction w as [|a inner IH]; intros b σ; simpl.
  - now destruct (RW.Write b (rw σ)).
  - destruct (gzs σ !! a) as [g|]; [|split; reflexivity].
    pose proof (Hgs g b σ) as H1.
    destruct (gz_start g b σ) as [g1 σ1]. simpl in H1.
    destruct (gw g1) as [z|].
    + destruct (gz_write codec b z) as [chunks z'].
      assert (H2 : forall chunks σ,
                 pl (snd (writeChunks (w_Write inner) chunks σ)) = pl σ
                 /\ invoked (snd (writeChunks (w_Write inner) chunks σ)) = invoked σ).
      { clear -IH. induction chunks as [|c r IHc]; intros σ; simpl; [auto|].
        pose proof (IH c σ) as H.
        destruct (w_Write inner c σ) as [[n [e|]] σ1]; simpl in *; [exact H|].
        destruct (IHc σ1), H. split; congruence. }
      specialize (H2 chunks σ1).
      destruct (writeChunks (w_Write inner) chunks σ1) as [err σ2]. simpl in *.
      destruct H1, H2. split; congruence.
    + pose proof (IH b σ1) as H2.
      destruct (w_Write inner b σ1) as [r σ2]. simpl in *.
      destruct H1, H2. split; congruence.
Qed.

Lemma w_Flush_pl w : forall σ,
  pl (w_Flush w σ) = pl σ /\ invoked (w_Flush w σ) = invoked σ.
Proof.
  induction w as [|a inner IH]; intros σ; simpl; [auto|].
  match goal with |- pl (w_Flush inner ?x) = _ /\ _ =>
    destruct (IH x) as [-> ->]; assert (H : pl x = pl σ /\ invoked x = invoked σ) end;
    [|exact H].
  destruct (gzs σ !! a) as [[st [z|] cn]|]; auto.
  destruct (gz_flush codec z) as [chunks z'].
  assert (H2 : forall chunks σ,
             pl (snd (writeChunks (w_Write inner) chunks σ)) = pl σ
             /\ invoked (snd (writeChunks (w_Write inner) chunks σ)) = invoked σ).
  { clear. induction chunks as [|c r IHc]; intros σ; simpl; [auto|].
    pose proof (w_Write_pl inner c σ) as H.
    destruct (w_Write inner c σ) as [[n [e|]] σ1]; simpl in *; [exact H|].
    destruct (IHc σ1), H. split; congruence. }
  specialize (H2 chunks σ).
  destruct (writeChunks (w_Write inner) chunks σ) as [err σ1]. simpl in *.
  exact H2.
Qed.

Lemma via_cursor w0 n0 σ σ' :
  via w0 n0 σ σ' -> s (pl σ') = s (pl σ) /\ i (pl σ) <= i (pl σ').
Proof.
  destruct 1; simpl; try (split; [reflexivity|lia]).
  - destruct (w_Write_pl w0 b σ) as [-> _]. split; [reflexivity|lia].
  - destruct (w_Flush_pl w0 σ) as [-> _]. split; [reflexivity|lia].
Qed.

Lemma vias_cursor w0 n0 σ σ' :
  vias w0 n0 σ σ' -> s (pl σ') = s (pl σ) /\ i (pl σ) <= i (pl σ').
Proof.
  induction 1 as [|σ1 σ2 σ3 H _ IH]; [split; [reflexivity|lia]|].
  destruct (via_cursor _ _ _ _ H), IH. split; [congruence | lia].
Qed.

(** The stages invoked so far, in order: strictly increasing indices
    below the cursor. *)
Definition ordered (σ : World) : Prop :=
  0 <= i (pl σ) /\
  forall l1 k l2, invoked σ = l1 ++ k :: l2 ->
    0 <= k < i (pl σ) /\ Forall (fun j => j < k) l1.

Lemma via_ordered w0 n0 σ σ' : via w0 n0 σ σ' -> ordered σ -> ordered σ'.
Proof.
  destruct 1 as [σ c|σ k v|σ b|σ|σ Hi|σ l q p g Hg1 Hg2]; intros [Hi0 H];
    [split; simpl; auto | split; simpl; auto | | | | split; simpl; auto].
  - destruct (w_Write_pl w0 b σ) as [Hp Hv]. unfold ordered.
    now rewrite Hp, Hv.
  - destruct (w_Flush_pl w0 σ) as [Hp Hv]. unfold ordered.
    now rewrite Hp, Hv.
  - split; simpl; [lia|]. intros l1 k l2 Hsplit.
    destruct (decide (l2 = [])) as [->|Hne].
    + apply app_inj_tail in Hsplit as [<- <-]. split; [lia|].
      apply Forall_forall. intros j Hj.
      apply list_elem_of_split in Hj as (la & lb & Hab).
      destruct (H la j lb Hab) as [Hj _]. lia.
    + destruct (exists_last Hne) as (l2' & z & ->).
      rewrite app_comm_cons, app_assoc in Hsplit.
      apply app_inj_tail in Hsplit as [Hs <-].
      destruct (H l1 k l2' Hs) as [Hk Hl]. split; [lia | exact Hl].
Qed.

Lemma vias_ordered w0 n0 σ σ' : vias w0 n0 σ σ' -> ordered σ -> ordered σ'.
Proof. induction 1; eauto using via_ordered. Qed.

Lemma ordered_NoDup σ : ordered σ -> NoDup (invoked σ).
Proof.
  intros [_ H]. remember (invoked σ) as l eqn:Hl. clear Hl.
  induction l as [|k l IH] using rev_ind; [constructor|].
  apply NoDup_app. split; [|split].
  - apply IH. intros l1 k' l2 Hs. apply (H l1 k' (l2 ++ [k])).
    rewrite Hs. now rewrite <- app_assoc.
  - intros j Hj Hk. apply list_elem_of_singleton in Hk as ->.
    destruct (H l k [] eq_refl) as [_ Hf].
    rewrite Forall_forall in Hf. specialize (Hf _ Hj). lia.
  - apply NoDup_singleton.
Qed.

(** Seen from the request's [responseWriter], every change to it is one
    of its methods. *)
Lemma via_base_coherent n0 σ σ' :
  via WBase n0 σ σ' -> RW.coherent (rw σ) -> RW.coherent (rw σ').
Proof.
  destruct 1 as [σ c|σ k v|σ b|σ|σ Hi|σ l q p g Hg1 Hg2]; simpl; intros H.
  - apply (RW.step_coherent (rw σ) (RW.OWriteHeader c) H).
  - apply (RW.step_coherent (rw σ) (RW.OSetHeader k v) H).
  - pose proof (RW.step_coherent (rw σ) (RW.OWrite b) H) as H1.
    simpl in H1. now destruct (RW.Write b (rw σ)).
  - apply (RW.step_coherent (rw σ) RW.OFlush H).
  - exact H.
  - exact H.
Qed.

Lemma vias_base_coherent n0 σ σ' :
  vias WBase n0 σ σ' -> RW.coherent (rw σ) -> RW.coherent (rw σ').
Proof. induction 1; eauto using via_base_coherent. Qed.

(** *** The fuel of Next is enough *)

Lemma alloc_0 σ : alloc 0 σ.
Proof. unfold alloc. lia. Qed.

Definition stable (w0 : Writer) (Ψ : World -> Prop) : Prop :=
  forall σ σ', via w0 0 σ σ' -> Ψ σ -> Ψ σ'.

Lemma stable_vias w0 Ψ σ σ' : stable w0 Ψ -> vias w0 0 σ σ' -> Ψ σ -> Ψ σ'.
Proof. intros HΨ. induction 1; eauto. Qed.

(** Two computations that agree wherever [Ψ] holds. *)
Definition agree (Ψ : World -> Prop) {A} (m1 m2 : M World A) : Prop :=
  forall σ, Ψ σ -> m1 σ = m2 σ.

Lemma agree_bind w0 Ψ {A B} (m1 m2 : M World A) (k1 k2 : A -> M World B) :
  stable w0 Ψ -> tame w0 0 m1 ->
  agree Ψ m1 m2 -> (forall a, agree Ψ (k1 a) (k2 a)) ->
  agree Ψ (bind m1 k1) (bind m2 k2).
Proof.
  intros HΨ Ht Hm Hk σ Hσ. unfold bind. rewrite <- (Hm σ Hσ).
  pose proof (Ht σ (alloc_0 σ)) as Hc.
  destruct (m1 σ) as [[a|v] σ1]; simpl in *; [|reflexivity].
  apply Hk. eapply stable_vias; eauto.
Qed.

Lemma agree_interp w0 Ψ p w n1 n2 :
  over w0 0 w -> stable w0 Ψ -> tame w0 0 n1 -> agree Ψ n1 n2 ->
  agree Ψ (interp p w n1) (interp p w n2).
Proof.
  intros Hov HΨ Ht Hn.
  induction p as [|v|c k IH|b k IH|k IH|key val k IH|key k IH|k IH|k IH];
    simpl; intros σ Hσ; try reflexivity.
  - apply IH. eapply stable_vias; eauto using vias_WriteHeader.
  - pose proof (vias_Write w0 0 w Hov b σ (alloc_0 σ)) as H.
    destruct (w_Write w b σ) as [r σ1]. simpl in H.
    apply IH. eapply stable_vias; eauto.
  - apply IH. eapply stable_vias; eauto using vias_Flush, alloc_0.
  - apply IH. eapply stable_vias; eauto using vias_SetHeader.
  - now apply IH.
  - now apply IH.
  - revert σ Hσ. apply (agree_bind w0); auto.
Qed.

Lemma agree_Listener_Run w0 Ψ onClosed onPaused r1 r2 :
  stable w0 Ψ -> tame w0 0 onPaused -> agree Ψ r1 r2 ->
  agree Ψ (Listener_Run onClosed onPaused r1) (Listener_Run onClosed onPaused r2).
Proof.
  intros HΨ Hp Hr σ Hσ. unfold Listener_Run, Gate.Run. simpl.
  destruct (Gate.closed (lis σ) =? 1); [reflexivity|].
  destruct (Gate.beforeRun (lis σ)) as [n s1].
  destruct (Gate.checkPause n s1) as [callPaused s2].
  unfold bind.
  assert (Hpre : forall r x,
             (if callPaused then withGate onPaused else ret tt) (s2, σ) = (r, x) ->
             vias w0 0 σ (snd x)).
  { intros r x Hx. destruct callPaused.
    - pose proof (tame_withGate_run w0 0 onPaused s2 σ Hp (alloc_0 σ)) as H1.
      rewrite Hx in H1. exact H1.
    - injection Hx as <- <-. apply vias_refl. }
  destruct ((if callPaused then withGate onPaused else ret tt) (s2, σ))
    as [[[]|v] [l1 σ1]] eqn:Hx; simpl; [|reflexivity].
  unfold finally, withGate. simpl.
  rewrite (Hr (set_lis l1 σ1)); [reflexivity|].
  eapply stable_vias; [exact HΨ| |exact Hσ].
  eapply vias_trans; [apply (Hpre _ _ eq_refl) | apply vias_set_lis, alloc_0].
Qed.

Lemma agree_ServeHttpPipe Ψ r x w (n1 n2 : Writer -> M World unit) :
  stable w Ψ -> (forall w', over w 0 w' -> tame w 0 (n1 w')) ->
  (forall w', agree Ψ (n1 w') (n2 w')) ->
  agree Ψ (ServeHttpPipe r x w n1) (ServeHttpPipe r x w n2).
Proof.
  intros HΨ Ht Hn.
  assert (Hov : over w 0 w) by constructor.
  destruct x as [| |h|g|p]; simpl.
  - unfold HTTPServer_ServeHttpPipe. apply (agree_bind w); auto.
    + apply tame_modify. intros σ. apply vias_set_seq.
    + intros σ _. reflexivity.
    + intros _. apply (agree_Listener_Run w); auto.
      apply tame_modify. intros σ _. apply vias_SetHeader.
  - unfold FlusherPipe_ServeHttpPipe. apply (agree_bind w); auto.
    intros _ σ _. reflexivity.
  - unfold HttpHandlerPipe_ServeHttpPipe. apply (agree_bind w); auto.
    + apply tame_interp; [exact Hov | apply tame_ret].
    + intros σ _. reflexivity.
  - unfold GzipPipe_ServeHttpPipe. destruct (negb _); [apply Hn|].
    intros σ Hσ.
    apply (agree_bind w Ψ); auto.
    + apply Ht. constructor; [lia | exact Hov].
    + intros _ σ2 _. reflexivity.
    + eapply stable_vias; [exact HΨ| |exact Hσ]. apply vias_new_gz, alloc_0.
  - apply (agree_interp w); auto.
Qed.

Lemma Next_enough f1 : forall f2 r w σ,
  len (s (pl σ)) - i (pl σ) < Z.of_nat f1 ->
  len (s (pl σ)) - i (pl σ) < Z.of_nat f2 ->
  Next f1 r w σ = Next f2 r w σ.
Proof.
  induction f1 as [|f IH]; intros f2 r w σ H1 H2.
  - simpl. destruct (Z.geb_spec (i (pl σ)) (len (s (pl σ)))); [|lia].
    destruct f2; simpl;
      now destruct (Z.geb_spec (i (pl σ)) (len (s (pl σ)))); try lia.
  - destruct f2 as [|f']; simpl.
    + destruct (Z.geb_spec (i (pl σ)) (len (s (pl σ)))); [reflexivity|lia].
    + destruct (Z.geb_spec (i (pl σ)) (len (s (pl σ)))); [reflexivity|].
      destruct (Z.ltb_spec (i (pl σ)) 0); [reflexivity|].
      destruct (s (pl σ) !! Z.to_nat (i (pl σ))) as [x|]; [|reflexivity].
      set (σ1 := set_invoked _ _).
      apply (agree_ServeHttpPipe
               (fun σ' => s (pl σ') = s (pl σ1) /\ i (pl σ1) <= i (pl σ'))).
      * intros σa σb Hc [Ha Hb]. destruct (via_cursor _ _ _ _ Hc).
        split; [congruence | lia].
      * intros w' Hov. now apply tame_Next.
      * intros w' σ' [Ha Hb]. apply IH; rewrite Ha; subst σ1; simpl in *; lia.
      * split; [reflexivity | lia].
Qed.

(** [Pipeline_Next] and [Next] with enough fuel are the same call. *)
Lemma Pipeline_Next_fuel f r w σ :
  len (s (pl σ)) - i (pl σ) < Z.of_nat f ->
  Next f r w σ = Pipeline_Next r w σ.
Proof.
  intros H. unfold Pipeline_Next.
  destruct (Z.ltb_spec (i (pl σ)) 0) as [Hneg|Hpos].
  - assert (Hl : 0 <= len (s (pl σ))) by (unfold len; lia).
    destruct f as [|f]; [lia|]. simpl.
    destruct (Z.geb_spec (i (pl σ)) (len (s (pl σ)))); [lia|].
    now destruct (Z.ltb_spec (i (pl σ)) 0); [|lia].
  - apply Next_enough; [exact H|]. unfold len. lia.
Qed.

(** A fresh pipeline over [pipes] for the request served in [σ]. *)
Definition fresh (pipes : list Pipe) (σ : World) : World :=
  set_invoked [] (set_pl (NewPipeline pipes) σ).

(** [Next] called once for each writer of [ws], one call after another. *)
Definition callAll (r : Request) (ws : list Writer) (σ : World) : World :=
  fold_left (fun σ w => snd (Pipeline_Next r w σ)) ws σ.

Lemma fresh_ordered pipes σ : ordered (fresh pipes σ).
Proof.
  split; simpl; [lia|]. intros l1 k l2 H. now destruct l1.
Qed.

Lemma callAll_ordered r ws : forall σ, ordered σ -> ordered (callAll r ws σ).
Proof.
  induction ws as [|w ws IH]; intros σ Hσ; simpl; [exact Hσ|].
  apply IH. eapply (vias_ordered w 0); [|exact Hσ].
  unfold Pipeline_Next. apply tame_Next; [constructor | apply alloc_0].
Qed.

(** C8.  With the cursor at or past the end, [Next] returns at once: no
    panic, no stage invoked, the state as it was.  Otherwise (the cursor
    being a valid index) it moves the cursor on by one and then invokes
    the stage that was under it, handing it the same pipeline.  Over any
    number of calls, nested or repeated, on a pipeline that started
    fresh, no stage is invoked twice. *)
Theorem Next_advances_once :
  (forall fuel r w σ,
     len (s (pl σ)) <= i (pl σ) ->
     Next fuel r w σ = (Ok tt, σ) /\ Pipeline_Next r w σ = (Ok tt, σ))
  /\ (forall r w σ x,
        0 <= i (pl σ) -> s (pl σ) !! Z.to_nat (i (pl σ)) = Some x ->
        Pipeline_Next r w σ = ServeHttpPipe r x w (Pipeline_Next r) (advance σ)
        /\ i (pl (advance σ)) = i (pl σ) + 1
        /\ invoked (advance σ) = invoked σ ++ [i (pl σ)])
  /\ (forall pipes r ws σ, NoDup (invoked (callAll r ws (fresh pipes σ)))).
Proof.
  split; [|split].
  - intros fuel r w σ H.
    assert (Hn : forall f, Next f r w σ = (Ok tt, σ)).
    { intros f. destruct f; simpl;
        now destruct (Z.geb_spec (i (pl σ)) (len (s (pl σ)))); try lia. }
    split; [apply Hn | apply (Hn (S (length (s (pl σ)))))].
  - intros r w σ x Hi Hx. split; [|split; reflexivity].
    pose proof (lookup_lt_Some _ _ _ Hx) as Hlt.
    unfold Pipeline_Next at 1. simpl.
    destruct (Z.geb_spec (i (pl σ)) (len (s (pl σ)))) as [Hge|_];
      [unfold len in Hge; lia|].
    destruct (Z.ltb_spec (i (pl σ)) 0); [lia|]. rewrite Hx.
    apply (agree_ServeHttpPipe
             (fun σ' => s (pl σ') = s (pl σ) /\ i (pl σ) + 1 <= i (pl σ'))).
    + intros σa σb Hc [Ha Hb]. destruct (via_cursor _ _ _ _ Hc).
      split; [congruence | lia].
    + intros w' Hov. now apply tame_Next.
    + intros w' σ' [Ha Hb]. apply Pipeline_Next_fuel.
      rewrite Ha. unfold len. lia.
    + split; simpl; [reflexivity | lia].
  - intros pipes r ws σ. apply ordered_NoDup, callAll_ordered, fresh_ordered.
Qed.

(** C9.  When the pipeline of a request returns, ServeHTTP flushes the
    wrapped sink once more and returns: whatever the stages did, the
    wrapper is then committed and the raw sink has been sent exactly one
    status: the one sent before, if a stage had committed, and otherwise
    the one [ResponseCode] reports at that point (the recorded code, or
    200 when none is set). *)
Theorem ServeHTTP_commits (pipes : list Pipe) (raw : RW.RawSink) (r : Request)
    (σ σ1 : World) :
  RW.statuses (RW.calls raw) = [] ->
  Pipeline_Next r WBase
    (mkWorld (lis σ) (seq σ) (pool σ) (RW.wrapRaw raw)
       (NewPipeline (PServer :: pipes ++ [PFlusher])) [] []) = (Ok tt, σ1) ->
  ServeHTTP pipes (inl raw) r σ = (Ok tt, set_rw (RW.Flush (rw σ1)) σ1)
  /\ RW.IsHeaderWritten (RW.Flush (rw σ1)) = true
  /\ RW.statuses (RW.calls (RW.w (RW.Flush (rw σ1)))) =
       (if RW.headerWritten (rw σ1)
        then RW.statuses (RW.calls (RW.w (rw σ1)))
        else [RW.ResponseCode (rw σ1)])
  /\ length (RW.statuses (RW.calls (RW.w (RW.Flush (rw σ1))))) = 1%nat.
Proof.
  intros Hraw Hnext.
  assert (Hcoh : RW.coherent (rw σ1)).
  { pose proof (tame_Next WBase 0 (S (length (PServer :: pipes ++ [PFlusher]))) r
                  WBase (over_self WBase 0)
                  (mkWorld (lis σ) (seq σ) (pool σ) (RW.wrapRaw raw)
                     (NewPipeline (PServer :: pipes ++ [PFlusher])) [] [])
                  (alloc_0 _)) as Hc.
    unfold Pipeline_Next in Hnext. simpl in Hnext, Hc. rewrite Hnext in Hc.
    eapply vias_base_coherent; [exact Hc|].
    unfold RW.coherent. simpl. now rewrite Hraw. }
  assert (Hst : RW.statuses (RW.calls (RW.w (RW.Flush (rw σ1)))) =
                (if RW.headerWritten (rw σ1)
                 then RW.statuses (RW.calls (RW.w (rw σ1)))
                 else [RW.ResponseCode (rw σ1)])).
  { pose proof (RW.step_statuses (rw σ1) RW.OFlush) as H. simpl in H.
    rewrite H. unfold RW.coherent in Hcoh.
    destruct (RW.headerWritten (rw σ1)); simpl.
    - apply app_nil_r.
    - now destruct (RW.statuses (RW.calls (RW.w (rw σ1)))). }
  split; [|split; [apply RW.Flush_committed | split; [exact Hst|]]].
  - unfold ServeHTTP, bind. simpl RW.AsResponseWriter. unfold RW.wrapRaw in Hnext.
    unfold RW.wrapRaw. rewrite Hnext. simpl.
    unfold handlePanic. now destruct (_ =? 0).
  - rewrite Hst. unfold RW.coherent in Hcoh.
    now destruct (RW.headerWritten (rw σ1)).
Qed.

(** *** The compression stage *)

Lemma gz_run_snoc ops o z0 :
  gz_run (ops ++ [o]) z0 =
  let '(outs, z) := gz_run ops z0 in
  let '(out, z') := match o with
                    | GzWrite b => gz_write codec b z
                    | GzFlush => gz_flush codec z
                    end in
  (outs ++ out, z').
Proof.
  revert z0. induction ops as [|o1 ops IH]; intros z0; simpl.
  - destruct o; [destruct (gz_write codec b z0) | destruct (gz_flush codec z0)];
      now rewrite app_nil_r.
  - destruct (match o1 with
              | GzWrite b => gz_write codec b z0
              | GzFlush => gz_flush codec z0
              end) as [out1 z1].
    rewrite IH. destruct (gz_run ops z1) as [outs z].
    destruct (match o with
              | GzWrite b => gz_write codec b z
              | GzFlush => gz_flush codec z
              end) as [out z'].
    now rewrite app_assoc.
Qed.

Lemma gz_payload_snoc ops o :
  gz_payload (ops ++ [o]) =
  gz_payload ops ++ match o with GzWrite b => b | GzFlush => [] end.
Proof.
  unfold gz_payload. rewrite omap_app, concat_app. f_equal.
  destruct o; simpl; now rewrite ?app_nil_r.
Qed.

(** The state of a gzipWriter bound to the request's [responseWriter],
    against the body bytes the raw sink has been given: [idle] before the
    first write, [pass] when it passes bytes through, [comp] when it
    compresses. *)
Inductive gzState (body0 bodyNow : bytes) : gzipWriter -> Prop :=
| gz_idle :
    bodyNow = body0 -> gzState body0 bodyNow (mkGzipWriter false None [])
| gz_pass cn :
    bodyNow = body0 ++ cn -> gzState body0 bodyNow (mkGzipWriter true None cn)
| gz_comp ops outs z :
    gz_run ops (gz_new codec) = (outs, z) ->
    bodyNow = body0 ++ concat outs ->
    gzState body0 bodyNow (mkGzipWriter true (Some z) (gz_payload ops)).

Definition gzInv (a : nat) (body0 : bytes) (σ : World) : Prop :=
  RW.reliable (RW.w (rw σ))
  /\ exists g, gzs σ !! a = Some g /\ gzState body0 (RW.body (rw σ)) g.

Lemma writeChunks_base chunks : forall σ,
  RW.reliable (RW.w (rw σ)) ->
  exists t,
    writeChunks (w_Write WBase) chunks σ = (None, set_rw t σ)
    /\ RW.body t = RW.body (rw σ) ++ concat chunks
    /\ RW.reliable (RW.w t).
Proof.
  induction chunks as [|c r IH]; intros σ Hrel; simpl.
  - exists (rw σ). rewrite app_nil_r. now destruct σ.
  - pose proof (RW.Write_reliable c (rw σ) Hrel) as He.
    pose proof (RW.step_body (rw σ) (RW.OWrite c)) as Hb.
    pose proof (RW.step_reliable (rw σ) (RW.OWrite c) Hrel) as Hr.
    simpl in Hb, Hr.
    destruct (RW.Write c (rw σ)) as [[n err] t1]. simpl in *. subst err.
    destruct (IH (set_rw t1 σ) Hr) as (t & Hw & Hbody & Hrel').
    exists t. rewrite Hw. simpl in *. split; [reflexivity|]. split; [|exact Hrel'].
    rewrite Hbody, Hb. now rewrite <- app_assoc.
Qed.

Lemma gz_start_body g b σ :
  RW.body (rw (snd (gz_start g b σ))) = RW.body (rw σ)
  /\ (RW.reliable (RW.w (rw σ)) -> RW.reliable (RW.w (rw (snd (gz_start g b σ)))))
  /\ gzs (snd (gz_start g b σ)) = gzs σ.
Proof.
  unfold gz_start, pool_Get.
  repeat (case_match; simpl; try (repeat split; auto)); simplify_eq;
    repeat split; auto.
Qed.

Lemma gz_start_state g b σ :
  (started g = true /\ fst (gz_start g b σ) = g)
  \/ (started g = false
      /\ (fst (gz_start g b σ) = mkGzipWriter true None (consumed g)
          \/ fst (gz_start g b σ) = mkGzipWriter true (Some (gz_new codec)) (consumed g))).
Proof.
  unfold gz_start, pool_Get. destruct (started g) eqn:Hs; simpl; [now left|].
  right. split; [reflexivity|].
  repeat (case_match; simpl; auto); simplify_eq; auto.
Qed.

Lemma w_Write_gzip a inner b σ :
  w_Write (WGzip a inner) b σ =
  match gzs σ !! a with
  | None => ((0, Some "nil gzipWriter"), σ)
  | Some g =>
      let '(g1, σ1) := gz_start g b σ in
      match gw g1 with
      | Some z =>
          let '(chunks, z') := gz_write codec b z in
          let '(err, σ2) := writeChunks (w_Write inner) chunks σ1 in
          let g2 := mkGzipWriter (started g1) (Some z') (consumed g1 ++ b) in
          ((match err with None => len b | Some _ => 0 end, err),
           set_gzs (<[a := g2]> (gzs σ2)) σ2)
      | None =>
          let '(r, σ2) := w_Write inner b σ1 in
          (r, set_gzs (<[a := mkGzipWriter (started g1) None (consumed g1 ++ b)]>
                         (gzs σ2)) σ2)
      end
  end.
Proof. reflexivity. Qed.

Lemma w_Write_base b σ :
  w_Write WBase b σ = (fst (RW.Write b (rw σ)), set_rw (snd (RW.Write b (rw σ))) σ).
Proof. simpl. now destruct (RW.Write b (rw σ)). Qed.

Lemma w_Flush_gzip a inner σ :
  w_Flush (WGzip a inner) σ =
  w_Flush inner
    match gzs σ !! a with
    | Some (mkGzipWriter st (Some z) cn) =>
        let '(chunks, z') := gz_flush codec z in
        let '(_, σ1) := writeChunks (w_Write inner) chunks σ in
        set_gzs (<[a := mkGzipWriter st (Some z') cn]> (gzs σ1)) σ1
    | _ => σ
    end.
Proof. reflexivity. Qed.

Lemma gzInv_Write a body0 b σ :
  gzInv a body0 σ -> gzInv a body0 (snd (w_Write (WGzip a WBase) b σ)).
Proof.
  intros (Hrel & g & Hg & Hst). rewrite w_Write_gzip, Hg.
  destruct (gz_start_body g b σ) as (Hb1 & Hr1 & Hg1).
  pose proof (gz_start_state g b σ) as Hcase.
  destruct (gz_start g b σ) as [g1 σ1]. simpl in Hb1, Hr1, Hg1, Hcase.
  cbv beta iota.
  specialize (Hr1 Hrel).
  assert (Hlt : (a < length (gzs σ1))%nat).
  { rewrite Hg1. eapply lookup_lt_Some; eauto. }
  assert (Hst1 : gzState body0 (RW.body (rw σ1)) g1 /\ started g1 = true).
  { rewrite Hb1. destruct Hcase as [[Hs ->]|[Hs [->| ->]]]; [now split| |];
      (split; [|reflexivity]).
    - inversion Hst as [Hbody|cn Hbody|ops outs z Hrun Hbody]; subst g;
        simpl in Hs; try discriminate.
      simpl. apply gz_pass. now rewrite app_nil_r.
    - inversion Hst as [Hbody|cn Hbody|ops outs z Hrun Hbody]; subst g;
        simpl in Hs; try discriminate.
      simpl. apply (gz_comp _ _ [] [] (gz_new codec)); [reflexivity|].
      simpl. now rewrite app_nil_r. }
  clear Hcase Hst Hg. destruct Hst1 as [Hst1 Hs1].
  inversion Hst1 as [Hbody|cn Hbody|ops outs z Hrun Hbody]; subst g1;
    cbn [gw started consumed].
  - discriminate.
  - pose proof (RW.step_body (rw σ1) (RW.OWrite b)) as Hb.
    pose proof (RW.step_reliable (rw σ1) (RW.OWrite b) Hr1) as Hr.
    rewrite w_Write_base.
    simpl in Hb, Hr. destruct (RW.Write b (rw σ1)) as [res t1]. simpl in *.
    split; [exact Hr|]. eexists. split; [now apply list_lookup_insert_eq|].
    apply gz_pass. simpl. rewrite Hb, Hbody. now rewrite <- app_assoc.
  - destruct (gz_write codec b z) as [chunks z'] eqn:Hw.
    destruct (writeChunks_base chunks σ1 Hr1) as (t & Hwc & Hbody' & Hrel').
    rewrite Hwc. simpl. split; [exact Hrel'|].
    eexists. split; [now apply list_lookup_insert_eq|].
    replace (gz_payload ops ++ b) with (gz_payload (ops ++ [GzWrite b]))
      by apply gz_payload_snoc.
    apply (gz_comp body0 _ (ops ++ [GzWrite b]) (outs ++ chunks) z').
    + rewrite gz_run_snoc, Hrun, Hw. reflexivity.
    + simpl. rewrite Hbody', Hbody, concat_app. now rewrite <- app_assoc.
Qed.

Lemma gzInv_rw a body0 σ o :
  gzInv a body0 σ ->
  match o with RW.OWrite _ => False | _ => True end ->
  gzInv a body0 (set_rw (RW.step (rw σ) o) σ).
Proof.
  intros (Hrel & g & Hg & Hst) Ho. split; simpl.
  - now apply RW.step_reliable.
  - exists g. split; [exact Hg|]. rewrite RW.step_body.
    destruct o; try contradiction; now rewrite app_nil_r.
Qed.

Lemma gzInv_Flush a body0 σ :
  gzInv a body0 σ -> gzInv a body0 (w_Flush (WGzip a WBase) σ).
Proof.
  intros Hinv. rewrite w_Flush_gzip.
  assert (H : gzInv a body0
                match gzs σ !! a with
                | Some (mkGzipWriter st (Some z) cn) =>
                    let '(chunks, z') := gz_flush codec z in
                    let '(_, σ1) := writeChunks (w_Write WBase) chunks σ in
                    set_gzs (<[a := mkGzipWriter st (Some z') cn]> (gzs σ1)) σ1
                | _ => σ
                end).
  { destruct Hinv as (Hrel & g & Hg & Hst). rewrite Hg.
    inversion Hst as [Hbody|cn Hbody|ops outs z Hrun Hbody]; subst g;
      try (split; [exact Hrel | eexists; split; [exact Hg | exact Hst]]).
    destruct (gz_flush codec z) as [chunks z'] eqn:Hf.
    destruct (writeChunks_base chunks σ Hrel) as (t & Hwc & Hbody' & Hrel').
    rewrite Hwc. split; [exact Hrel'|]. simpl.
    eexists. split.
    - apply list_lookup_insert_eq. eapply lookup_lt_Some; eauto.
    - replace (gz_payload ops) with (gz_payload (ops ++ [GzFlush]))
        by (rewrite gz_payload_snoc; apply app_nil_r).
      apply (gz_comp body0 _ (ops ++ [GzFlush]) (outs ++ chunks) z').
      + rewrite gz_run_snoc, Hrun, Hf. reflexivity.
      + rewrite Hbody', Hbody, concat_app. now rewrite <- app_assoc. }
  apply (gzInv_rw a body0 _ RW.OFlush H I).
Qed.

Lemma via_gzInv a body0 σ σ' :
  via (WGzip a WBase) (S a) σ σ' -> gzInv a body0 σ -> gzInv a body0 σ'.
Proof.
  destruct 1 as [σ c|σ k v|σ b|σ|σ Hi|σ l q p g Hg1 Hg2]; intros Hinv.
  - apply (gzInv_rw a body0 σ (RW.OWriteHeader c) Hinv I).
  - apply (gzInv_rw a body0 σ (RW.OSetHeader k v) Hinv I).
  - now apply gzInv_Write.
  - now apply gzInv_Flush.
  - exact Hinv.
  - destruct Hinv as (Hrel & g0 & Hg & Hst). split; [exact Hrel|].
    exists g0. split; [|exact Hst]. simpl.
    rewrite <- (lookup_take_lt g (S a) a) by lia.
    rewrite Hg2. rewrite lookup_take_lt by lia. exact Hg.
Qed.

Lemma vias_gzInv a body0 σ σ' :
  vias (WGzip a WBase) (S a) σ σ' -> gzInv a body0 σ -> gzInv a body0 σ'.
Proof. induction 1; eauto using via_gzInv. Qed.

Lemma gzipWriter_Close_comp g a inner σ st z cn :
  gzs σ !! a = Some (mkGzipWriter st (Some z) cn) ->
  gzipWriter_Close g a inner σ =
  let '(chunks, z') := gz_close codec z in
  let '(err, σ1) := writeChunks (w_Write inner) chunks σ in
  (err, pool_Put g z'
          (set_gzs (<[a := mkGzipWriter st (Some z') cn]> (gzs σ1)) σ1)).
Proof. intros H. unfold gzipWriter_Close. now rewrite H. Qed.

Lemma gzipWriter_Close_none g a inner σ st cn :
  gzs σ !! a = Some (mkGzipWriter st None cn) ->
  gzipWriter_Close g a inner σ = (None, σ).
Proof. intros H. unfold gzipWriter_Close. now rewrite H. Qed.

Lemma pool_Put_frame g z σ :
  rw (pool_Put g z σ) = rw σ /\ gzs (pool_Put g z σ) = gzs σ.
Proof. unfold pool_Put. now destruct (_ >=? _). Qed.

(** What [gzipWriter.Close] adds when the writer compresses. *)
Lemma gzInv_Close g a body0 σ :
  gzInv a body0 σ ->
  exists gz gz',
    gzs σ !! a = Some gz
    /\ gzs (snd (gzipWriter_Close g a WBase σ)) !! a = Some gz'
    /\ consumed gz' = consumed gz
    /\ match gw gz' with
       | Some _ =>
           exists ops,
             consumed gz = gz_payload ops
             /\ RW.body (rw (snd (gzipWriter_Close g a WBase σ))) =
                  body0 ++ gz_stream ops
       | None =>
           RW.body (rw (snd (gzipWriter_Close g a WBase σ))) =
             body0 ++ consumed gz
       end.
Proof.
  intros (Hrel & gz & Hg & Hst).
  inversion Hst as [Hbody|cn Hbody|ops outs z Hrun Hbody]; subst gz.
  - rewrite (gzipWriter_Close_none g a WBase σ _ _ Hg).
    eexists. eexists. split; [exact Hg|]. split; [exact Hg|].
    split; [reflexivity|]. simpl. now rewrite app_nil_r.
  - rewrite (gzipWriter_Close_none g a WBase σ _ _ Hg).
    eexists. eexists. split; [exact Hg|]. split; [exact Hg|].
    split; [reflexivity|]. exact Hbody.
  - rewrite (gzipWriter_Close_comp g a WBase σ _ _ _ Hg).
    destruct (gz_close codec z) as [chunks z'] eqn:Hc.
    destruct (writeChunks_base chunks σ Hrel) as (t & Hwc & Hbody' & Hrel').
    rewrite Hwc. cbn [snd].
    destruct (pool_Put_frame g z'
                (set_gzs (<[a := mkGzipWriter true (Some z') (gz_payload ops)]>
                            (gzs (set_rw t σ))) (set_rw t σ))) as [Hp1 Hp2].
    rewrite Hp1, Hp2. simpl.
    eexists. exists (mkGzipWriter true (Some z') (gz_payload ops)).
    split; [exact Hg|]. split.
    { apply list_lookup_insert_eq. eapply lookup_lt_Some; eauto. }
    split; [reflexivity|]. simpl. exists ops. split; [reflexivity|].
    unfold gz_stream. rewrite Hrun, Hc. simpl.
    rewrite Hbody', Hbody, concat_app. now rewrite <- app_assoc.
Qed.

(** The first-write decision, case by case. *)
Definition derivedType (b : bytes) (σ : World) : string :=
  if String.eqb (RW.getHeader "Content-Type" (rw σ)) ""
  then DetectContentType b
  else RW.getHeader "Content-Type" (rw σ).

Lemma Header_Get_Set h k v : Header_Get (Header_Set h k v) k = v.
Proof. unfold Header_Get, Header_Set. now rewrite lookup_insert_eq. Qed.

Lemma Header_Get_Set_ne h k k' v :
  k <> k' -> Header_Get (Header_Set h k v) k' = Header_Get h k'.
Proof. intros. unfold Header_Get, Header_Set. now rewrite lookup_insert_ne. Qed.

Lemma gz_start_first g b σ :
  started g = false ->
  RW.getHeader "Content-Encoding" (rw σ) = "" ->
  if gzipTypes_MatchString (derivedType b σ)
  then gw (fst (gz_start g b σ)) = Some (gz_new codec)
       /\ RW.getHeader "Content-Encoding" (rw (snd (gz_start g b σ))) = "gzip"
       /\ pool (snd (gz_start g b σ)) = tail (pool σ)
  else gw (fst (gz_start g b σ)) = None
       /\ RW.getHeader "Content-Encoding" (rw (snd (gz_start g b σ))) = "".
Proof.
  intros Hs Hce. unfold gz_start, derivedType, pool_Get. rewrite Hs, Hce. simpl.
  destruct (String.eqb (RW.getHeader "Content-Type" (rw σ)) "") eqn:Hct.
  - destruct (gzipTypes_MatchString (DetectContentType b)) eqn:Hm; simpl.
    + destruct (pool σ) eqn:Hp; simpl; unfold RW.getHeader; simpl;
        rewrite ?Hp, Header_Get_Set; auto.
    + unfold RW.getHeader in *. simpl.
      rewrite Header_Get_Set_ne by discriminate. auto.
  - destruct (gzipTypes_MatchString _) eqn:Hm; simpl.
    + destruct (pool σ) eqn:Hp; simpl; unfold RW.getHeader; simpl;
        rewrite ?Hp, Header_Get_Set; auto.
    + auto.
Qed.

(** C5.  The allow-list matches "text/html".  On the first write through
    a gzipWriter, with no Content-Encoding set: when the derived content
    type (the Content-Type header, or else the type sniffed from the
    bytes) matches the allow-list, Content-Encoding is set to "gzip" and
    a compressor is taken from the pool; when it does not match, no
    compressor is taken and the bytes go to the wrapped writer as they
    are.  For a request that accepts gzip, when the rest of the chain
    returns, what the stage has added to the body at the raw sink (a sink
    whose writes do not fail) is: the gzip stream of exactly the bytes
    written through the gzipWriter, when it compressed; those bytes
    themselves, when it did not. *)
Theorem GzipPipe_roundtrip :
  gzip_roundtrip ->
  gzipTypes_MatchString "text/html" = true
  /\ (forall g b σ,
        started g = false ->
        RW.getHeader "Content-Encoding" (rw σ) = "" ->
        if gzipTypes_MatchString (derivedType b σ)
        then gw (fst (gz_start g b σ)) = Some (gz_new codec)
             /\ RW.getHeader "Content-Encoding" (rw (snd (gz_start g b σ))) = "gzip"
             /\ pool (snd (gz_start g b σ)) = tail (pool σ)
        else gw (fst (gz_start g b σ)) = None
             /\ RW.getHeader "Content-Encoding" (rw (snd (gz_start g b σ))) = "")
  /\ (forall g r fuel σ σ',
        RW.reliable (RW.w (rw σ)) ->
        Contains (Header_Get (reqHeader r) "Accept-Encoding") "gzip" = true ->
        GzipPipe_ServeHttpPipe g r WBase (Next fuel r) σ = (Ok tt, σ') ->
        exists gz,
          gzs σ' !! length (gzs σ) = Some gz
          /\ match gw gz with
             | Some _ =>
                 exists stream,
                   RW.body (rw σ') = RW.body (rw σ) ++ stream
                   /\ gunzip codec stream = Some (consumed gz)
             | None => RW.body (rw σ') = RW.body (rw σ) ++ consumed gz
             end).
Proof.
  intros Hrt. split; [reflexivity|]. split; [apply gz_start_first|].
  intros g r fuel σ σ' Hrel Hacc Hrun.
  unfold GzipPipe_ServeHttpPipe in Hrun. rewrite Hacc in Hrun. simpl in Hrun.
  set (a := length (gzs σ)) in *.
  set (σ1 := set_gzs (gzs σ ++ [mkGzipWriter false None []]) σ) in *.
  assert (Ha1 : alloc (S a) σ1).
  { unfold alloc, σ1, a. simpl. rewrite length_app. simpl. lia. }
  assert (Hinv1 : gzInv a (RW.body (rw σ)) σ1).
  { split; [exact Hrel|]. exists (mkGzipWriter false None []). split.
    - unfold σ1, a. simpl. apply list_lookup_middle. reflexivity.
    - now constructor. }
  pose proof (tame_Next (WGzip a WBase) (S a) fuel r (WGzip a WBase)
                (over_self _ _) σ1 Ha1) as Hv.
  unfold bind in Hrun.
  destruct (Next fuel r (WGzip a WBase) σ1) as [[[]|v] σ2]; [|discriminate].
  simpl in Hv. injection Hrun as <-.
  pose proof (vias_gzInv a _ _ _ Hv Hinv1) as Hinv2.
  pose proof (gzInv_Flush a _ _ Hinv2) as Hinv3.
  destruct (gzInv_Close g a _ _ Hinv3) as (gz & gz' & Hgz & Hl & Hcn & Hres).
  exists gz'. split; [exact Hl|]. rewrite Hcn.
  destruct (gw gz') as [z'|].
  - destruct Hres as (ops & Hp & Hb). exists (gz_stream ops).
    split; [exact Hb|]. rewrite Hp. apply Hrt.
  - exact Hres.
Qed.

(** *** The dispatcher and the gate

    What a request does to the gate it passes through. *)

(** The gate as [NewListener] makes it and [Run] keeps it: requests are
    counted in [Run], and the count is an int32. *)
Definition gateOk (σ : World) : Prop :=
  Gate.trackConnOnAccept (lis σ) = false /\ int32_range (Gate.numConn (lis σ)).

(** The in-flight count and the configuration of the gate are the same
    in [σ'] as in [σ]. *)
Definition gateKept (σ σ' : World) : Prop :=
  Gate.numConn (lis σ') = Gate.numConn (lis σ)
  /\ Gate.trackConnOnAccept (lis σ') = Gate.trackConnOnAccept (lis σ)
  /\ Gate.panicFlags (lis σ') = Gate.panicFlags (lis σ).

Definition balanced {A} (m : M World A) : Prop :=
  forall σ, gateOk σ -> gateKept σ (snd (m σ)).

Lemma gateKept_lis σ σ' : lis σ' = lis σ -> gateKept σ σ'.
Proof. unfold gateKept. now intros ->. Qed.

Lemma gateKept_trans σ1 σ2 σ3 :
  gateKept σ1 σ2 -> gateKept σ2 σ3 -> gateKept σ1 σ3.
Proof. unfold gateKept. intuition congruence. Qed.

Lemma gateKept_ok σ σ' : gateOk σ -> gateKept σ σ' -> gateOk σ'.
Proof. unfold gateOk, gateKept. intros [H1 H2] (-> & -> & _). auto. Qed.

Lemma gz_start_lis g b σ : lis (snd (gz_start g b σ)) = lis σ.
Proof.
  unfold gz_start, pool_Get.
  repeat (case_match; simpl; try reflexivity); simplify_eq; reflexivity.
Qed.

Lemma writeChunks_lis wr :
  (forall b σ, lis (snd (wr b σ)) = lis σ) ->
  forall chunks σ, lis (snd (writeChunks wr chunks σ)) = lis σ.
Proof.
  intros Hwr. induction chunks as [|c r IH]; intros σ; simpl; [reflexivity|].
  pose proof (Hwr c σ) as H. destruct (wr c σ) as [[n [e|]] σ1]; simpl in *.
  - exact H.
  - now rewrite IH.
Qed.

Lemma w_Write_lis w : forall b σ, lis (snd (w_Write w b σ)) = lis σ.
Proof.
  induction w as [|a inner IH]; intros b σ; simpl.
  - now destruct (RW.Write b (rw σ)).
  - destruct (gzs σ !! a) as [g|]; [|reflexivity].
    pose proof (gz_start_lis g b σ) as H1.
    destruct (gz_start g b σ) as [g1 σ1]. simpl in H1.
    destruct (gw g1) as [z|].
    + destruct (gz_write codec b z) as [chunks z'].
      pose proof (writeChunks_lis _ IH chunks σ1) as H2.
      destruct (writeChunks (w_Write inner) chunks σ1) as [err σ2].
      simpl in *. congruence.
    + pose proof (IH b σ1) as H2.
      destruct (w_Write inner b σ1) as [r σ2]. simpl in *. congruence.
Qed.

Lemma w_Flush_lis w : forall σ, lis (w_Flush w σ) = lis σ.
Proof.
  induction w as [|a inner IH]; intros σ; simpl; [reflexivity|].
  rewrite IH.
  destruct (gzs σ !! a) as [[st [z|] cn]|]; try reflexivity.
  destruct (gz_flush codec z) as [chunks z'].
  pose proof (writeChunks_lis _ (w_Write_lis inner) chunks σ) as H.
  now destruct (writeChunks (w_Write inner) chunks σ).
Qed.

Lemma gzipWriter_Close_lis g a inner σ :
  lis (snd (gzipWriter_Close g a inner σ)) = lis σ.
Proof.
  unfold gzipWriter_Close.
  destruct (gzs σ !! a) as [[st [z|] cn]|]; try reflexivity.
  destruct (gz_close codec z) as [chunks z'].
  pose proof (writeChunks_lis _ (w_Write_lis inner) chunks σ) as H.
  destruct (writeChunks (w_Write inner) chunks σ) as [err σ1]. simpl in *.
  unfold pool_Put. now destruct (_ >=? _).
Qed.

Lemma balanced_ret {A} (a : A) : balanced (ret a).
Proof. intros σ _. now apply gateKept_lis. Qed.

Lemma balanced_bind {A B} (m : M World A) (k : A -> M World B) :
  balanced m -> (forall a, balanced (k a)) -> balanced (bind m k).
Proof.
  intros Hm Hk σ Hσ. unfold bind. pose proof (Hm σ Hσ) as H1.
  destruct (m σ) as [[a|v] σ1]; simpl in *; [|exact H1].
  eapply gateKept_trans; [exact H1|]. apply Hk. eapply gateKept_ok; eauto.
Qed.

Lemma balanced_pre {A} (f : World -> World) (m : M World A) :
  (forall σ, lis (f σ) = lis σ) -> balanced m -> balanced (fun σ => m (f σ)).
Proof.
  intros Hf Hm σ Hσ.
  assert (Hk : gateKept σ (f σ)) by now apply gateKept_lis.
  eapply gateKept_trans; [exact Hk|]. apply Hm. eapply gateKept_ok; eauto.
Qed.

Lemma balanced_interp p w next :
  balanced next -> balanced (interp p w next).
Proof.
  intros Hn. induction p as [|v|c k IH|b k IH|k IH|key val k IH|key k IH|k IH|k IH];
    simpl.
  - apply balanced_ret.
  - intros σ _. now apply gateKept_lis.
  - now apply (balanced_pre (w_WriteHeader w c)).
  - intros σ Hσ. pose proof (w_Write_lis w b σ) as Hl.
    destruct (w_Write w b σ) as [r σ1]. simpl in Hl.
    assert (Hk : gateKept σ σ1) by now apply gateKept_lis.
    eapply gateKept_trans; [exact Hk|]. apply IH. eapply gateKept_ok; eauto.
  - apply (balanced_pre (w_Flush w)); [apply w_Flush_lis | exact IH].
  - now apply (balanced_pre (w_SetHeader w key val)).
  - intros σ Hσ. now apply IH.
  - intros σ Hσ. now apply IH.
  - apply balanced_bind; [exact Hn | intros _; exact IH].
Qed.

Lemma checkPause_frame n s :
  Gate.numConn (snd (Gate.checkPause n s)) = Gate.numConn s
  /\ Gate.trackConnOnAccept (snd (Gate.checkPause n s)) = Gate.trackConnOnAccept s
  /\ Gate.panicFlags (snd (Gate.checkPause n s)) = Gate.panicFlags s.
Proof.
  destruct s as [c p h hi lo m fl t e f].
  unfold Gate.checkPause, Gate.CompareAndSwapUint32. simpl.
  repeat (case_match; simpl; try (repeat split; reflexivity)); simplify_eq;
    repeat split; reflexivity.
Qed.

Lemma afterRun_frame_flags s :
  Gate.trackConnOnAccept (Gate.afterRun s) = Gate.trackConnOnAccept s
  /\ Gate.panicFlags (Gate.afterRun s) = Gate.panicFlags s.
Proof.
  destruct s as [c p h hi lo n fl t e f].
  unfold Gate.afterRun, Gate.CompareAndSwapUint32, Gate.signalCond. simpl.
  repeat (case_match; simpl; try (split; reflexivity)); simplify_eq;
    split; reflexivity.
Qed.

(** The admission stage gives the slot back, however the rest of the
    chain ends. *)
Lemma balanced_HTTPServer w next :
  (forall w', balanced (next w')) -> balanced (HTTPServer_ServeHttpPipe w next).
Proof.
  intros Hn. unfold HTTPServer_ServeHttpPipe. apply balanced_bind.
  { intros σ _. now apply gateKept_lis. }
  intros _ σ [Ht Hr]. unfold Listener_Run, Gate.Run. cbn [fst snd].
  destruct (Gate.closed (lis σ) =? 1).
  { unfold withGate, modify. simpl. now apply gateKept_lis. }
  rewrite (Gate.beforeRun_untracked _ Ht).
  set (n := wrap32 (Gate.numConn (lis σ) + 1)).
  destruct (checkPause_frame n (Gate.set_numConn n (lis σ))) as (Hc1 & Hc2 & Hc3).
  destruct (Gate.checkPause n (Gate.set_numConn n (lis σ))) as [cp s2].
  simpl in Hc1, Hc2, Hc3.
  assert (Hn2 : int32_range (Gate.numConn s2)).
  { rewrite Hc1. apply wrap32_range. }
  destruct cp; unfold bind, withGate, modify, finally, ret, Gate.onGate; simpl;
    match goal with |- context [next w ?x] =>
      assert (Hok : gateOk x) by (split; simpl; [congruence | exact Hn2]);
      pose proof (Hn w x Hok) as (Hk1 & Hk2 & Hk3); simpl in Hk1, Hk2, Hk3;
      destruct (next w x) as [r σr]
    end; simpl in *;
    destruct (afterRun_frame_flags (lis σr)) as [Ha1 Ha2];
    (split; [|split]; simpl; [|congruence|congruence]);
    rewrite Gate.afterRun_numConn by congruence; rewrite Hk1, Hc1;
    now apply wrap32_inc_dec.
Qed.

Lemma balanced_ServeHttpPipe r x w next :
  (forall w', balanced (next w')) -> balanced (ServeHttpPipe r x w next).
Proof.
  intros Hn. destruct x as [| |h|g|p]; simpl.
  - now apply balanced_HTTPServer.
  - unfold FlusherPipe_ServeHttpPipe. apply balanced_bind; [apply Hn|].
    intros _ σ _. apply gateKept_lis. apply w_Flush_lis.
  - unfold HttpHandlerPipe_ServeHttpPipe. apply balanced_bind.
    + apply balanced_interp, balanced_ret.
    + intros _. apply Hn.
  - unfold GzipPipe_ServeHttpPipe. destruct (negb _); [apply Hn|].
    intros σ Hσ. set (a := length (gzs σ)).
    set (σ1 := set_gzs (gzs σ ++ [mkGzipWriter false None []]) σ).
    assert (Hk : gateKept σ σ1) by now apply gateKept_lis.
    eapply gateKept_trans; [exact Hk|].
    apply (balanced_bind (next (WGzip a w))
             (fun _ σ2 =>
                (Ok tt, snd (gzipWriter_Close g a w (w_Flush (WGzip a w) σ2))))).
    + apply Hn.
    + intros _ σ2 _. apply gateKept_lis. cbn [snd].
      now rewrite gzipWriter_Close_lis, w_Flush_lis.
    + eapply gateKept_ok; eauto.
  - apply balanced_interp, Hn.
Qed.

Lemma balanced_Next fuel r : forall w, balanced (Next fuel r w).
Proof.
  induction fuel as [|f IH]; intros w σ Hσ; simpl.
  - destruct (_ >=? _); now apply gateKept_lis.
  - destruct (_ >=? _); [now apply gateKept_lis|].
    destruct (_ <? 0); [now apply gateKept_lis|].
    destruct (s (pl σ) !! Z.to_nat (i (pl σ))) as [x|]; [|now apply gateKept_lis].
    assert (Hk : gateKept σ (advance σ)) by now apply gateKept_lis.
    eapply gateKept_trans; [exact Hk|].
    apply (balanced_ServeHttpPipe r x w (Next f r) IH).
    eapply gateKept_ok; eauto.
Qed.

(** X10.  Serving a request never costs an admission slot: whatever the
    stages are and however they end, by returning or by a panic,
    [ServeHTTP] leaves the in-flight count of the gate as it found it. *)
Theorem ServeHTTP_balances_inflight pipes raw r σ :
  gateOk σ ->
  Gate.numConn (lis (snd (ServeHTTP pipes raw r σ))) = Gate.numConn (lis σ).
Proof.
  intros Hσ. unfold ServeHTTP.
  set (σ0 := mkWorld (lis σ) (seq σ) (pool σ) (RW.AsResponseWriter raw)
               (NewPipeline (PServer :: pipes ++ [PFlusher])) [] []).
  assert (H : balanced (bind (Pipeline_Next r WBase)
                          (fun _ => modify (w_Flush WBase)))).
  { apply balanced_bind.
    - intros σ' Hσ'. unfold Pipeline_Next. now apply balanced_Next.
    - intros _ σ' _. apply gateKept_lis. apply w_Flush_lis. }
  destruct (H σ0 Hσ) as (H1 & _).
  destruct (bind (Pipeline_Next r WBase) (fun _ => modify (w_Flush WBase)) σ0)
    as [res σ1].
  exact H1.
Qed.

(** X11.  With [OnPanicRecover] set, [ServeHTTP] returns normally
    whatever the stages do; without it a panic of a stage goes on to the
    caller.  Either way a panic skips the final flush: the state is the
    one the panicking pipeline left. *)
Theorem ServeHTTP_recovers pipes raw r σ :
  gateOk σ ->
  (Z.land (Gate.panicFlags (lis σ)) Gate.OnPanicRecover <> 0 ->
   fst (ServeHTTP pipes raw r σ) = Ok tt)
  /\ (forall v σ1,
        Pipeline_Next r WBase
          (mkWorld (lis σ) (seq σ) (pool σ) (RW.AsResponseWriter raw)
             (NewPipeline (PServer :: pipes ++ [PFlusher])) [] [])
        = (Panicked v, σ1) ->
        snd (ServeHTTP pipes raw r σ) = σ1
        /\ (Z.land (Gate.panicFlags (lis σ)) Gate.OnPanicRecover = 0 ->
            fst (ServeHTTP pipes raw r σ) = Panicked v)).
Proof.
  intros Hσ. unfold ServeHTTP.
  set (σ0 := mkWorld (lis σ) (seq σ) (pool σ) (RW.AsResponseWriter raw)
               (NewPipeline (PServer :: pipes ++ [PFlusher])) [] []).
  assert (H : balanced (bind (Pipeline_Next r WBase)
                          (fun _ => modify (w_Flush WBase)))).
  { apply balanced_bind.
    - intros σ' Hσ'. unfold Pipeline_Next. now apply balanced_Next.
    - intros _ σ' _. apply gateKept_lis. apply w_Flush_lis. }
  destruct (H σ0 Hσ) as (_ & _ & Hf). change (lis σ0) with (lis σ) in Hf.
  split.
  - intros Hfl.
    destruct (bind (Pipeline_Next r WBase) (fun _ => modify (w_Flush WBase)) σ0)
      as [res σ1]. cbn [fst snd] in *. rewrite Hf. unfold handlePanic.
    apply Z.eqb_neq in Hfl. rewrite Hfl. now destruct res as [[]|v].
  - intros v σ1 Hp. unfold bind in *. rewrite Hp in *. cbn [fst snd] in *.
    split; [reflexivity|]. intros Hfl. rewrite Hf. unfold handlePanic.
    now rewrite Hfl.
Qed.

(** X12.  On a closed gate the dispatcher answers 503 with
    [Connection: close] and runs nothing behind the admission stage: the
    raw sink receives that status (and a flush, if it can be flushed) and
    no body, and the gate is left as it was. *)
Theorem ServeHTTP_closed_gate pipes raw r σ :
  Gate.closed (lis σ) = 1 ->
  exists σ',
    ServeHTTP pipes (inl raw) r σ = (Ok tt, σ')
    /\ RW.calls (RW.w (rw σ')) =
         RW.calls raw ++ [RW.SinkWriteHeader RW.StatusServiceUnavailable]
         ++ (if RW.isFlusher raw then [RW.SinkFlush] else [])
    /\ RW.getHeader "Connection" (rw σ') = "close"
    /\ invoked σ' = [0]
    /\ lis σ' = lis σ.
Proof.
  intros Hc. unfold ServeHTTP, bind, Pipeline_Next. simpl.
  unfold HTTPServer_ServeHttpPipe, bind, modify, Listener_Run, Gate.Run, withGate.
  simpl. rewrite Hc. simpl.
  eexists. split.
  - unfold handlePanic. destruct (_ =? 0); reflexivity.
  - simpl. split; [|split; [|split]]; try reflexivity.
    + unfold w_WriteHeader, w_SetHeader. simpl.
      rewrite RW.Flush_calls. simpl. reflexivity.
    + unfold w_WriteHeader, w_SetHeader, RW.getHeader, RW.Flush. simpl.
      destruct (RW.isFlusher raw); simpl; apply Header_Get_Set.
Qed.

(** X13.  The admission stage on an open gate.  The request is counted,
    the rest of the chain runs, and [afterRun] runs when the chain has
    ended.  A request that arrives while the gate is soft-paused or
    hard-paused is served all the same, with [Connection: close] set on
    the response before the chain runs; otherwise the stage leaves the
    response untouched. *)
Theorem admission_stage w next σ :
  Gate.closed (lis σ) <> 1 ->
  Gate.trackConnOnAccept (lis σ) = false ->
  exists σ1,
    HTTPServer_ServeHttpPipe w next σ =
      (let '(res, σ2) := next w σ1 in (res, set_lis (Gate.afterRun (lis σ2)) σ2))
    /\ rw σ1 =
         (if (Gate.hardPaused (lis σ) =? 1) || (Gate.paused (lis σ) =? 1)
          then RW.setHeader "Connection" "close" (rw σ) else rw σ)
    /\ Gate.numConn (lis σ1) = wrap32 (Gate.numConn (lis σ) + 1).
Proof.
  intros Hc Ht.
  unfold HTTPServer_ServeHttpPipe, bind, modify, Listener_Run, Gate.Run, withGate.
  simpl. apply Z.eqb_neq in Hc. rewrite Hc.
  rewrite (Gate.beforeRun_untracked _ Ht). simpl.
  unfold Gate.checkPause, Gate.CompareAndSwapUint32. simpl.
  destruct ((Gate.hardPaused (lis σ) =? 1) || (Gate.paused (lis σ) =? 1));
    [|destruct (_ >=? _); [destruct (Gate.paused (lis σ) =? 0)|]];
    unfold bind, finally, Gate.onGate, ret; simpl;
    match goal with |- context [next w ?x] => exists x end;
    (split; [now destruct (next w _)|]); auto.
Qed.

End WithCodec.

(** *** A concrete instance

    A stand-in codec that stores instead of compressing: [Write] buffers,
    [Flush] and [Close] emit the buffer, and decompression is the identity.
    It honours the contract of the format. *)
Definition storedCodec : GzipCodec :=
  mkCodec bytes []
    (fun b z => ([], z ++ b))
    (fun z => ([z], []))
    (fun z => ([z], []))
    (fun s => Some s).

Definition sniffNothing (b : bytes) : string := "application/octet-stream".

Lemma stored_run ops : forall z0 : bytes,
  concat (fst (gz_run storedCodec ops z0)) ++ snd (gz_run storedCodec ops z0)
  = z0 ++ gz_payload ops.
Proof.
  induction ops as [|o ops IH]; intros z0; simpl.
  - unfold gz_payload. simpl. now rewrite app_nil_r.
  - destruct o as [b|]; simpl.
    + specialize (IH (z0 ++ b)).
      destruct (gz_run storedCodec ops (z0 ++ b)) as [outs z]. simpl in *.
      rewrite IH. unfold gz_payload. simpl. now rewrite <- app_assoc.
    + specialize (IH []).
      destruct (gz_run storedCodec ops []) as [outs z]. simpl in *.
      rewrite <- app_assoc, IH. unfold gz_payload. simpl. reflexivity.
Qed.

Lemma stored_roundtrip : gzip_roundtrip storedCodec.
Proof.
  intros ops. unfold gz_stream. simpl.
  pose proof (stored_run ops []) as H.
  destruct (gz_run storedCodec ops []) as [outs z]. simpl in *.
  rewrite concat_app. simpl. rewrite app_nil_r. now rewrite H.
Qed.

(** A gate with ceiling 10, a request that accepts gzip, and a handler that
    declares text/html and writes two bytes. *)
Definition gate10 : Gate.Listener :=
  Gate.mkListener 0 0 0 10 9 0 0 false None [].

Definition reqGzip : Request :=
  mkRequest (Header_Set ∅ "Accept-Encoding" "gzip, deflate") "example" "/".

Definition hi : bytes := [Byte.x68; Byte.x69].

Definition helloHandler : Prog :=
  DoSetHeader "Content-Type" "text/html" (DoWrite hi (fun _ => Done)).

Definition world0 (pipes : list (Pipe)) (cursor : Z)
  : World storedCodec :=
  mkWorld storedCodec gate10 0 [] (RW.wrapRaw (RW.acceptAll ∅ true))
    (mkPipeline pipes cursor) [] [].

Lemma Next_advances_once_witness :
  Pipeline_Next storedCodec sniffNothing reqGzip WBase (world0 [PFlusher] 1)
    = (Ok tt, world0 [PFlusher] 1)
  /\ i (pl storedCodec (snd (Pipeline_Next storedCodec sniffNothing reqGzip WBase
                              (world0 [PFlusher] 0)))) = 1
  /\ NoDup (invoked storedCodec
              (callAll storedCodec sniffNothing reqGzip [WBase; WBase]
                 (fresh storedCodec [PFlusher; PFlusher] (world0 [] 7)))).
Proof.
  destruct (Next_advances_once storedCodec sniffNothing) as (H1 & H2 & H3).
  split; [|split].
  - apply (H1 0%nat reqGzip WBase (world0 [PFlusher] 1)). simpl. unfold len. simpl. lia.
  - destruct (H2 reqGzip WBase (world0 [PFlusher] 0) PFlusher) as (Heq & Hi & _).
    + simpl. lia.
    + reflexivity.
    + rewrite Heq. reflexivity.
  - apply H3.
Defined.

Lemma ServeHTTP_commits_witness :
  exists σ',
    ServeHTTP storedCodec sniffNothing [] (inl (RW.acceptAll ∅ true)) reqGzip
      (world0 [] 0) = (Ok tt, σ')
    /\ RW.IsHeaderWritten (rw storedCodec σ') = true
    /\ RW.statuses (RW.calls (RW.w (rw storedCodec σ'))) = [200].
Proof.
  destruct (ServeHTTP_commits storedCodec sniffNothing [] (RW.acceptAll ∅ true)
              reqGzip (world0 [] 0) _ eq_refl eq_refl) as (H1 & H2 & H3 & H4).
  eexists. split; [exact H1|]. split; [exact H2|]. exact H3.
Defined.

Lemma GzipPipe_roundtrip_witness :
  exists σ' gz,
    GzipPipe_ServeHttpPipe storedCodec sniffNothing (mkGzipPipe 6 4) reqGzip WBase
      (Next storedCodec sniffNothing 2 reqGzip)
      (world0 [PGzip (mkGzipPipe 6 4); PApp helloHandler] 1)
    = (Ok tt, σ')
    /\ gzs storedCodec σ' !! 0%nat = Some gz
    /\ consumed storedCodec gz = hi
    /\ RW.getHeader "Content-Encoding" (rw storedCodec σ') = "gzip"
    /\ gunzip storedCodec (RW.body (rw storedCodec σ')) = Some hi.
Proof.
  destruct (GzipPipe_roundtrip storedCodec sniffNothing stored_roundtrip)
    as (_ & _ & H).
  eexists. eexists.
  split; [vm_compute; reflexivity|].
  split; [vm_compute; reflexivity|].
  split; [reflexivity|]. split; [vm_compute; reflexivity|].
  match goal with |- gunzip _ (RW.body (rw _ ?s)) = _ =>
    destruct (H (mkGzipPipe 6 4) reqGzip 2%nat
                (world0 [PGzip (mkGzipPipe 6 4); PApp helloHandler] 1) s)
      as (gz & Hgz & Hres) end.
  - intros cs b. reflexivity.
  - vm_compute. reflexivity.
  - vm_compute. reflexivity.
  - vm_compute in Hgz. injection Hgz as <-. simpl in Hres.
    destruct Hres as (stream & Hb & Hg). simpl in Hb.
    vm_compute in Hb. subst stream. exact Hg.
Defined.


(** A stage that panics, and gates that recover, are closed, or are
    hard-paused. *)
Definition gateOf (l : Gate.Listener) : World storedCodec :=
  set_lis storedCodec l (world0 [] 0).

Lemma ServeHTTP_balances_inflight_witness :
  Gate.numConn
    (lis storedCodec
       (snd (ServeHTTP storedCodec sniffNothing [PApp (Fault "boom")]
               (inl (RW.acceptAll ∅ true)) reqGzip (gateOf gate10)))) = 0.
Proof.
  assert (Hr : int32_range (Gate.numConn (lis storedCodec (gateOf gate10)))).
  { unfold int32_range. simpl. lia. }
  exact (ServeHTTP_balances_inflight storedCodec sniffNothing
           [PApp (Fault "boom")] (inl (RW.acceptAll ∅ true)) reqGzip
           (gateOf gate10) (conj eq_refl Hr)).
Defined.

Lemma ServeHTTP_recovers_witness :
  fst (ServeHTTP storedCodec sniffNothing [PApp (Fault "boom")]
         (inl (RW.acceptAll ∅ true)) reqGzip
         (gateOf (Gate.NewListener None 10 Gate.OnPanicRecover))) = Ok tt.
Proof.
  assert (Hr : int32_range
                 (Gate.numConn
                    (lis storedCodec
                       (gateOf (Gate.NewListener None 10 Gate.OnPanicRecover))))).
  { unfold int32_range. simpl. lia. }
  apply (ServeHTTP_recovers storedCodec sniffNothing [PApp (Fault "boom")]
           (inl (RW.acceptAll ∅ true)) reqGzip
           (gateOf (Gate.NewListener None 10 Gate.OnPanicRecover))
           (conj eq_refl Hr)).
  vm_compute. discriminate.
Defined.

Lemma ServeHTTP_closed_gate_witness :
  exists σ',
    ServeHTTP storedCodec sniffNothing [PApp helloHandler]
      (inl (RW.acceptAll ∅ true)) reqGzip
      (gateOf (Gate.set_closed 1 gate10)) = (Ok tt, σ')
    /\ RW.calls (RW.w (rw storedCodec σ')) =
         [RW.SinkWriteHeader 503; RW.SinkFlush]
    /\ invoked storedCodec σ' = [0].
Proof.
  destruct (ServeHTTP_closed_gate storedCodec sniffNothing [PApp helloHandler]
              (RW.acceptAll ∅ true) reqGzip
              (gateOf (Gate.set_closed 1 gate10)) eq_refl)
    as (σ' & H1 & H2 & _ & H3 & _).
  exists σ'. split; [exact H1|]. split; [exact H2 | exact H3].
Defined.

Lemma admission_stage_witness :
  exists σ1,
    HTTPServer_ServeHttpPipe storedCodec WBase (fun _ => ret tt)
      (gateOf (Gate.HardPause gate10)) =
      (Ok tt, set_lis storedCodec (Gate.afterRun (lis storedCodec σ1)) σ1)
    /\ RW.getHeader "Connection" (rw storedCodec σ1) = "close"
    /\ Gate.numConn (lis storedCodec σ1) = 1.
Proof.
  destruct (admission_stage storedCodec WBase (fun _ => ret tt)
              (gateOf (Gate.HardPause gate10)))
    as (σ1 & H1 & H2 & H3).
  - vm_compute. discriminate.
  - reflexivity.
  - exists σ1. split; [exact H1|]. split; [|exact H3].
    unfold RW.getHeader. rewrite H2. reflexivity.
Defined.

(** *** The allow-list of content types *)

Lemma String_prefix_app p : forall s t,
  String.prefix p s = true -> String.prefix p (String.append s t) = true.
Proof.
  induction p as [|a p IH]; intros s t H.
  - now destruct (String.append s t).
  - destruct s as [|c s]; simpl in *; [discriminate|].
    destruct (Ascii.ascii_dec a c); [now apply IH | discriminate].
Qed.

Lemma substring_0 m : forall s, String.substring m 0 s = EmptyString.
Proof.
  induction m as [|m IH]; intros [|c s]; simpl; auto.
Qed.

Lemma substring_app s : forall m n t x,
  String.substring m n s = x -> String.length x = n ->
  String.substring m n (String.append s t) = x.
Proof.
  induction s as [|c s IH]; intros m n t x Hx Hl.
  - assert (x = EmptyString) by (destruct m, n; simpl in Hx; congruence).
    clear Hx. subst x. simpl in Hl. subst n. simpl.
    destruct m; [now destruct t|].
    apply substring_0.
  - destruct m as [|m]; simpl in *.
    + destruct n as [|n]; [exact Hx|]. subst x. simpl in Hl.
      f_equal. apply IH; [reflexivity | congruence].
    + now apply IH.
Qed.

Lemma Contains_app s t sub :
  sub <> EmptyString -> Contains s sub = true ->
  Contains (String.append s t) sub = true.
Proof.
  unfold Contains. intros Hne H.
  destruct (String.index 0 sub s) as [m|] eqn:H1; [|discriminate].
  destruct (String.index 0 sub (String.append s t)) eqn:H2; [reflexivity|].
  exfalso. apply (String.index_correct3 0 m _ _ H2 Hne (Nat.le_0_l m)).
  apply substring_app; [|reflexivity].
  exact (String.index_correct1 _ _ _ _ H1).
Qed.

(** X18.  The allow-list looks at the start and at the inside of a
    content type, never at its end: a value that matches still matches
    with anything appended (parameters such as a charset), and every
    value that starts with "text/" matches. *)
Theorem gzipTypes_suffix ctype params :
  gzipTypes_MatchString ctype = true ->
  gzipTypes_MatchString (String.append ctype params) = true
  /\ gzipTypes_MatchString (String.append "text/" params) = true.
Proof.
  intros H. split.
  2: { unfold gzipTypes_MatchString. apply orb_true_iff. left.
       now apply String_prefix_app. }
  unfold gzipTypes_MatchString in *.
  apply orb_true_iff in H as [H|H]; apply orb_true_iff.
  - left. now apply String_prefix_app.
  - right. apply existsb_exists in H as (w & Hin & Hw).
    apply existsb_exists. exists w. split; [exact Hin|].
    apply Contains_app; [|exact Hw].
    simpl in Hin. intuition (subst; discriminate).
Qed.

Lemma gzipTypes_suffix_witness :
  gzipTypes_MatchString "application/json; charset = utf-8" = true.
Proof.
  exact (proj1 (gzipTypes_suffix "application/json" "; charset = utf-8" eq_refl)).
Defined.

End Pipe.

(** ** The WebStore (second part of pipeline.go) *)

Module Store.

(** [safestore.T] lives outside the repository.  The WebStore uses three
    things of it: [safestore.New(false)], [Get(key)], which yields nil for
    a key that is not there, and [Put(key, val, 0)].  Values are Go
    interface values, [None] standing for nil. *)
Record SafeStore (V : Type) : Type := mkSafeStore {
  T : Type;
  ss_New : T;
  ss_Get : T -> string -> option V;
  ss_Put : string -> option V -> T -> T
}.
Arguments T {V} _.
Arguments ss_New {V} _.
Arguments ss_Get {V} _ _ _.
Arguments ss_Put {V} _ _ _ _.

Section WebStore.
Context {NS : Type} `{Countable NS}.
Context {V : Type}.
Variable safestore : SafeStore V.

(** What the WebStore relies on: a new store is empty, and a store
    returns the value last put under a key. *)
Definition safestore_contract : Prop :=
  (forall k, ss_Get safestore (ss_New safestore) k = None)
  /\ (forall t k v k',
        ss_Get safestore (ss_Put safestore k v t) k' =
          if decide (k = k') then v else ss_Get safestore t k').

(** [type WebStore struct]: [container], a map from namespaces to the
    stores they point to.  The lock only serialises access to the map. *)
Abbreviation WebStore := (gmap NS (T safestore)).

Definition NewWebStore : WebStore := ∅.

(** [rq]: the store of the namespace, nil when it has none. *)
Definition rq (rc : WebStore) (ns : NS) : option (T safestore) := rc !! ns.

(** [rqNonNil]: the store of the namespace, made and registered when it
    has none. *)
Definition rqNonNil (rc : WebStore) (ns : NS) : T safestore * WebStore :=
  match rc !! ns with
  | Some t => (t, rc)
  | None => (ss_New safestore, <[ns := ss_New safestore]> rc)
  end.

Definition Get (rc : WebStore) (ns : NS) (key : string) : option V :=
  match rq rc ns with
  | Some t => ss_Get safestore t key
  | None => None
  end.

(** [Put]: the store is reached through the pointer kept in the map, so
    the map sees what is put. *)
Definition Put (rc : WebStore) (ns : NS) (key : string) (val : option V)
  : WebStore :=
  let '(t, rc1) := rqNonNil rc ns in
  <[ns := ss_Put safestore key val t]> rc1.

Definition Clear (rc : WebStore) (ns : NS) : WebStore := delete ns rc.

(** X14.  A value put under a namespace and a key is what [Get] returns
    for them afterwards, and a [Put] changes the answer for no other
    namespace and no other key; a [Get] for a namespace that has no
    store yet yields nil. *)
Theorem WebStore_Put_Get :
  safestore_contract ->
  (forall rc ns key val ns' key',
     Get (Put rc ns key val) ns' key' =
       if decide (ns = ns' /\ key = key') then val else Get rc ns' key')
  /\ (forall rc ns key, rq rc ns = None -> Get rc ns key = None)
  /\ (forall ns key, Get NewWebStore ns key = None).
Proof.
  intros [Hnew Hput]. split; [|split].
  - intros rc ns key val ns' key'. unfold Put, Get, rq, rqNonNil.
    destruct (decide (ns = ns')) as [<-|Hns].
    + destruct (rc !! ns) as [t|] eqn:Hl; cbv beta iota;
        rewrite lookup_insert_eq, Hput;
        destruct (decide (key = key')) as [<-|Hk].
      * rewrite decide_True by auto. reflexivity.
      * rewrite decide_False by tauto. reflexivity.
      * rewrite decide_True by auto. reflexivity.
      * rewrite decide_False by tauto. apply Hnew.
    + rewrite decide_False by tauto.
      destruct (rc !! ns) as [t|] eqn:Hl; cbv beta iota;
        rewrite !lookup_insert_ne by exact Hns; reflexivity.
  - intros rc ns key Hr. unfold Get. now rewrite Hr.
  - intros ns key. unfold Get, rq, NewWebStore. now rewrite lookup_empty.
Qed.

(** X15.  [Clear] forgets a namespace and only that one: afterwards
    every key of it reads nil, a later [Put] starts from an empty store,
    the other namespaces read as before, and clearing a namespace that
    has no store changes nothing. *)
Theorem WebStore_Clear :
  safestore_contract ->
  (forall rc ns ns' key,
     Get (Clear rc ns) ns' key = if decide (ns = ns') then None else Get rc ns' key)
  /\ (forall rc ns key val key',
        Get (Put (Clear rc ns) ns key val) ns key' =
          if decide (key = key') then val else None)
  /\ (forall rc ns, rq rc ns = None -> Clear rc ns = rc)
  /\ (forall rc ns, Clear (Clear rc ns) ns = Clear rc ns).
Proof.
  intros [Hnew Hput]. split; [|split; [|split]].
  - intros rc ns ns' key. unfold Clear, Get, rq.
    destruct (decide (ns = ns')) as [<-|Hns].
    + now rewrite lookup_delete_eq.
    + now rewrite lookup_delete_ne.
  - intros rc ns key val key'. unfold Put, Get, rq, rqNonNil, Clear.
    rewrite lookup_delete_eq. cbv beta iota. rewrite lookup_insert_eq, Hput.
    destruct (decide (key = key')); [reflexivity | apply Hnew].
  - intros rc ns Hr. unfold Clear. now apply delete_id.
  - intros rc ns. unfold Clear. apply delete_delete_eq.
Qed.

End WebStore.

(** A store that is a finite map, for namespaces named by strings. *)
Definition mapStore : SafeStore Z :=
  mkSafeStore Z (gmap string (option Z)) ∅
    (fun t k => default None (t !! k))
    (fun k v t => <[k := v]> t).

Lemma mapStore_contract : safestore_contract mapStore.
Proof.
  split.
  - intros k. simpl. now rewrite lookup_empty.
  - intros t k v k'. simpl. destruct (decide (k = k')) as [<-|Hk].
    + now rewrite lookup_insert_eq.
    + now rewrite lookup_insert_ne.
Qed.

Lemma WebStore_Put_Get_witness :
  Get mapStore (Put mapStore (NewWebStore mapStore) "req1" "user" (Some 7))
    "req1" "user" = Some 7
  /\ Get mapStore (Put mapStore (NewWebStore mapStore) "req1" "user" (Some 7))
       "req2" "user" = None.
Proof.
  destruct (WebStore_Put_Get (NS := string) mapStore mapStore_contract)
    as (H & _ & H0).
  split.
  - exact (H (NewWebStore mapStore) "req1" "user" (Some 7) "req1" "user").
  - rewrite (H (NewWebStore mapStore) "req1" "user" (Some 7) "req2" "user").
    apply H0.
Defined.

Lemma WebStore_Clear_witness :
  Get mapStore
    (Clear mapStore (Put mapStore (NewWebStore mapStore) "req1" "user" (Some 7))
       "req1")
    "req1" "user" = None.
Proof.
  destruct (WebStore_Clear (NS := string) mapStore mapStore_contract) as (H & _).
  exact (H (Put mapStore (NewWebStore mapStore) "req1" "user" (Some 7))
           "req1" "req1" "user").
Defined.

End Store.
